(** * infinigen_examples/generate_indoors.py: stage catalog and composition driver

    A shallow embedding of [default_greedy_stages] and [compose_indoors].

    Part I embeds the tags, relations and domains the stage catalog is built
    from, and the catalog itself.  Part II embeds the composition driver as a
    program in a trace / exception monad whose environment (every collaborator
    the driver calls) is an explicit parameter. *)

From Stdlib Require Import List String Bool Arith ZArith QArith Lia DecimalString.
Import ListNotations.
Close Scope Q_scope.
Open Scope string_scope.
Open Scope list_scope.

Set Implicit Arguments.

(* ===================================================================== *)
(** * Part I.  Tags, relations, domains                                   *)
(* ===================================================================== *)

Module Tags.

(** The members of [t.Semantics] and [t.Subpart] the file refers to. *)
Inductive Semantics :=
| Room | Object | Bedroom | LivingRoom | Kitchen | Bathroom | DiningRoom
| Table | Surface | Bottle | FocusObject | AssetPlaceholderForChildren
| Door | Window.

Inductive Subpart := SupportSurface | Ceiling | Wall | Visible | Top | Bottom.

(** A tag is a semantic tag, a subpart tag, a variable ([t.Variable(name)],
    the VariableTag of the data model) or the negation [-tag] of a tag. *)
Inductive Tag :=
| Sem (s : Semantics)
| Sub (p : Subpart)
| VariableTag (name : string)
| Negated (t : Tag).

Definition Semantics_eq_dec (a b : Semantics) : {a = b} + {a <> b}.
Proof. decide equality. Defined.

Definition Subpart_eq_dec (a b : Subpart) : {a = b} + {a <> b}.
Proof. decide equality. Defined.

Definition Tag_eq_dec (a b : Tag) : {a = b} + {a <> b}.
Proof.
  decide equality;
    [apply Semantics_eq_dec | apply Subpart_eq_dec | apply string_dec].
Defined.

(** [tag in tags] for a Python set of tags. *)
Definition tag_in (t : Tag) (ts : list Tag) : bool :=
  if in_dec Tag_eq_dec t ts then true else false.

End Tags.
Import Tags.

Module Reasoning.

(** Relation predicates of the constraint language ([cl]): [cl.AnyRelation()],
    [cl.StableAgainst(child_tags, parent_tags)] and the negation [-rel]. *)
Inductive Relation :=
| AnyRelation
| StableAgainst (child_tags parent_tags : list Tag)
| NegatedRelation (rel : Relation).

(** Modelled from the spec: [r.Domain] (infinigen.core.constraints.reasoning
    is not part of the sources).  "A tag set (required and excluded semantic
    tags) and zero or more relation constraints: (relation predicate, target
    Domain) pairs, each optionally negated."  The relation constraints are
    kept in the order they were added. *)
#[warnings="-register-all"]
Inductive Domain :=
| mkDomain (tags : list Tag) (relations : list (Relation * Domain)).

Definition tags (d : Domain) : list Tag :=
  match d with mkDomain ts _ => ts end.

Definition relations (d : Domain) : list (Relation * Domain) :=
  match d with mkDomain _ rs => rs end.

(** Modelled from the spec: [-relation].  Negating a negated relation gives
    the relation back. *)
Definition neg (rel : Relation) : Relation :=
  match rel with
  | NegatedRelation r => r
  | _ => NegatedRelation rel
  end.

(** Modelled from the spec: the combinators of section 4.1.  "[with_relation]
    returns a new Domain requiring (or forbidding, if negated) that a matching
    entity have a relation satisfying the predicate to some entity matching
    the target"; "[with_tags] returns a new Domain with additional required
    tags".  Neither changes its argument. *)
Definition with_relation (d : Domain) (rel : Relation) (target : Domain) : Domain :=
  mkDomain (tags d) (relations d ++ [(rel, target)]).

Definition with_tags (d : Domain) (ts : list Tag) : Domain :=
  mkDomain (tags d ++ ts) (relations d).

(** The variables a Domain refers to: the variable tags among its tags, and
    the variables of the targets of its relation constraints. *)
Fixpoint variables_of (d : Domain) : list Tag :=
  match d with
  | mkDomain ts rs =>
      filter (fun t => match t with VariableTag _ => true | _ => false end) ts
      ++ flat_map (fun c => match c with (_, tgt) => variables_of tgt end) rs
  end.

(** ** Scene state entries *)

(** The geometry handle of an entity (a [bpy] object): only the attributes
    the driver reads.  [dimensions_length] is [obj.dimensions.length],
    [cycles_is_portal] is [obj.data.cycles.is_portal]. *)
Record BpyObject := mkBpy {
  bpy_name : string;
  bpy_type : string;
  dimensions_length : Q;
  cycles_is_portal : bool
}.

(** Modelled from the spec: [state_def.ObjectSpec], "an opaque geometry
    handle, a set of semantic tags, and a set of relations to other Object
    Specs"; a relation names its target by key. *)
Record ObjectSpec := mkObjectSpec {
  obj : BpyObject;
  obj_tags : list Tag;
  obj_relations : list (Relation * string)
}.

(** [state.objs]: entity key to Object Spec, in insertion order. *)
Definition Objs := list (string * ObjectSpec).

Fixpoint lookup {A} (k : string) (m : list (string * A)) : option A :=
  match m with
  | [] => None
  | (k', v) :: rest => if string_dec k k' then Some v else lookup k rest
  end.

(** An assignment binds variable names to entity keys. *)
Definition Assignment := list (string * string).

Section Matching.

(** [implies stored pred]: does a relation stored in the scene state
    satisfy a relation predicate of the constraint language.  The
    constraint language is a collaborator; [AnyRelation] is satisfied by
    every stored relation. *)
Variable implies : Relation -> Relation -> bool.
Variable objs : Objs.
Variable sigma : Assignment.

Definition satisfies (stored pred : Relation) : bool :=
  match pred with
  | AnyRelation => true
  | _ => implies stored pred
  end.

(** Modelled from the spec: a tag of a Domain against an entity.  A plain
    tag is required, a negated tag excluded, and a variable is met by the
    entity the assignment binds it to. *)
Fixpoint tag_holds (key : string) (spec : ObjectSpec) (t : Tag) : bool :=
  match t with
  | Negated t' => negb (tag_holds key spec t')
  | VariableTag v =>
      match lookup v sigma with
      | Some k => if string_dec k key then true else false
      | None => false
      end
  | _ => tag_in t (obj_tags spec)
  end.

(** Modelled from the spec: one relation constraint.  [target k] says
    whether the entity with key [k] matches the target Domain.  A negated
    predicate is the complement of the predicate (spec section 8). *)
Fixpoint clause (rel : Relation) (target : string -> bool)
         (spec : ObjectSpec) : bool :=
  match rel with
  | NegatedRelation r => negb (clause r target spec)
  | _ => existsb (fun st => satisfies (fst st) rel && target (snd st))
                 (obj_relations spec)
  end.

(** Modelled from the spec: matching an entity against a Domain, "pure and
    side-effect-free"; the recursion follows the Domain, so it ends
    whatever the relation graph of the scene is. *)
Fixpoint matches (d : Domain) (key : string) (spec : ObjectSpec) : bool :=
  match d with
  | mkDomain ts rs =>
      forallb (tag_holds key spec) ts &&
      forallb (fun c =>
                 match c with
                 | (rel, tgt) =>
                     clause rel
                       (fun k => match lookup k objs with
                                 | Some s => matches tgt k s
                                 | None => false
                                 end)
                       spec
                 end) rs
  end.

Definition matches_key (d : Domain) (k : string) : bool :=
  match lookup k objs with
  | Some s => matches d k s
  | None => false
  end.

End Matching.

End Reasoning.
Import Reasoning.

(** Python dict assignment [d[k] = v]: replaces the value of an existing key
    in place, appends a new key at the end. *)
Fixpoint dict_set {A} (d : list (string * A)) (k : string) (v : A)
  : list (string * A) :=
  match d with
  | [] => [(k, v)]
  | (k', v') :: rest =>
      if string_dec k k' then (k, v) :: rest else (k', v') :: dict_set rest k v
  end.

(* ===================================================================== *)
(** * The stage catalog                                                   *)
(* ===================================================================== *)

Module ConstraintUtil.
(** [cu.variable_room], [cu.variable_obj]. *)
Definition variable_room : Tag := VariableTag "room".
Definition variable_obj : Tag := VariableTag "obj".
End ConstraintUtil.

Section Catalog.

(** Constants of [infinigen_examples.util.constraint_util] ([cu]), which is
    not part of the sources: four tag sets and two relations. *)
Variables floortags walltags ceilingtags side_tags : list Tag.
Variables cu_on cu_ontop : Relation.

Definition on_floor := StableAgainst [] floortags.
Definition on_wall := StableAgainst [] walltags.
Definition on_ceiling := StableAgainst [] ceilingtags.
Definition side := StableAgainst [] side_tags.

Definition all_room := mkDomain [Sem Room; Negated (Sem Object)] [].
Definition all_obj := mkDomain [Sem Object; Negated (Sem Room)] [].

Definition all_obj_in_room :=
  with_relation all_obj AnyRelation
    (with_tags all_room [ConstraintUtil.variable_room]).
Definition primary := with_relation all_obj_in_room (neg AnyRelation) all_obj.

Definition secondary :=
  with_relation all_obj AnyRelation
    (with_tags primary [ConstraintUtil.variable_obj]).
Definition nonside := with_relation secondary (neg side) all_obj.

Definition default_greedy_stages : list (string * Domain) :=
  let greedy_stages := [] in
  let greedy_stages := dict_set greedy_stages "rooms" all_room in
  let greedy_stages :=
    dict_set greedy_stages "on_floor" (with_relation primary on_floor all_room) in
  let greedy_stages :=
    dict_set greedy_stages "on_wall"
      (with_relation
         (with_relation
            (with_relation primary (neg on_floor) all_room)
            (neg on_ceiling) all_room)
         on_wall all_room) in
  let greedy_stages :=
    dict_set greedy_stages "on_ceiling"
      (with_relation
         (with_relation
            (with_relation primary (neg on_floor) all_room)
            on_ceiling all_room)
         (neg on_wall) all_room) in
  let greedy_stages :=
    dict_set greedy_stages "side_obj" (with_relation secondary side all_obj) in
  let greedy_stages :=
    dict_set greedy_stages "obj_ontop_obj"
      (with_relation (with_relation nonside cu_ontop all_obj)
         (neg cu_on) all_obj) in
  let greedy_stages :=
    dict_set greedy_stages "obj_on_support"
      (with_relation (with_relation nonside cu_on all_obj)
         (neg cu_ontop) all_obj) in
  greedy_stages.

End Catalog.

(** [all_vars = [cu.variable_room, cu.variable_obj]] *)
Definition all_vars : list Tag :=
  [ConstraintUtil.variable_room; ConstraintUtil.variable_obj].

(* ===================================================================== *)
(** * What the catalog is said to contain                                 *)
(* ===================================================================== *)

(** The words of the stage catalog's description, written directly as
    predicates on the entities of a scene state; the catalog built by the
    code is compared with them below. *)
Module CatalogSpec.
Section CatalogSpec.

Variable implies : Relation -> Relation -> bool.
Variable objs : Objs.
Variable sigma : Assignment.

(** [at_key P k]: the scene has an entity with key [k], and it satisfies [P]. *)
Definition at_key (P : string -> ObjectSpec -> bool) (k : string) : bool :=
  match lookup k objs with
  | Some s => P k s
  | None => false
  end.

Definition bound (var : string) (k : string) : bool :=
  match lookup var sigma with
  | Some k' => if string_dec k' k then true else false
  | None => false
  end.

(** A room entity: tagged Room, not tagged Object.  An object: the converse. *)
Definition is_room (k : string) (s : ObjectSpec) : bool :=
  tag_in (Sem Room) (obj_tags s) && negb (tag_in (Sem Object) (obj_tags s)).
Definition is_object (k : string) (s : ObjectSpec) : bool :=
  tag_in (Sem Object) (obj_tags s) && negb (tag_in (Sem Room) (obj_tags s)).

(** [related rel P s]: [s] has a relation satisfying [rel] to an entity
    satisfying [P]. *)
Definition related (rel : Relation) (P : string -> ObjectSpec -> bool)
           (s : ObjectSpec) : bool :=
  clause implies rel (at_key P) s.

(** Primary objects: "objects related to a room and not related to any
    other object"; the room is the one the room variable is bound to. *)
Definition is_primary (k : string) (s : ObjectSpec) : bool :=
  is_object k s
  && related AnyRelation (fun k' s' => is_room k' s' && bound "room" k') s
  && negb (related AnyRelation is_object s).

(** Secondary objects: "objects related to a primary object bound by the
    object variable". *)
Definition is_secondary (k : string) (s : ObjectSpec) : bool :=
  is_object k s
  && related AnyRelation (fun k' s' => is_primary k' s' && bound "obj" k') s.

(** What each named stage is said to match.  The support relations are
    written out: floor support is being stable against the floor tags of the
    constraint utilities, with no tag asked of the child; wall, ceiling and
    lateral support likewise against the wall, ceiling and side tags; on top
    and on are the two relations of the constraint utilities.  A name that
    is not a stage matches nothing. *)
Variables floortags walltags ceilingtags side_tags : list Tag.
Variables cu_on cu_ontop : Relation.

Definition spec_stage (name : string) (k : string) (s : ObjectSpec) : bool :=
  let floor := related (StableAgainst [] floortags) is_room s in
  let wall := related (StableAgainst [] walltags) is_room s in
  let ceiling := related (StableAgainst [] ceilingtags) is_room s in
  let lateral := related (StableAgainst [] side_tags) is_object s in
  let ontop := related cu_ontop is_object s in
  let on := related cu_on is_object s in
  if string_dec name "rooms" then is_room k s
  else if string_dec name "on_floor" then is_primary k s && floor
  else if string_dec name "on_wall" then
    is_primary k s && negb floor && negb ceiling && wall
  else if string_dec name "on_ceiling" then
    is_primary k s && negb floor && ceiling && negb wall
  else if string_dec name "side_obj" then is_secondary k s && lateral
  else if string_dec name "obj_ontop_obj" then
    is_secondary k s && negb lateral && ontop && negb on
  else if string_dec name "obj_on_support" then
    is_secondary k s && negb lateral && on && negb ontop
  else false.

End CatalogSpec.
End CatalogSpec.

(** [stages[name]] matched against an entity; a missing stage matches
    nothing. *)
Definition stage_matches (implies : Relation -> Relation -> bool) (objs : Objs)
           (sigma : Assignment) (stages : list (string * Domain))
           (name : string) (k : string) (s : ObjectSpec) : bool :=
  match lookup name stages with
  | Some d => matches implies objs sigma d k s
  | None => false
  end.

(** The relation constraints a stage's domain carries. *)
Definition stage_relations (stages : list (string * Domain)) (name : string)
  : list (Relation * Domain) :=
  match lookup name stages with
  | Some d => relations d
  | None => []
  end.

(** The seven stage names, in catalog order. *)
Definition stage_names : list string :=
  ["rooms"; "on_floor"; "on_wall"; "on_ceiling";
   "side_obj"; "obj_ontop_obj"; "obj_on_support"].

(* ===================================================================== *)
(** * Part II.  The composition driver                                    *)
(* ===================================================================== *)

Module Driver.

(** Values of the overrides mapping. *)
Inductive PyVal :=
| VNone
| VBool (b : bool)
| VInt (n : Z)
| VFloat (q : Q)
| VStr (s : string)
| VObj (h : string).

(** Python truth value. *)
Definition truthy (v : PyVal) : bool :=
  match v with
  | VNone => false
  | VBool b => b
  | VInt n => negb (Z.eqb n 0)
  | VFloat q => negb (Qeq_bool q 0%Q)
  | VStr s => negb (String.eqb s "")
  | VObj _ => true
  end.

Definition Overrides := list (string * PyVal).

(** [d.get(k, default)] *)
Definition dict_get (d : Overrides) (k : string) (default : PyVal) : PyVal :=
  match lookup k d with
  | Some v => v
  | None => default
  end.

(** State of a random generator; opaque values a collaborator hands back;
    the identity of a scene-state object. *)
Definition Rng := Z.
Definition Handle := string.
Definition StateRef := nat.

(** Outcomes of a stage record (spec section 4.5). *)
Inductive StageOutcome := RAN | SKIPPED_CHANCE | SKIPPED_PREREQ | FAILED_DEFAULTED.

(** The exceptions of a run.  [KeyError] names the mapping that was
    subscripted besides the missing key; [CollaboratorError] stands for
    whatever a collaborator raises and names the collaborator. *)
Inductive Exn :=
| NameError (name : string)
| AttributeError (obj attr : string)
| KeyError (container key : string)
| TypeError (msg : string)
| CollaboratorError (callee : string).

(** What the driver does that the outside can see: every call of a
    collaborator, every stage it hands to the executor, every access that
    can fail.  The calls the properties below speak about carry their
    arguments.  [ReadFile] is the event a read of a file would leave; no
    statement of the driver produces it. *)
Inductive Event :=
| Call (callee : string)
| GetItem (container key : string)
| GetAttr (obj attr : string)
| SetAttr (obj attr : string) (v : PyVal)
| RunStage (name : string) (use_chance : bool) (prereq : option string)
| StageFailure (name : string) (e : Exn)
| Outcome (name : string) (o : StageOutcome)
| CheckAll (stages : list (string * Domain)) (vars : list Tag)
| IterateAssignments (domain : Domain) (vars : list Tag) (nonempty : bool)
| SolveObjects (domain : Domain) (var_assignments : Assignment)
               (n_steps : PyVal) (desc : string)
               (abort_unsatisfied : option PyVal)
| NpRandomChoice (g : Rng) (n : nat) (i : nat)
| ApplyGreedyRestriction (rooms : list Tag) (var : Tag)
| SetObj (key : string) (spec : ObjectSpec)
| ToJson (path : string)
| ReadFile (path : string).

Definition callee_of (ev : Event) : string :=
  match ev with
  | Call f => f
  | GetItem c _ => c
  | GetAttr o _ => o
  | SetAttr o _ _ => o
  | RunStage _ _ _ | StageFailure _ _ | Outcome _ _ => "p.run_stage"
  | CheckAll _ _ => "checks.check_all"
  | IterateAssignments _ _ _ => "greedy.iterate_assignments"
  | SolveObjects _ _ _ _ _ => "solver.solve_objects"
  | NpRandomChoice _ _ _ => "np.random.choice"
  | ApplyGreedyRestriction _ _ => "apply_greedy_restriction"
  | SetObj _ _ => "state.objs"
  | ToJson _ => "state.to_json"
  | ReadFile _ => "open"
  end.

(** The environment of one run: the constants of [cu], and how every
    collaborator answers given everything that happened before.  The
    properties proved of the driver hold for every environment. *)
Record World := mkWorld {
  floortags : list Tag;
  walltags : list Tag;
  ceilingtags : list Tag;
  side_tags : list Tag;
  cu_on : Relation;
  cu_ontop : Relation;
  (** does this call raise; what it does to the process-wide generator *)
  raises : list Event -> Event -> bool;
  rng_step : list Event -> Event -> Rng -> Rng;
  (** the stage executor: stream of a (seed, name) pair, the draw that
      decides whether a stage with [use_chance] runs, and whether a failed
      stage is defaulted or fatal *)
  int_hash : Z -> string -> Rng;
  chance : string -> Rng -> bool;
  default_on_failure : string -> bool;
  (** [np.random]: the element chosen among [n] in a generator state, and
      the state after the draw *)
  np_choice : Rng -> nat -> nat;
  np_advance : Rng -> Rng;
  (** data collaborators return *)
  restricted_stages : list Event -> list (string * Domain) -> list (string * Domain);
  greedy_restricted : list Event -> list (string * Domain) -> list Tag -> Tag
                      -> list (string * Domain);
  assignments : list Event -> Domain -> list Tag -> bool -> list Assignment;
  solve_rooms_state : list Event -> StateRef;
  solver_state : list Event -> StateRef;
  state_objs : list Event -> StateRef -> Objs;
  state_parents : list Event -> StateRef -> BpyObject -> list ObjectSpec;
  bpy_data_objects : list Event -> list BpyObject;
  solver_bpy_objects : list Event -> list BpyObject;
  active_object : list Event -> BpyObject;
  (** [rooms_split[group].objects]: for each object its materials, for each
      material the types of its nodes *)
  group_objects : list Event -> string -> list (list (list string));
  rooms_meshed_objects : list Event -> list BpyObject;
  (** [inview.all()]; the types of the areas of a screen *)
  inview_all : list Event -> bool;
  screen_areas : list Event -> list string;
  (** the index [random.choice] picks among [n], if it is ever called *)
  py_random_choice : list Event -> nat -> nat
}.

(** The arguments of [compose_indoors]; [overrides] is [**overrides]. *)
Record Args := mkArgs {
  output_folder : string;
  scene_seed : Z;
  add_bottle : bool;
  focus_on_bottle : bool;
  overrides : Overrides
}.

(** Modelled from the spec: the stage executor [pipeline.RandomStageExecutor]
    (section 4.5), built from the scene seed, the output folder and the
    overrides. *)
Record Executor := mkExecutor {
  ex_scene_seed : Z;
  ex_output_folder : string;
  ex_params : Overrides
}.

(** What [compose_indoors] returns. *)
Record Result := mkResult {
  height_offset : Z + Handle;
  whole_bbox : Handle
}.

(** [folder / name] *)
Definition path_join (folder name : string) : string :=
  (folder ++ "/" ++ name)%string.

(** [f"{stage}_{i}"] *)
Definition desc_of (stage : string) (i : nat) : string :=
  (stage ++ "_" ++ NilZero.string_of_uint (Nat.to_uint i))%string.

Definition is_nil {A} (l : list A) : bool :=
  match l with [] => true | _ => false end.

(** [length < 1.0] *)
Definition Qlt_bool (x y : Q) : bool := negb (Qle_bool y x).

(** [o == b] on geometry handles: objects are told apart by their name. *)
Definition bpy_eqb (o b : BpyObject) : bool := String.eqb (bpy_name o) (bpy_name b).

(** ** The monad: a trace, the process-wide numpy generator, exceptions *)

Record St := mkSt { trace : list Event; np_global : Rng }.

Inductive Res (A : Type) :=
| Ok (a : A)
| Raise (e : Exn).
Arguments Ok {A} a.
Arguments Raise {A} e.

Definition M (A : Type) := St -> St * Res A.

Definition ret {A} (a : A) : M A := fun st => (st, Ok a).

Definition bind {A B} (m : M A) (k : A -> M B) : M B :=
  fun st =>
    match m st with
    | (st', Ok a) => k a st'
    | (st', Raise e) => (st', Raise e)
    end.

Definition raise {A} (e : Exn) : M A := fun st => (st, Raise e).

Definition get_trace : M (list Event) := fun st => (st, Ok (trace st)).

Declare Scope driver_scope.
Delimit Scope driver_scope with driver.
Notation "x <- m ;; k" := (bind m (fun x => k))
  (at level 61, m at next level, right associativity) : driver_scope.
Notation "m ;; k" := (bind m (fun _ => k))
  (at level 61, right associativity) : driver_scope.
Notation "' pat <- m ;; k" := (bind m (fun x => match x with pat => k end))
  (at level 61, pat pattern, m at next level, right associativity) : driver_scope.
Open Scope driver_scope.

(** Names bound at module level of generate_indoors.py by its imports and
    definitions. *)
Definition module_globals : list string :=
  ["argparse"; "Path"; "logging"; "time"; "deg2rad"; "pprint"; "copy";
   "bpy"; "Vector"; "gin"; "np"; "trimesh";
   "lighting"; "make_skirting_board"; "read_co"; "Terrain"; "invisible_to_camera";
   "cl"; "r"; "example_solver"; "checks"; "usage_lookup";
   "fluid"; "cactus"; "trees"; "monocot"; "rocks"; "underwater"; "creatures";
   "weather"; "grass"; "pebbles";
   "density"; "cam_util"; "split_in_view";
   "home_constraints"; "execute_tasks"; "surface"; "init"; "placement"; "t";
   "tagging"; "butil"; "pipeline"; "room_dec"; "constants";
   "state_def"; "greedy"; "populate"; "Solver"; "WALL_HEIGHT"; "points_inview";
   "compose_nature"; "cu"; "create_outdoor_backdrop"; "place_cam_overhead";
   "overhead_view"; "hide_other_rooms"; "restrict_solving";
   "apply_greedy_restriction";
   "logger"; "default_greedy_stages"; "all_vars"; "compose_indoors"; "main"].

(** The attributes of the [bpy] module. *)
Definition bpy_attributes : list string :=
  ["app"; "context"; "data"; "msgbus"; "ops"; "path"; "props"; "types"; "utils"].

Definition mem_string (s : string) (l : list string) : bool :=
  if in_dec string_dec s l then true else false.

Section Program.

Variable w : World.

(** An event is appended to the trace. *)
Definition emit (ev : Event) : M unit :=
  fun st => (mkSt (trace st ++ [ev]) (np_global st), Ok tt).

(** A collaborator is called: the call is recorded, may use the
    process-wide generator, and returns or raises as the environment
    decides. *)
Definition ext (ev : Event) : M unit :=
  fun st =>
    let st' := mkSt (trace st ++ [ev])
                    (rng_step w (trace st) ev (np_global st)) in
    if raises w (trace st) ev
    then (st', Raise (CollaboratorError (callee_of ev)))
    else (st', Ok tt).

(** A call whose result the driver only passes on. *)
Definition call (callee : string) : M Handle :=
  ext (Call callee) ;; ret callee.

(** Evaluation of a global name of the module: unbound names raise. *)
Definition load_global (name : string) : M unit :=
  if mem_string name module_globals then ret tt else raise (NameError name).

(** [bpy.attr] *)
Definition bpy_getattr (attr : string) : M Handle :=
  emit (GetAttr "bpy" attr) ;;
  if mem_string attr bpy_attributes
  then ret ("bpy." ++ attr)%string
  else raise (AttributeError "bpy" attr).

(** [d[k]] on a dict of the driver: [KeyError] when the key is missing. *)
Definition subscript {A} (container : string) (d : list (string * A))
           (k : string) : M A :=
  match lookup k d with
  | Some v => ret v
  | None => raise (KeyError container k)
  end.

(** [np.random.choice(l)]: drawn from the process-wide generator. *)
Definition np_random_choice {A} (l : list A) (d : A) : M A :=
  load_global "np" ;;
  fun st =>
    let g := np_global st in
    let i := Nat.modulo (np_choice w g (List.length l)) (List.length l) in
    (mkSt (trace st ++ [NpRandomChoice g (List.length l) i]) (np_advance w g),
     Ok (nth i l d)).

(** ** Loops and comprehensions *)

Fixpoint for_each {A} (l : list A) (body : A -> M unit) : M unit :=
  match l with
  | [] => ret tt
  | x :: rest => body x ;; for_each rest body
  end.

(** [for i, x in enumerate(l)], counting from [i]. *)
Fixpoint for_enumerate {A} (i : nat) (l : list A) (body : nat -> A -> M unit)
  : M unit :=
  match l with
  | [] => ret tt
  | x :: rest => body i x ;; for_enumerate (S i) rest body
  end.

(** [[f(x) for x in l]] *)
Fixpoint list_comp {A B} (l : list A) (f : A -> M B) : M (list B) :=
  match l with
  | [] => ret []
  | x :: rest => y <- f x ;; ys <- list_comp rest f ;; ret (y :: ys)
  end.

(** [[x for x in l if cond(x)]] *)
Fixpoint list_comp_if {A} (l : list A) (cond : A -> M bool) : M (list A) :=
  match l with
  | [] => ret []
  | x :: rest =>
      c <- cond x ;;
      xs <- list_comp_if rest cond ;;
      ret (if c then x :: xs else xs)
  end.

(** A [for] loop whose body may [break]: the body returns [true] to break. *)
Fixpoint for_break {A} (l : list A) (body : A -> M bool) : M unit :=
  match l with
  | [] => ret tt
  | x :: rest => b <- body x ;; if b then ret tt else for_break rest body
  end.

(** ** The stage executor *)

(** The stage record of [name] says it ran. *)
Definition stage_ran (tr : list Event) (name : string) : bool :=
  existsb (fun ev => match ev with
                     | Outcome n RAN => String.eqb n name
                     | _ => false
                     end) tr.

(** Modelled from the spec: [p.run_stage(name, fn, *args, use_chance=True,
    default=None, prereq=None)], section 4.5.  (1) an unmet prerequisite
    skips the stage and returns [default]; (2) the stage's stream is
    derived from (scene seed, stage name); (3) with [use_chance] a draw
    from that stream decides whether to run; (4) otherwise [fn] runs on the
    stage's stream and its result is returned.  A failure of [fn] is
    recorded against the stage, and is fatal or replaced by [default] as
    the environment says.  The process-wide generator is as before once
    the stage is over. *)
Definition run_stage {A} (p : Executor) (name : string) (fn : M A)
           (use_chance : bool) (default : A) (prereq : option string) : M A :=
  emit (RunStage name use_chance prereq) ;;
  tr <- get_trace ;;
  if match prereq with
     | Some q => negb (stage_ran tr q)
     | None => false
     end
  then emit (Outcome name SKIPPED_PREREQ) ;; ret default
  else
    let stream := int_hash w (ex_scene_seed p) name in
    if use_chance && negb (chance w name stream)
    then emit (Outcome name SKIPPED_CHANCE) ;; ret default
    else
      fun st =>
        let g := np_global st in
        match fn (mkSt (trace st) stream) with
        | (st', Ok a) => (mkSt (trace st' ++ [Outcome name RAN]) g, Ok a)
        | (st', Raise e) =>
            if default_on_failure w name
            then (mkSt (trace st' ++ [StageFailure name e;
                                      Outcome name FAILED_DEFAULTED]) g,
                  Ok default)
            else (mkSt (trace st' ++ [StageFailure name e]) g, Raise e)
        end.

(** ** Reads of the scene state *)

(** [state.objs]; [state] is [None] when the stage that produces it was
    defaulted. *)
Definition get_objs (state : option StateRef) : M Objs :=
  match state with
  | None => raise (AttributeError "NoneType" "objs")
  | Some s => tr <- get_trace ;; ret (state_objs w tr s)
  end.

(** [state.get_parents(obj)] *)
Definition get_parents (state : option StateRef) (o : BpyObject)
  : M (list ObjectSpec) :=
  match state with
  | None => raise (AttributeError "NoneType" "get_parents")
  | Some s => tr <- get_trace ;; ret (state_parents w tr s o)
  end.

(** [greedy.iterate_assignments(domain, state, vars, limits, nonempty)]: the
    finite sequence of bindings it yields. *)
Definition iterate_assignments (d : Domain) (state : option StateRef)
           (vars : list Tag) (nonempty : bool) : M (list Assignment) :=
  ext (IterateAssignments d vars nonempty) ;;
  tr <- get_trace ;;
  ret (assignments w tr d vars nonempty).

(** [solver.state] *)
Definition get_solver_state : M (option StateRef) :=
  tr <- get_trace ;; ret (Some (solver_state w tr)).

(** ** The closures of [compose_indoors] *)

Definition add_coarse_terrain (a : Args) : M (option Handle * option Handle) :=
  terrain <- call "Terrain" ;;
  terrain_mesh <- call "terrain.coarse_terrain" ;;
  ret (Some terrain, Some terrain_mesh).

Definition solve_rooms (a : Args) (stages : list (string * Domain))
  : M (option StateRef) :=
  d <- subscript "stages" stages "rooms" ;;
  ext (Call "solver.solve_rooms") ;;
  tr <- get_trace ;;
  ret (Some (solve_rooms_state w tr)).

Definition solve_large (a : Args) (stages : list (string * Domain))
           (state : option StateRef) : M (option StateRef) :=
  d <- subscript "stages" stages "on_floor" ;;
  assignments <- iterate_assignments d state all_vars true ;;
  for_enumerate 0 assignments (fun i vars =>
    d <- subscript "stages" stages "on_floor" ;;
    n_steps <- subscript "overrides" (overrides a) "solve_steps_large" ;;
    ext (SolveObjects d vars n_steps (desc_of "on_floor" i)
           (Some (dict_get (overrides a) "abort_unsatisfied_large"
                    (VBool false))))) ;;
  get_solver_state.

Definition solve_medium (a : Args) (stages : list (string * Domain))
           (state : option StateRef) : M (option StateRef) :=
  n_steps <- subscript "overrides" (overrides a) "solve_steps_medium" ;;
  d <- subscript "stages" stages "on_wall" ;;
  assignments <- iterate_assignments d state all_vars false ;;
  for_enumerate 0 assignments (fun i vars =>
    d <- subscript "stages" stages "on_wall" ;;
    ext (SolveObjects d vars n_steps (desc_of "on_wall" i) None)) ;;
  d <- subscript "stages" stages "on_ceiling" ;;
  assignments <- iterate_assignments d state all_vars false ;;
  for_enumerate 0 assignments (fun i vars =>
    d <- subscript "stages" stages "on_ceiling" ;;
    ext (SolveObjects d vars n_steps (desc_of "on_ceiling" i) None)) ;;
  d <- subscript "stages" stages "side_obj" ;;
  assignments <- iterate_assignments d state all_vars false ;;
  for_enumerate 0 assignments (fun i vars =>
    d <- subscript "stages" stages "side_obj" ;;
    ext (SolveObjects d vars n_steps (desc_of "side_obj" i) None)) ;;
  get_solver_state.

Definition solve_small (a : Args) (stages : list (string * Domain))
           (state : option StateRef) : M (option StateRef) :=
  n_steps <- subscript "overrides" (overrides a) "solve_steps_small" ;;
  d <- subscript "stages" stages "obj_ontop_obj" ;;
  assignments <- iterate_assignments d state all_vars false ;;
  for_enumerate 0 assignments (fun i vars =>
    d <- subscript "stages" stages "obj_ontop_obj" ;;
    ext (SolveObjects d vars n_steps (desc_of "obj_ontop_obj" i) None)) ;;
  d <- subscript "stages" stages "obj_on_support" ;;
  assignments <- iterate_assignments d state all_vars false ;;
  for_enumerate 0 assignments (fun i vars =>
    d <- subscript "stages" stages "obj_on_support" ;;
    ext (SolveObjects d vars n_steps (desc_of "obj_on_support" i) None)) ;;
  (* the loop over stages['tertiary'] is commented out in the source *)
  get_solver_state.

Definition is_surface (o : ObjectSpec) : bool :=
  tag_in (Sem Table) (obj_tags o) || tag_in (Sem Surface) (obj_tags o).

Definition add_bottle_to_scene (state : option StateRef)
  : M (option BpyObject) :=
  (* Find a table or surface to place the bottle on *)
  objs <- get_objs state ;;
  let surfaces := filter is_surface (map snd objs) in
  if is_nil surfaces then
    (* logger.warning *)
    ret None
  else
    load_global "random" ;;
    ext (Call "random.choice") ;;
    tr <- get_trace ;;
    let surface :=
      nth_error surfaces (py_random_choice w tr (List.length surfaces)) in
    (* Create a simple bottle mesh *)
    bpy_getattr "ops" ;;
    ext (Call "bpy.ops.mesh.primitive_cylinder_add") ;;
    bpy_getattr "context" ;;
    tr <- get_trace ;;
    let bottle := active_object w tr in
    let bottle := mkBpy "FocusBottle" (bpy_type bottle)
                        (dimensions_length bottle) (cycles_is_portal bottle) in
    emit (SetAttr "bottle" "name" (VStr "FocusBottle")) ;;
    (* Position the bottle on the surface *)
    surface_bounds <- call "butil.bounds" ;;
    load_global "random" ;;
    ext (Call "random.uniform") ;;
    load_global "random" ;;
    ext (Call "random.uniform") ;;
    emit (SetAttr "bottle" "location" (VObj "location")) ;;
    (* Add the bottle to the scene state *)
    get_objs state ;;
    emit (SetObj "focus_bottle"
            (mkObjectSpec bottle [Sem Bottle; Sem FocusObject] [])) ;;
    ret (Some bottle).

Definition pose_cameras (state : option StateRef)
           (solved_rooms : list BpyObject)
  : M (option (Handle * list BpyObject)) :=
  objs <- get_objs state ;;
  let nonroom_objs :=
    map obj (filter (fun o => negb (tag_in (Sem Room) (obj_tags o)))
                    (map snd objs)) in
  let scene_objs := solved_rooms ++ nonroom_objs in
  scene_preprocessed <- call "placement.camera.camera_selection_preprocessing" ;;
  list_comp solved_rooms (fun o => call "tagging.extract_tagged_faces") ;;
  solved_floor_surface <- call "butil.join_objects" ;;
  ext (Call "placement.camera.configure_cameras") ;;
  ret (Some (scene_preprocessed, nonroom_objs)).

(** Select an object to follow (bottle if present, otherwise a small
    object). *)
Definition select_object_to_follow (a : Args) (state : option StateRef)
           (bottle : option BpyObject) (nonroom_objs : list BpyObject)
  : M (option BpyObject) :=
  if focus_on_bottle a && (match bottle with Some _ => true | None => false end)
  then ret bottle
  else
    small_objects <-
      list_comp_if nonroom_objs (fun o =>
        if Qlt_bool (dimensions_length o) 1%Q
        then
          parents <- get_parents state o ;;
          ret (existsb (fun parent =>
                          tag_in (Sub SupportSurface) (obj_tags parent))
                       parents)
        else ret false) ;;
    let small_objects :=
      if is_nil small_objects
      then filter (fun o => Qlt_bool (dimensions_length o) 1%Q) nonroom_objs
      else small_objects in
    if is_nil small_objects then ret None
    else
      load_global "random" ;;
      ext (Call "random.choice") ;;
      tr <- get_trace ;;
      ret (nth_error small_objects
             (py_random_choice w tr (List.length small_objects))).

Definition animate_cameras : M unit :=
  ext (Call "cam_util.animate_cameras").

Definition set_visibility_mode (bottle : option BpyObject) (mode : string)
  : M unit :=
  (match bottle with
   | Some b =>
       let v := VBool (negb (String.eqb mode "BOTTLE_ONLY")
                       && negb (String.eqb mode "FULL")) in
       emit (SetAttr (bpy_name b) "hide_render" v) ;;
       emit (SetAttr (bpy_name b) "hide_viewport" v)
   | None => ret tt
   end) ;;
  bpy_getattr "data" ;;
  tr <- get_trace ;;
  for_each (bpy_data_objects w tr) (fun o =>
    if (match bottle with Some b => negb (bpy_eqb o b) | None => true end)
       && String.eqb (bpy_type o) "MESH"
    then
      let v := VBool (String.eqb mode "BOTTLE_ONLY") in
      emit (SetAttr (bpy_name o) "hide_render" v) ;;
      emit (SetAttr (bpy_name o) "hide_viewport" v)
    else ret tt).

Definition turn_off_lights : M unit :=
  bpy_getattr "data" ;;
  tr <- get_trace ;;
  for_each (bpy_data_objects w tr) (fun o =>
    if String.eqb (bpy_type o) "LIGHT" && negb (cycles_is_portal o)
    then (* print *) ext (Call "butil.delete")
    else ret tt).

Definition invisible_room_ceilings : M unit :=
  ext (GetItem "rooms_split" "exterior") ;;
  emit (SetAttr "rooms_split[exterior]" "hide_viewport" (VBool true)) ;;
  ext (GetItem "rooms_split" "exterior") ;;
  emit (SetAttr "rooms_split[exterior]" "hide_render" (VBool true)) ;;
  ext (GetItem "rooms_split" "ceiling") ;;
  ext (Call "invisible_to_camera.apply") ;;
  bpy_getattr "data" ;;
  ext (Call "invisible_to_camera.apply").

(** The five room types with constraints written in [home_constraints]. *)
Definition supported_roomtypes : list Tag :=
  [Sem Bedroom; Sem LivingRoom; Sem Kitchen; Sem Bathroom; Sem DiningRoom].

(** The [topview] branch at the end of [compose_indoors]. *)
Definition topview_branch (a : Args) : M unit :=
  ext (GetItem "rooms_split" "exterior") ;;
  emit (SetAttr "rooms_split[exterior]" "hide_viewport" (VBool true)) ;;
  ext (GetItem "rooms_split" "ceiling") ;;
  emit (SetAttr "rooms_split[ceiling]" "hide_viewport" (VBool true)) ;;
  ext (GetItem "rooms_split" "exterior") ;;
  emit (SetAttr "rooms_split[exterior]" "hide_render" (VBool true)) ;;
  ext (GetItem "rooms_split" "ceiling") ;;
  emit (SetAttr "rooms_split[ceiling]" "hide_render" (VBool true)) ;;
  for_each ["wall"; "floor"] (fun group =>
    ext (GetItem "rooms_split" group) ;;
    tr <- get_trace ;;
    for_each (group_objects w tr group) (fun wall =>
      for_each wall (fun mat =>
        for_each mat (fun n_type =>
          if String.eqb n_type "BSDF_PRINCIPLED"
          then emit (SetAttr "n.inputs[Alpha]" "default_value"
                       (dict_get (overrides a) "alpha_walls" (VFloat 1%Q)))
          else ret tt)))) ;;
  tr <- get_trace ;;
  list_comp (rooms_meshed_objects w tr) (fun r =>
    call "read_co" ;; call "np.array") ;;
  bbox <- call "np.concatenate" ;;
  ext (GetItem "camera_rigs" "0") ;;
  ext (GetItem "camera_rigs[0].children" "0") ;;
  ext (GetItem "camera_rigs" "0") ;;
  emit (SetAttr "camera_rigs[0]" "location" (VObj "0, 0, 0")) ;;
  ext (GetItem "camera_rigs" "0") ;;
  emit (SetAttr "camera_rigs[0]" "rotation_euler" (VObj "0, 0, 0")) ;;
  bpy_getattr "contexScene" ;;
  emit (SetAttr "bpy.contexScene" "camera" (VObj "camera")) ;;
  let topview_rot_x := dict_get (overrides a) "topview_rot_x" (VInt 0) in
  rot_x <- call "deg2rad" ;;
  let topview_rot_z := dict_get (overrides a) "topview_rot_z" (VInt 0) in
  rot_z <- call "deg2rad" ;;
  emit (SetAttr "camera" "rotation_euler" (VObj "rot_x, 0, rot_z")) ;;
  mean <- call "np.mean" ;;
  call "np.linspace" ;;
  call "np.exp" ;;
  for_break (seq 0 500) (fun cam_dist =>
    call "np.sin" ;; call "np.sin" ;; call "np.sin" ;; call "np.cos" ;;
    call "np.cos" ;;
    emit (SetAttr "camera" "location" (VObj "location")) ;;
    bpy_getattr "context" ;;
    ext (Call "bpy.context.view_layer.update") ;;
    inview <- call "points_inview" ;;
    tr <- get_trace ;;
    if inview_all w tr then
      bpy_getattr "contexScreen" ;;
      tr <- get_trace ;;
      for_break (screen_areas w tr) (fun area_type =>
        if String.eqb area_type "VIEW_3D"
        then
          emit (SetAttr "area.spaces.active.region_3d" "view_perspective"
                  (VStr "CAMERA")) ;;
          ret true
        else ret false) ;;
      ret true
    else ret false).

Definition compose_indoors (a : Args) : M Result :=
  ext (Call "pipeline.RandomStageExecutor") ;;
  let p := mkExecutor (scene_seed a) (output_folder a) (overrides a) in

  (* logger.debug(overrides) *)

  x <- run_stage p "terrain" (add_coarse_terrain a) false (None, None) None ;;
  let terrain := fst x in
  let terrain_mesh := snd x in
  run_stage p "sky_lighting" (ext (Call "lighting.sky_lighting.add_lighting"))
    false tt None ;;

  consgraph <- call "home_constraints" ;;
  emit (Call "default_greedy_stages") ;;
  let stages :=
    default_greedy_stages (floortags w) (walltags w) (ceilingtags w)
      (side_tags w) (cu_on w) (cu_ontop w) in
  ext (CheckAll stages all_vars) ;;

  ext (Call "restrict_solving") ;;
  tr <- get_trace ;;
  let stages := restricted_stages w tr stages in

  stages <-
    (if truthy (dict_get (overrides a) "restrict_single_supported_roomtype"
                  (VBool false))
     then
       roomtype <- np_random_choice supported_roomtypes (Sem Bedroom) ;;
       let restrict_parent_rooms := [roomtype] in
       (* logger.info *)
       ext (ApplyGreedyRestriction restrict_parent_rooms
              ConstraintUtil.variable_room) ;;
       tr <- get_trace ;;
       ret (greedy_restricted w tr stages restrict_parent_rooms
              ConstraintUtil.variable_room)
     else ret stages) ;;

  solver <- call "Solver" ;;
  state <- run_stage p "solve_rooms" (solve_rooms a stages) false None None ;;

  state <- run_stage p "solve_large" (solve_large a stages state)
             false state None ;;

  d <- subscript "stages" stages "on_floor" ;;
  assigns <- iterate_assignments d state [ConstraintUtil.variable_room] false ;;
  solved_rooms <-
    list_comp assigns (fun assignment =>
      objs <- get_objs state ;;
      k <- subscript "assignment" assignment "room" ;;
      spec <- subscript "state.objs" objs k ;;
      ret (obj spec)) ;;
  list_comp solved_rooms (fun r => call "butil.bounds") ;;
  solved_bound_points <- call "np.concatenate" ;;
  call "np.min" ;;
  call "np.max" ;;
  let solved_bbox := "solved_bbox" in

  call "solver.get_bpy_objects" ;;
  tr <- get_trace ;;
  list_comp (solver_bpy_objects w tr) (fun o => call "butil.bounds") ;;
  house_bbox <- call "np.concatenate" ;;
  call "np.min" ;;
  call "np.max" ;;
  let house_bbox := "house_bbox" in

  bottle <- run_stage p "add_bottle" (add_bottle_to_scene state)
              false None None ;;

  camera_rigs <- call "placement.camera.spawn_camera_rigs" ;;

  r <- run_stage p "pose_cameras" (pose_cameras state solved_rooms)
         false None None ;;
  match r with
  | None => raise (TypeError "cannot unpack non-iterable NoneType object")
  | Some (scene_preprocessed, nonroom_objs) =>

  object_to_follow <- select_object_to_follow a state bottle nonroom_objs ;;

  run_stage p "animate_cameras" animate_cameras false tt (Some "pose_cameras") ;;

  (* Add custom property to scene for visibility mode *)
  bpy_getattr "props" ;;
  ext (Call "bpy.props.EnumProperty") ;;
  bpy_getattr "types" ;;
  emit (SetAttr "bpy.types.Scene" "visibility_mode" (VObj "EnumProperty")) ;;

  (* Set initial visibility *)
  set_visibility_mode bottle "FULL" ;;

  solver_state_arg <- get_solver_state ;;
  run_stage p "populate_intermediate_pholders"
    (ext (Call "populate.populate_state_placeholders")) false tt None ;;

  state <- run_stage p "solve_medium" (solve_medium a stages state)
             false state None ;;

  state <- run_stage p "solve_small" (solve_small a stages state)
             false state None ;;

  run_stage p "populate_assets"
    (ext (Call "populate.populate_state_placeholders")) false tt None ;;

  rooms <- subscript "stages" stages "rooms" ;;
  let door_filter := mkDomain [Sem Door] [(AnyRelation, rooms)] in
  rooms <- subscript "stages" stages "rooms" ;;
  let window_filter := mkDomain [Sem Window] [(AnyRelation, rooms)] in
  run_stage p "room_doors"
    (call "solver.get_bpy_objects" ;; ext (Call "room_dec.populate_doors"))
    false tt None ;;
  run_stage p "room_windows"
    (call "solver.get_bpy_objects" ;; ext (Call "room_dec.populate_windows"))
    false tt None ;;

  room_meshes <- call "solver.get_bpy_objects" ;;
  run_stage p "room_stairs" (ext (Call "room_dec.room_stairs")) false tt None ;;
  run_stage p "skirting_floor" (ext (Call "make_skirting_board")) true tt None ;;
  run_stage p "skirting_ceiling" (ext (Call "make_skirting_board")) true tt None ;;

  rooms_meshed <- call "butil.get_collection" ;;
  rooms_split <- call "room_dec.split_rooms" ;;

  ext (GetItem "rooms_split" "wall") ;;
  run_stage p "room_walls" (ext (Call "room_dec.room_walls")) false tt None ;;
  ext (GetItem "rooms_split" "wall") ;;
  run_stage p "room_pillars" (ext (Call "room_dec.room_pillars")) false tt None ;;
  ext (GetItem "rooms_split" "floor") ;;
  run_stage p "room_floors" (ext (Call "room_dec.room_floors")) false tt None ;;
  ext (GetItem "rooms_split" "ceiling") ;;
  run_stage p "room_ceilings" (ext (Call "room_dec.room_ceilings")) false tt None ;;

  (* state.print() *)
  match state with
  | None => raise (AttributeError "NoneType" "to_json")
  | Some _ => ext (ToJson (path_join (output_folder a) "solve_state.json"))
  end ;;

  cam <- call "cam_util.get_camera" ;;

  run_stage p "lights_off" turn_off_lights true tt None ;;

  run_stage p "invisible_room_ceilings" invisible_room_ceilings false tt None ;;

  ext (GetItem "camera_rigs" "0") ;;
  run_stage p "overhead_cam" (ext (Call "place_cam_overhead")) false tt None ;;

  run_stage p "hide_other_rooms" (ext (Call "hide_other_rooms")) false tt None ;;

  height <- run_stage p "nature_backdrop"
              (h <- call "create_outdoor_backdrop" ;; ret (inr h))
              false (inl 0%Z) (Some "terrain") ;;

  (if truthy (dict_get (overrides a) "topview" (VBool false))
   then topview_branch a
   else ret tt) ;;

  ret (mkResult height house_bbox)
  end.

End Program.
End Driver.

(* ===================================================================== *)
(** * Reading a trace                                                     *)
(* ===================================================================== *)

Module TraceSpec.
Import Driver.

(** The milestones of a run: the stages handed to the executor and the
    top-level calls of [compose_indoors], named by stage or callee. *)
Definition milestone_calls : list string :=
  ["pipeline.RandomStageExecutor"; "home_constraints"; "default_greedy_stages";
   "restrict_solving"; "Solver"; "placement.camera.spawn_camera_rigs";
   "cam_util.get_camera"].

Definition label_of (ev : Event) : option string :=
  match ev with
  | RunStage name _ _ => Some name
  | Call f => if mem_string f milestone_calls then Some f else None
  | CheckAll _ _ => Some "checks.check_all"
  | ToJson _ => Some "state.to_json"
  | _ => None
  end.

(** The milestones in the order the text of [compose_indoors] reaches them. *)
Definition program_order : list string :=
  [ "pipeline.RandomStageExecutor"; "terrain"; "sky_lighting";
    "home_constraints"; "default_greedy_stages"; "checks.check_all";
    "restrict_solving"; "Solver";
    "solve_rooms"; "solve_large"; "add_bottle";
    "placement.camera.spawn_camera_rigs"; "pose_cameras"; "animate_cameras";
    "populate_intermediate_pholders"; "solve_medium"; "solve_small";
    "populate_assets"; "room_doors"; "room_windows"; "room_stairs";
    "skirting_floor"; "skirting_ceiling"; "room_walls"; "room_pillars";
    "room_floors"; "room_ceilings";
    "state.to_json"; "cam_util.get_camera";
    "lights_off"; "invisible_room_ceilings"; "overhead_cam";
    "hide_other_rooms"; "nature_backdrop" ].

(** [use_chance] and [prereq] of every [p.run_stage] call in the source. *)
Definition stage_params : list (string * (bool * option string)) :=
  [ ("terrain", (false, None)); ("sky_lighting", (false, None));
    ("solve_rooms", (false, None)); ("solve_large", (false, None));
    ("add_bottle", (false, None)); ("pose_cameras", (false, None));
    ("animate_cameras", (false, Some "pose_cameras"));
    ("populate_intermediate_pholders", (false, None));
    ("solve_medium", (false, None)); ("solve_small", (false, None));
    ("populate_assets", (false, None)); ("room_doors", (false, None));
    ("room_windows", (false, None)); ("room_stairs", (false, None));
    ("skirting_floor", (true, None)); ("skirting_ceiling", (true, None));
    ("room_walls", (false, None)); ("room_pillars", (false, None));
    ("room_floors", (false, None)); ("room_ceilings", (false, None));
    ("lights_off", (true, None)); ("invisible_room_ceilings", (false, None));
    ("overhead_cam", (false, None)); ("hide_other_rooms", (false, None));
    ("nature_backdrop", (false, Some "terrain")) ].

(** The milestones of a trace, in order of occurrence. *)
Definition skeleton (tr : list Event) : list string :=
  flat_map (fun ev => match label_of ev with
                      | Some l => [l]
                      | None => []
                      end) tr.

Definition last_event (tr : list Event) : option Event :=
  match rev tr with
  | ev :: _ => Some ev
  | [] => None
  end.

Definition is_check_all (ev : Event) : bool :=
  match ev with CheckAll _ _ => true | _ => false end.

Definition is_to_json (ev : Event) : bool :=
  match ev with ToJson _ => true | _ => false end.

Definition is_read (ev : Event) : bool :=
  match ev with ReadFile _ => true | _ => false end.

Definition solve_stage_names : list string :=
  ["solve_rooms"; "solve_large"; "solve_medium"; "solve_small"].

(** A solver is constructed, a solving stage is invoked, or the solver is
    asked to solve. *)
Definition is_solving (ev : Event) : bool :=
  match ev with
  | Call f => String.eqb f "Solver" || String.eqb f "solver.solve_rooms"
  | RunStage name _ _ => mem_string name solve_stage_names
  | SolveObjects _ _ _ _ _ => true
  | _ => false
  end.

Definition count (f : Event -> bool) (tr : list Event) : nat :=
  List.length (filter f tr).

(** Index of a milestone in the program order. *)
Fixpoint index_of (l : string) (order : list string) : option nat :=
  match order with
  | [] => None
  | x :: rest =>
      if string_dec l x then Some 0
      else match index_of l rest with
           | Some n => Some (S n)
           | None => None
           end
  end.

(** Some event satisfying [f] occurs before some event satisfying [g]. *)
Fixpoint occurs_before (f g : Event -> bool) (tr : list Event) : bool :=
  match tr with
  | [] => false
  | ev :: rest => (f ev && existsb g rest) || occurs_before f g rest
  end.


Definition is_call (f : string) (ev : Event) : bool :=
  match ev with
  | Call f' => String.eqb f' f
  | _ => false
  end.


(** A [solve_objects] call for [desc] that is passed no [abort_unsatisfied]. *)
Definition solves_without_abort_flag (desc : string) (ev : Event) : bool :=
  match ev with
  | SolveObjects _ _ _ desc' None => String.eqb desc' desc
  | _ => false
  end.

(** The same arguments with another value of [add_bottle]. *)
Definition with_add_bottle (b : bool) (a : Args) : Args :=
  mkArgs (output_folder a) (scene_seed a) b (focus_on_bottle a) (overrides a).

Definition is_stage (name : string) (ev : Event) : bool :=
  match ev with
  | RunStage n _ _ => String.eqb n name
  | _ => false
  end.

(** A run of [compose_indoors] from an empty trace, with the process-wide
    generator in state [g]. *)
Definition run (w : World) (a : Args) (g : Rng) : St * Res Result :=
  compose_indoors w a (mkSt [] g).

Definition run_trace (w : World) (a : Args) (g : Rng) : list Event :=
  trace (fst (run w a g)).

Definition run_result (w : World) (a : Args) (g : Rng) : Res Result :=
  snd (run w a g).

Definition returned {A} (r : Res A) : Prop :=
  match r with Ok _ => True | Raise _ => False end.

(** The exception of a collaborator that failed. *)
Definition is_collaborator (e : Exn) : Prop :=
  exists c, e = CollaboratorError c.

(** The run was ended by a collaborator that failed. *)
Definition is_collaborator_result {A} (r : Res A) : Prop :=
  match r with Ok _ => False | Raise e => is_collaborator e end.

Section Checks.

Variable w : World.
Variable a : Args.

Definition catalog : list (string * Domain) :=
  default_greedy_stages (floortags w) (walltags w) (ceilingtags w)
    (side_tags w) (cu_on w) (cu_ontop w).

(** What is known of an event from where it occurs: [k] milestones have
    been passed before it, and [last] is the event just before it. *)
Definition ev_check (k : nat) (last : option Event) (ev : Event) : Prop :=
  match ev with
  | RunStage name uc pr => lookup name stage_params = Some (uc, pr)
  | Outcome name o =>
      (o = SKIPPED_CHANCE ->
       exists pr, lookup name stage_params = Some (true, pr))
      /\ (o = SKIPPED_PREREQ ->
          exists uc q, lookup name stage_params = Some (uc, Some q))
  | CheckAll s v =>
      s = catalog /\ v = all_vars
      /\ last = Some (Call "default_greedy_stages")
  | Call f =>
      (f = "solver.solve_rooms" -> k = 9) /\ (f = "points_inview" -> False)
  | SolveObjects d vars n desc abort =>
      (k = 10
       /\ abort = Some (dict_get (overrides a) "abort_unsatisfied_large"
                          (VBool false))
       /\ exists i, desc = desc_of "on_floor" i)
      \/ (k = 16 /\ abort = None
          /\ exists name i, In name ["on_wall"; "on_ceiling"; "side_obj"]
                            /\ desc = desc_of name i)
      \/ (k = 17 /\ abort = None
          /\ exists name i, In name ["obj_ontop_obj"; "obj_on_support"]
                            /\ desc = desc_of name i)
  | NpRandomChoice g n i =>
      k = 7 /\ n = 5 /\ i = Nat.modulo (np_choice w g 5) 5
  | ApplyGreedyRestriction rooms var =>
      k = 7 /\ var = ConstraintUtil.variable_room
      /\ exists g i, last = Some (NpRandomChoice g 5 i)
                     /\ rooms = [nth i supported_roomtypes (Sem Bedroom)]
  | GetAttr o attr => o = "bpy" /\ attr <> "contexScreen"
  | ToJson path => path = path_join (output_folder a) "solve_state.json"
  | ReadFile _ => False
  | _ => True
  end.

(** Every event of the trace passes the check at its position. *)
Definition hist_ok (tr : list Event) : Prop :=
  forall pre ev post,
    tr = pre ++ ev :: post ->
    ev_check (List.length (skeleton pre)) (last_event pre) ev.

(** No validation pass in the trace has failed. *)
Definition no_failed_check (tr : list Event) : Prop :=
  forall pre ev post,
    tr = pre ++ ev :: post -> is_check_all ev = true ->
    raises w pre ev = false.

(** The number of milestones, and the index of a finished run. *)
Definition n_milestones : nat := 34.
Definition done : nat := 35.

(** The invariant of a run that has passed [k] milestones; at [done] the
    top-view branch was not taken. *)
Definition Inv (k : nat) (tr : list Event) : Prop :=
  k <= done
  /\ skeleton tr = firstn k program_order
  /\ hist_ok tr
  /\ no_failed_check tr
  /\ (k = done -> truthy (dict_get (overrides a) "topview" (VBool false)) = false).

(** The run stopped in a validation pass that failed. *)
Definition Crashed (e : Exn) (tr : list Event) : Prop :=
  exists pre, tr = pre ++ [CheckAll catalog all_vars]
              /\ raises w pre (CheckAll catalog all_vars) = true
              /\ Inv 5 pre
              /\ last_event pre = Some (Call "default_greedy_stages")
              /\ e = CollaboratorError "checks.check_all".

(** What holds of the trace of every run, finished or not. *)
Definition Shape (tr : list Event) : Prop :=
  (exists k, k <= n_milestones /\ skeleton tr = firstn k program_order)
  /\ hist_ok tr.

(** The only [overrides] keys whose absence is an error. *)
Definition exn_ok (e : Exn) : Prop :=
  match e with
  | KeyError container k =>
      container = "overrides" ->
      In k ["solve_steps_large"; "solve_steps_medium"; "solve_steps_small"]
  | _ => True
  end.

(** [triple k m k']: started after [k] milestones, [m] ends after [k']
    milestones, or raises an admissible exception somewhere in between. *)
Definition triple {A} (k : nat) (m : M A) (k' : nat) : Prop :=
  forall st, Inv k (trace st) ->
    match m st with
    | (st', Ok _) => Inv k' (trace st')
    | (st', Raise e) =>
        exn_ok e /\ exists k'', k <= k'' <= k' /\ Inv k'' (trace st')
    end.

(** The same for a whole run, which may also stop in a failed validation
    pass, but never between the construction of the catalog and its
    validation; before the catalog is built only a failing collaborator
    stops it. *)
Definition run_ok {A} (k : nat) (m : M A) : Prop :=
  forall st, Inv k (trace st) ->
    match m st with
    | (st', Ok _) => Inv done (trace st')
    | (st', Raise e) =>
        exn_ok e
        /\ ((exists k'', k'' <> 5
                         /\ (k'' <= 4 -> is_collaborator e)
                         /\ Inv k'' (trace st'))
            \/ Crashed e (trace st'))
    end.

End Checks.

(** [m] raises nothing but exceptions satisfying [P]. *)
Definition raises_only {A} (P : Exn -> Prop) (m : M A) : Prop :=
  forall st st' e, m st = (st', Raise e) -> P e.



Definition is_some {A} (o : option A) : bool :=
  match o with Some _ => true | None => false end.

Definition small (o : BpyObject) : bool := Qlt_bool (dimensions_length o) 1%Q.

Definition solve_steps_keys : list string :=
  ["solve_steps_large"; "solve_steps_medium"; "solve_steps_small"].

End TraceSpec.

(* ===================================================================== *)
(** * Sample scenes and environments                                      *)
(* ===================================================================== *)

Module Samples.
Import Driver TraceSpec.

Definition Relation_eq_dec (r1 r2 : Relation) : {r1 = r2} + {r1 <> r2}.
Proof.
  decide equality; apply (list_eq_dec Tag_eq_dec).
Defined.

(** A stored relation satisfies a predicate it is equal to. *)
Definition implies_eq (stored pred : Relation) : bool :=
  if Relation_eq_dec stored pred then true else false.

(** Sample values for the constants of [cu]. *)
Definition sample_floortags : list Tag :=
  [Sub SupportSurface; Negated (Sub Wall); Negated (Sub Ceiling)].
Definition sample_walltags : list Tag :=
  [Sub Wall; Negated (Sub SupportSurface); Negated (Sub Ceiling)].
Definition sample_ceilingtags : list Tag :=
  [Sub Ceiling; Negated (Sub Wall); Negated (Sub SupportSurface)].
Definition sample_side : list Tag :=
  [Negated (Sub Top); Negated (Sub Bottom)].
Definition sample_on : Relation := StableAgainst [Sub Bottom] [Sub SupportSurface].
Definition sample_ontop : Relation := StableAgainst [Sub Bottom] [Sub Top].

Definition sample_stages : list (string * Domain) :=
  default_greedy_stages sample_floortags sample_walltags sample_ceilingtags
    sample_side sample_on sample_ontop.

Definition no_geometry (name : string) : BpyObject := mkBpy name "MESH" 2%Q false.

(** Two rooms and one table standing on the floor of the first. *)
Definition room_spec (name : string) : ObjectSpec :=
  mkObjectSpec (no_geometry name) [Sem Room] [].
Definition table_spec : ObjectSpec :=
  mkObjectSpec (no_geometry "table") [Sem Object; Sem Table]
    [(on_floor sample_floortags, "room0")].
Definition two_rooms_one_table : Objs :=
  [("room0", room_spec "room0"); ("room1", room_spec "room1");
   ("table", table_spec)].
Definition room0_bound : Assignment := [("room", "room0")].

(** An environment in which no collaborator fails, every stage runs, and
    the scene stays empty. *)
Definition quiet_world : World := {|
  floortags := sample_floortags;
  walltags := sample_walltags;
  ceilingtags := sample_ceilingtags;
  side_tags := sample_side;
  cu_on := sample_on;
  cu_ontop := sample_ontop;
  raises := fun _ _ => false;
  rng_step := fun _ _ g => g;
  int_hash := fun seed name => (seed + Z.of_nat (String.length name))%Z;
  chance := fun _ _ => true;
  default_on_failure := fun _ => false;
  np_choice := fun g _ => Z.to_nat g;
  np_advance := fun g => (g + 1)%Z;
  restricted_stages := fun _ stages => stages;
  greedy_restricted := fun _ stages _ _ => stages;
  assignments := fun _ _ _ _ => [];
  solve_rooms_state := fun _ => 0;
  solver_state := fun _ => 0;
  state_objs := fun _ _ => [];
  state_parents := fun _ _ _ => [];
  bpy_data_objects := fun _ => [];
  solver_bpy_objects := fun _ => [];
  active_object := fun _ => no_geometry "Cylinder";
  group_objects := fun _ _ => [];
  rooms_meshed_objects := fun _ => [];
  inview_all := fun _ => true;
  screen_areas := fun _ => ["VIEW_3D"];
  py_random_choice := fun _ _ => 0
|}.

(** The same with one room in the scene, and one binding of the room
    variable for every stage. *)
Definition one_room_world : World := {|
  floortags := sample_floortags;
  walltags := sample_walltags;
  ceilingtags := sample_ceilingtags;
  side_tags := sample_side;
  cu_on := sample_on;
  cu_ontop := sample_ontop;
  raises := fun _ _ => false;
  rng_step := fun _ _ g => g;
  int_hash := fun seed name => (seed + Z.of_nat (String.length name))%Z;
  chance := fun _ _ => true;
  default_on_failure := fun _ => false;
  np_choice := fun g _ => Z.to_nat g;
  np_advance := fun g => (g + 1)%Z;
  restricted_stages := fun _ stages => stages;
  greedy_restricted := fun _ stages _ _ => stages;
  assignments := fun _ _ _ _ => [room0_bound];
  solve_rooms_state := fun _ => 0;
  solver_state := fun _ => 0;
  state_objs := fun _ _ => [("room0", room_spec "room0")];
  state_parents := fun _ _ _ => [];
  bpy_data_objects := fun _ => [];
  solver_bpy_objects := fun _ => [no_geometry "room0"];
  active_object := fun _ => no_geometry "Cylinder";
  group_objects := fun _ _ => [];
  rooms_meshed_objects := fun _ => [];
  inview_all := fun _ => true;
  screen_areas := fun _ => ["VIEW_3D"];
  py_random_choice := fun _ _ => 0
|}.


(** The environment [w] with other failures: the calls that raise, and
    the stages whose failure is replaced by the default. *)
Definition with_failures (w : World) (r : list Event -> Event -> bool)
           (d : string -> bool) : World := {|
  floortags := floortags w;
  walltags := walltags w;
  ceilingtags := ceilingtags w;
  side_tags := side_tags w;
  cu_on := cu_on w;
  cu_ontop := cu_ontop w;
  raises := r;
  rng_step := rng_step w;
  int_hash := int_hash w;
  chance := chance w;
  default_on_failure := d;
  np_choice := np_choice w;
  np_advance := np_advance w;
  restricted_stages := restricted_stages w;
  greedy_restricted := greedy_restricted w;
  assignments := assignments w;
  solve_rooms_state := solve_rooms_state w;
  solver_state := solver_state w;
  state_objs := state_objs w;
  state_parents := state_parents w;
  bpy_data_objects := bpy_data_objects w;
  solver_bpy_objects := solver_bpy_objects w;
  active_object := active_object w;
  group_objects := group_objects w;
  rooms_meshed_objects := rooms_meshed_objects w;
  inview_all := inview_all w;
  screen_areas := screen_areas w;
  py_random_choice := py_random_choice w
|}.


(** The scene with one room, where [home_constraints] fails. *)
Definition no_constraints_world : World :=
  with_failures one_room_world
    (fun _ ev => String.eqb (callee_of ev) "home_constraints")
    (fun _ => false).

(** The scene with one room, where the doors cannot be populated. *)
Definition no_doors_world : World :=
  with_failures one_room_world
    (fun _ ev => String.eqb (callee_of ev) "room_dec.populate_doors")
    (fun _ => false).

(** Overrides with the three step budgets. *)
Definition step_budgets : Overrides :=
  [("solve_steps_large", VInt 300); ("solve_steps_medium", VInt 200);
   ("solve_steps_small", VInt 50)].

Definition sample_args (ov : Overrides) : Args :=
  mkArgs "out" 7 true true ov.

(** Overrides asking to abort on unsatisfied medium and small placements. *)
Definition abort_everywhere : Overrides :=
  ("abort_unsatisfied_large", VBool true)
  :: ("abort_unsatisfied_medium", VBool true)
  :: ("abort_unsatisfied_small", VBool true) :: step_budgets.



(** Overrides with the step budget of the large solve only. *)
Definition large_budget_only : Overrides := [("solve_steps_large", VInt 300)].

End Samples.

(* ===================================================================== *)
(** * What a program can do                                               *)
(* ===================================================================== *)

From Stdlib Require DecimalNat.

Module Behaviour.
Import Driver TraceSpec.

(** Whatever the state [m] starts in, the events it appends to the trace
    satisfy [pe], a value it returns satisfies [Q] and an exception it
    raises satisfies [px]. *)
Definition behaves {A} (pe : Event -> Prop) (Q : A -> Prop) (px : Exn -> Prop)
           (m : M A) : Prop :=
  forall st,
    (exists added, trace (fst (m st)) = trace st ++ added /\ Forall pe added)
    /\ match snd (m st) with
       | Ok x => Q x
       | Raise e => px e
       end.

(** The exceptions a run of [compose_indoors] can end with: what a
    collaborator raises, the unbound [random], [bpy.contexScene],
    [state.objs] on a state that is [None], a missing step budget, a stage
    or a room missing from a mapping a collaborator returned, and the
    unpacking of a defaulted [pose_cameras]. *)
Definition exn_class (e : Exn) : bool :=
  match e with
  | CollaboratorError _ => true
  | NameError n => String.eqb n "random"
  | AttributeError o attr =>
      (String.eqb o "bpy" && String.eqb attr "contexScene")
      || (String.eqb o "NoneType" && String.eqb attr "objs")
  | KeyError c k =>
      (String.eqb c "overrides" && mem_string k solve_steps_keys)
      || (String.eqb c "stages" && mem_string k stage_names)
      || (String.eqb c "assignment" && String.eqb k "room")
      || String.eqb c "state.objs"
  | TypeError msg =>
      String.eqb msg "cannot unpack non-iterable NoneType object"
  end.

(** An event of the creation of the bottle: the draws from [random], the
    cylinder, its renaming, the write to [state.objs]. *)
Definition bottle_event (ev : Event) : bool :=
  match ev with
  | Call f =>
      String.eqb f "random.choice" || String.eqb f "random.uniform"
      || String.eqb f "bpy.ops.mesh.primitive_cylinder_add"
  | SetAttr _ attr _ => String.eqb attr "name"
  | SetObj _ _ => true
  | _ => false
  end.

(** A draw from [np.random], or a restriction of the catalog. *)
Definition restriction_event (ev : Event) : bool :=
  match ev with
  | NpRandomChoice _ _ _ => true
  | ApplyGreedyRestriction _ _ => true
  | _ => false
  end.

(** The same arguments with another value of [focus_on_bottle]. *)
Definition with_focus_on_bottle (b : bool) (a : Args) : Args :=
  mkArgs (output_folder a) (scene_seed a) (add_bottle a) b (overrides a).

(** [o.hide_render = o.hide_viewport = hidden] *)
Definition hide_writes (name : string) (hidden : bool) : list Event :=
  [SetAttr name "hide_render" (VBool hidden);
   SetAttr name "hide_viewport" (VBool hidden)].

(** The objects the loop of [set_visibility_mode] touches: the meshes other
    than the bottle. *)
Definition other_mesh (bottle : option BpyObject) (o : BpyObject) : bool :=
  (match bottle with Some b => negb (bpy_eqb o b) | None => true end)
  && String.eqb (bpy_type o) "MESH".

(** The objects [turn_off_lights] deletes: the lights that are no portals. *)
Definition light_to_delete (o : BpyObject) : bool :=
  String.eqb (bpy_type o) "LIGHT" && negb (cycles_is_portal o).

(** The [solve_objects] calls of one stage: one for each assignment, in
    order, numbered from [i]. *)
Fixpoint solve_calls (d : Domain) (n_steps : PyVal) (name : string)
         (abort : option PyVal) (i : nat) (l : list Assignment) : list Event :=
  match l with
  | [] => []
  | vars :: rest =>
      SolveObjects d vars n_steps (desc_of name i) abort
      :: solve_calls d n_steps name abort (S i) rest
  end.

(** One stage of the medium and small solves: the assignments are asked
    for, then solved one by one. *)
Definition phase_events (w : World) (tr : list Event) (d : Domain)
           (n_steps : PyVal) (name : string) : list Event :=
  let ev0 := IterateAssignments d all_vars false in
  ev0 :: solve_calls d n_steps name None 0
           (assignments w (tr ++ [ev0]) d all_vars false).

(** The stages whose assignments are solved one by one. *)
Definition object_stages : list string :=
  ["on_floor"; "on_wall"; "on_ceiling"; "side_obj"; "obj_ontop_obj";
   "obj_on_support"].

(** The stages of the source that keep the default [use_chance=True]. *)
Definition chance_stages : list string :=
  ["skirting_floor"; "skirting_ceiling"; "lights_off"].

(** The stages of the source that name a prerequisite, with it. *)
Definition prereq_stages : list (string * string) :=
  [("animate_cameras", "pose_cameras"); ("nature_backdrop", "terrain")].

(** The mapping has every stage of the catalog. *)
Definition has_stages (stages : list (string * Domain)) : Prop :=
  forall k, In k stage_names -> lookup k stages <> None.

(** [o.obj for o in state.objs.values() if t.Semantics.Room not in o.tags] *)
Definition nonroom_objs (objs : Objs) : list BpyObject :=
  map obj (filter (fun o => negb (tag_in (Sem Room) (obj_tags o)))
                  (map snd objs)).

(** An environment and arguments with which nothing stands in the way of
    [compose_indoors]: no collaborator fails, the three step budgets are
    given, no top view is asked for, restricting the catalog keeps its
    stages, every room the on_floor stage yields is in the scene state, and
    the scene has no table or surface and no object shorter than 1.0 that
    is not a room. *)
Record Unhindered (w : World) (a : Args) : Prop := mkUnhindered {
  no_failure : forall tr ev, raises w tr ev = false;
  budgets : forall k, In k solve_steps_keys -> lookup k (overrides a) <> None;
  no_topview : truthy (dict_get (overrides a) "topview" (VBool false)) = false;
  restriction_keeps :
    forall tr stages, has_stages stages ->
                      has_stages (restricted_stages w tr stages);
  greedy_keeps :
    forall tr stages rooms var, has_stages stages ->
                                has_stages (greedy_restricted w tr stages rooms var);
  rooms_in_state :
    forall tr d asg,
      In asg (assignments w tr d [ConstraintUtil.variable_room] false) ->
      exists k, lookup "room" asg = Some k
                /\ forall tr' s, lookup k (state_objs w tr' s) <> None;
  no_surface :
    forall tr s, filter is_surface (map snd (state_objs w tr s)) = [];
  no_small_object :
    forall tr s o, In o (nonroom_objs (state_objs w tr s)) -> small o = false
}.

End Behaviour.

(* ===================================================================== *)
(** * Stages that wait for another                                        *)
(* ===================================================================== *)

Module Prerequisites.
Import Driver TraceSpec.

(** Started with a trace that satisfies [I], [m] ends with a trace and a
    result that satisfy [P]. *)
Definition leads {A} (I : list Event -> Prop)
           (P : list Event -> Res A -> Prop) (m : M A) : Prop :=
  forall st, I (trace st) -> P (trace (fst (m st))) (snd (m st)).

(** The records that would show the camera stages going wrong:
    animate_cameras skipped for its prerequisite, pose_cameras replaced by
    its default. *)
Definition camera_fault (ev : Event) : bool :=
  match ev with
  | Outcome n o =>
      (String.eqb n "animate_cameras"
       && match o with SKIPPED_PREREQ => true | _ => false end)
      || (String.eqb n "pose_cameras"
          && match o with FAILED_DEFAULTED => true | _ => false end)
  | _ => false
  end.

(** Neither such a record, nor animate_cameras handed over. *)
Definition before_cameras (ev : Event) : Prop :=
  camera_fault ev || is_stage "animate_cameras" ev = false.

(** Whenever animate_cameras is handed over, pose_cameras has run. *)
Definition animate_after_pose (tr : list Event) : Prop :=
  forall pre ev post,
    tr = pre ++ ev :: post -> is_stage "animate_cameras" ev = true ->
    stage_ran pre "pose_cameras" = true.

(** pose_cameras has run, and nothing has gone wrong with the camera
    stages. *)
Definition cameras_posed (tr : list Event) : Prop :=
  animate_after_pose tr
  /\ Forall (fun ev => camera_fault ev = false) tr
  /\ stage_ran tr "pose_cameras" = true.

(** What a run shows of the camera stages, at its end. *)
Definition cameras_verdict (tr : list Event) (res : Res Result) : Prop :=
  animate_after_pose tr
  /\ ~ In (Outcome "animate_cameras" SKIPPED_PREREQ) tr
  /\ (In (Outcome "pose_cameras" FAILED_DEFAULTED) tr ->
      last_event tr = Some (Outcome "pose_cameras" FAILED_DEFAULTED)
      /\ res = Raise (TypeError "cannot unpack non-iterable NoneType object")).

End Prerequisites.

Module Backdrop.
Import Driver TraceSpec.

(** The call of [create_outdoor_backdrop], and the record that its stage
    ran. *)
Definition backdrop_event (ev : Event) : bool :=
  match ev with
  | Call f => String.eqb f "create_outdoor_backdrop"
  | Outcome n o =>
      String.eqb n "nature_backdrop"
      && match o with RAN => true | _ => false end
  | _ => false
  end.

Definition is_backdrop_call (ev : Event) : bool :=
  match ev with
  | Call f => String.eqb f "create_outdoor_backdrop"
  | _ => false
  end.

(** What a run shows of the backdrop, at its end: it is created only when
    the terrain stage has run, and [height_offset] is what it returned when
    its stage ran, and the default 0 otherwise. *)
Definition backdrop_verdict (tr : list Event) (res : Res Result) : Prop :=
  (forall pre ev post,
      tr = pre ++ ev :: post -> is_backdrop_call ev = true ->
      stage_ran pre "terrain" = true)
  /\ (forall r, res = Ok r ->
                height_offset r
                = if stage_ran tr "nature_backdrop"
                  then inr "create_outdoor_backdrop"
                  else inl 0%Z).

End Backdrop.

(* ===================================================================== *)
(** * The script: debug loggers                                           *)
(* ===================================================================== *)

Module Launcher.

(** [name.startswith(p)] *)
Definition startswith (name p : string) : bool := String.prefix p name.

(** [name.endswith(x)]: [name] is [x], or what follows its first character
    ends with [x]. *)
Fixpoint endswith (name x : string) : bool :=
  if String.eqb name x then true
  else match name with
       | EmptyString => false
       | String _ rest => endswith rest x
       end.

(** The loop of the script under [if args.debug is not None]: the names of
    [logging.root.manager.loggerDict], in order, whose logger is set to
    [logging.DEBUG].  [debug] is [args.debug], [None] without [-d]. *)
Definition debug_loggers (debug : option (list string))
           (loggerDict : list string) : list string :=
  match debug with
  | None => []
  | Some dbg =>
      filter (fun name =>
                if negb (startswith name "infinigen") then false
                else Nat.eqb (List.length dbg) 0 || existsb (endswith name) dbg)
             loggerDict
  end.

End Launcher.

(* ===================================================================== *)
(** * More sample scenes                                                  *)
(* ===================================================================== *)

Module MoreSamples.
Import Driver TraceSpec Samples.

(** The on_floor stage of the sample catalog. *)
Definition sample_on_floor : Domain :=
  with_relation primary (on_floor sample_floortags) all_room.

(** The domain of a stage of the sample catalog. *)
Definition sample_stage (name : string) : Domain :=
  match lookup name sample_stages with
  | Some d => d
  | None => all_room
  end.

(** The quiet scene in which the configuration of the cameras fails, and
    the executor replaces failed stages by their default. *)
Definition no_cameras_world : World :=
  with_failures quiet_world
    (fun _ ev => String.eqb (callee_of ev) "placement.camera.configure_cameras")
    (fun _ => true).

(** The quiet scene in which the terrain fails, and the executor replaces
    failed stages by their default. *)
Definition no_terrain_world : World :=
  with_failures quiet_world
    (fun _ ev => String.eqb (callee_of ev) "terrain.coarse_terrain")
    (fun _ => true).

(** A sun, a portal light, a mesh and a camera. *)
Definition sun : BpyObject := mkBpy "Sun" "LIGHT" 1%Q false.
Definition portal : BpyObject := mkBpy "Portal" "LIGHT" 1%Q true.
Definition wall_mesh : BpyObject := mkBpy "wall" "MESH" 4%Q false.
Definition camera_obj : BpyObject := mkBpy "Camera" "CAMERA" 1%Q false.

(** Names of loggers as the script may find them. *)
Definition sample_loggers : list string :=
  ["bpy"; "infinigen"; "infinigen.core.nodes.node_wrangler";
   "infinigen.core.constraints.example_solver.solve"; "trimesh"].

End MoreSamples.

(* ===================================================================== *)
(** * Properties of the stage catalog                                     *)
(* ===================================================================== *)

Lemma forallb_pointwise {A} (f g : A -> bool) (l : list A) :
  (forall x, f x = g x) -> forallb f l = forallb g l.
Proof.
  intros Hfg. induction l as [|x l IH]; simpl;
    [reflexivity | rewrite Hfg, IH; reflexivity].
Qed.

Lemma existsb_pointwise {A} (f g : A -> bool) (l : list A) :
  (forall x, f x = g x) -> existsb f l = existsb g l.
Proof.
  intros Hfg. induction l as [|x l IH]; simpl;
    [reflexivity | rewrite Hfg, IH; reflexivity].
Qed.

Section MatchingFacts.

Variable implies : Relation -> Relation -> bool.
Variable objs : Objs.
Variable sigma : Assignment.

Lemma matches_unfold (d : Domain) (k : string) (s : ObjectSpec) :
  matches implies objs sigma d k s =
    forallb (tag_holds sigma k s) (tags d)
    && forallb (fun c => clause implies (fst c)
                           (matches_key implies objs sigma (snd c)) s)
               (relations d).
Proof.
  destruct d as [ts rs]; simpl. f_equal.
  apply forallb_pointwise. intros [rel tgt]; reflexivity.
Qed.

Lemma matches_with_relation d rel tgt k s :
  matches implies objs sigma (with_relation d rel tgt) k s =
    matches implies objs sigma d k s
    && clause implies rel (matches_key implies objs sigma tgt) s.
Proof.
  rewrite !matches_unfold. unfold with_relation; simpl.
  rewrite forallb_app; simpl. rewrite andb_true_r, andb_assoc. reflexivity.
Qed.

Lemma matches_with_tags d ts k s :
  matches implies objs sigma (with_tags d ts) k s =
    matches implies objs sigma d k s && forallb (tag_holds sigma k s) ts.
Proof.
  rewrite !matches_unfold. unfold with_tags; simpl.
  rewrite forallb_app.
  rewrite <- !andb_assoc. f_equal. apply andb_comm.
Qed.

Lemma clause_neg rel P s :
  clause implies (neg rel) P s = negb (clause implies rel P s).
Proof.
  destruct rel; simpl; try reflexivity.
  rewrite negb_involutive. reflexivity.
Qed.

Lemma clause_ext rel P Q s :
  (forall k, P k = Q k) -> clause implies rel P s = clause implies rel Q s.
Proof.
  intros HPQ. induction rel as [| c p | rel IH]; simpl.
  - apply existsb_pointwise. intros x. rewrite HPQ. reflexivity.
  - apply existsb_pointwise. intros x. rewrite HPQ. reflexivity.
  - rewrite IH. reflexivity.
Qed.

(** A relation to an entity satisfying [P] is a relation to an entity
    satisfying anything [P] entails. *)
Lemma clause_any_mono P Q s :
  (forall k, P k = true -> Q k = true) ->
  clause implies AnyRelation P s = true ->
  clause implies AnyRelation Q s = true.
Proof.
  intros HPQ. simpl. rewrite !existsb_exists.
  intros [x [Hin Hx]]. exists x. split; [assumption|].
  simpl in *. apply HPQ. exact Hx.
Qed.

End MatchingFacts.

Section CatalogFacts.

Variables floortags walltags ceilingtags side_tags : list Tag.
Variables cu_on cu_ontop : Relation.
Variable implies : Relation -> Relation -> bool.
Variable objs : Objs.
Variable sigma : Assignment.

Import CatalogSpec.

Local Abbreviation M := (matches implies objs sigma).
Local Abbreviation MK := (matches_key implies objs sigma).
Local Abbreviation rel := (related implies objs).

Lemma matches_key_at_key d k : MK d k = at_key objs (M d) k.
Proof. reflexivity. Qed.

Lemma at_key_ext P Q k :
  (forall k s, P k s = Q k s) -> at_key objs P k = at_key objs Q k.
Proof. intros H. unfold at_key. destruct (lookup k objs); auto. Qed.

Lemma matches_all_room k s : M all_room k s = is_room k s.
Proof.
  unfold all_room, is_room; simpl.
  rewrite !andb_true_r. reflexivity.
Qed.

Lemma matches_all_obj k s : M all_obj k s = is_object k s.
Proof.
  unfold all_obj, is_object; simpl.
  rewrite !andb_true_r. reflexivity.
Qed.

Lemma related_all_room r s :
  clause implies r (MK all_room) s = rel r is_room s.
Proof.
  apply clause_ext. intros k. rewrite matches_key_at_key.
  apply at_key_ext. apply matches_all_room.
Qed.

Lemma related_all_obj r s :
  clause implies r (MK all_obj) s = rel r is_object s.
Proof.
  apply clause_ext. intros k. rewrite matches_key_at_key.
  apply at_key_ext. apply matches_all_obj.
Qed.

Lemma matches_primary k s : M primary k s = is_primary implies objs sigma k s.
Proof.
  unfold primary, all_obj_in_room, is_primary.
  rewrite !matches_with_relation, clause_neg, matches_all_obj, related_all_obj.
  f_equal. f_equal.
  apply clause_ext. intros k'. rewrite matches_key_at_key.
  apply at_key_ext. intros k0 s0.
  rewrite matches_with_tags, matches_all_room. simpl.
  rewrite andb_true_r. reflexivity.
Qed.

Lemma matches_secondary k s :
  M secondary k s = is_secondary implies objs sigma k s.
Proof.
  unfold secondary, is_secondary.
  rewrite matches_with_relation, matches_all_obj. f_equal.
  apply clause_ext. intros k'. rewrite matches_key_at_key.
  apply at_key_ext. intros k0 s0.
  rewrite matches_with_tags, matches_primary. simpl.
  rewrite andb_true_r. reflexivity.
Qed.

(** An entity is not both a room and an object. *)
Lemma room_not_object k s : is_room k s = true -> is_object k s = false.
Proof.
  unfold is_room, is_object.
  destruct (tag_in (Sem Room) (obj_tags s)), (tag_in (Sem Object) (obj_tags s));
    simpl; congruence.
Qed.

(** A secondary object is related to an object, so it is not primary. *)
Lemma secondary_related_object k s :
  is_secondary implies objs sigma k s = true -> rel AnyRelation is_object s = true.
Proof.
  unfold is_secondary. rewrite andb_true_iff. intros [_ H].
  unfold related in *. revert H. apply clause_any_mono.
  intros k'. unfold at_key. destruct (lookup k' objs) as [s'|]; [|discriminate].
  unfold is_primary. rewrite !andb_true_iff. tauto.
Qed.

Lemma secondary_not_primary k s :
  is_secondary implies objs sigma k s = true ->
  is_primary implies objs sigma k s = false.
Proof.
  intros H. apply secondary_related_object in H.
  unfold is_primary. rewrite H. simpl. apply andb_false_r.
Qed.

End CatalogFacts.

(** The catalog as a literal: seven fresh keys, so every assignment appends. *)
Lemma default_greedy_stages_eq floortags walltags ceilingtags side_tags cu_on cu_ontop :
  default_greedy_stages floortags walltags ceilingtags side_tags cu_on cu_ontop =
    [ ("rooms", all_room);
      ("on_floor", with_relation primary (on_floor floortags) all_room);
      ("on_wall",
        with_relation
          (with_relation
             (with_relation primary (neg (on_floor floortags)) all_room)
             (neg (on_ceiling ceilingtags)) all_room)
          (on_wall walltags) all_room);
      ("on_ceiling",
        with_relation
          (with_relation
             (with_relation primary (neg (on_floor floortags)) all_room)
             (on_ceiling ceilingtags) all_room)
          (neg (on_wall walltags)) all_room);
      ("side_obj", with_relation secondary (side side_tags) all_obj);
      ("obj_ontop_obj",
        with_relation (with_relation (nonside side_tags) cu_ontop all_obj)
          (neg cu_on) all_obj);
      ("obj_on_support",
        with_relation (with_relation (nonside side_tags) cu_on all_obj)
          (neg cu_ontop) all_obj) ].
Proof. reflexivity. Qed.

(** The variables the stages of the catalog refer to are the room variable
    and the object variable. *)
Lemma catalog_variables floortags walltags ceilingtags side_tags cu_on cu_ontop
      (v : Tag) :
  In v [VariableTag "room"; VariableTag "obj"]
  <-> exists name d,
        lookup name (default_greedy_stages floortags walltags ceilingtags
                       side_tags cu_on cu_ontop) = Some d
        /\ In v (variables_of d).
Proof.
  rewrite default_greedy_stages_eq. split.
  - intros [<- | [<- | []]].
    + exists "on_floor". eexists. split; [reflexivity|]. simpl. tauto.
    + exists "side_obj". eexists. split; [reflexivity|]. simpl. tauto.
  - intros [name [d [Hl Hin]]]. cbn [lookup] in Hl.
    repeat match type of Hl with
           | context [string_dec name ?n] => destruct (string_dec name n)
           end;
      try discriminate Hl;
      inversion Hl; subst d; simpl in Hin; simpl; tauto.
Qed.

(** Each stage's domain matches what its description says. *)
Lemma stage_matches_spec_stage
      floortags walltags ceilingtags side_tags cu_on cu_ontop
      implies objs sigma name k s :
  stage_matches implies objs sigma
    (default_greedy_stages floortags walltags ceilingtags side_tags cu_on cu_ontop)
    name k s =
  CatalogSpec.spec_stage implies objs sigma
    floortags walltags ceilingtags side_tags cu_on cu_ontop name k s.
Proof.
  unfold stage_matches, CatalogSpec.spec_stage.
  rewrite default_greedy_stages_eq. cbn [lookup].
  repeat match goal with
         | |- context [string_dec name ?n] => destruct (string_dec name n)
         end;
    try reflexivity;
    rewrite ?matches_with_relation, ?clause_neg, ?matches_all_room,
      ?matches_primary, ?matches_secondary, ?related_all_room,
      ?related_all_obj;
    unfold nonside;
    rewrite ?matches_with_relation, ?clause_neg, ?matches_secondary,
      ?related_all_obj;
    reflexivity.
Qed.

(** C1.  [default_greedy_stages] returns exactly the seven stages rooms,
    on_floor, on_wall, on_ceiling, side_obj, obj_ontop_obj, obj_on_support in
    this order (no key is repeated), and whatever the scene, the assignment
    and the entity, each stage's domain matches what the catalog description
    says: rooms the room entities; on_floor the primary objects stable
    against the floor tags of a room; on_wall and on_ceiling the primary
    objects stable against the wall tags, respectively the ceiling tags, of
    a room, and not against the floor tags or the other's; and the last
    three the secondary objects, stable against the side tags of an object,
    or not so and on top of and not on an object, or on and not on top of
    one.  The support relations of the description are written out, not
    taken from the code. *)
Theorem C1_default_greedy_stages_catalog :
  forall floortags walltags ceilingtags side_tags cu_on cu_ontop,
    let stages :=
      default_greedy_stages floortags walltags ceilingtags side_tags
        cu_on cu_ontop in
    map fst stages = stage_names
    /\ forall implies objs sigma name k s,
        stage_matches implies objs sigma stages name k s =
          CatalogSpec.spec_stage implies objs sigma
            floortags walltags ceilingtags side_tags cu_on cu_ontop name k s.
Proof.
  intros ft wt ct st on ontop stages. split; [reflexivity|].
  intros. apply stage_matches_spec_stage.
Qed.

(** C2.  The stages are mutually exclusive.  The on_wall and on_ceiling
    domains carry the negated floor clause and each other's negated clause,
    obj_ontop_obj and obj_on_support carry the negated side clause and each
    other's negated clause; and for every scene, assignment and entity, an
    entity matching one stage of the catalog matches no stage of another
    name. *)
Theorem C2_stages_mutually_exclusive :
  forall floortags walltags ceilingtags side_tags cu_on cu_ontop,
    let stages :=
      default_greedy_stages floortags walltags ceilingtags side_tags
        cu_on cu_ontop in
    let carries name rel tgt := In (rel, tgt) (stage_relations stages name) in
    (carries "on_wall" (neg (on_floor floortags)) all_room
     /\ carries "on_wall" (neg (on_ceiling ceilingtags)) all_room
     /\ carries "on_ceiling" (neg (on_floor floortags)) all_room
     /\ carries "on_ceiling" (neg (on_wall walltags)) all_room
     /\ carries "obj_ontop_obj" (neg (side side_tags)) all_obj
     /\ carries "obj_ontop_obj" (neg cu_on) all_obj
     /\ carries "obj_on_support" (neg (side side_tags)) all_obj
     /\ carries "obj_on_support" (neg cu_ontop) all_obj)
    /\ forall implies objs sigma k s n1 n2,
        n1 <> n2 ->
        stage_matches implies objs sigma stages n1 k s = true ->
        stage_matches implies objs sigma stages n2 k s = false.
Proof.
  intros ft wt ct st on ontop stages carries. split.
  - unfold carries, stage_relations, stages. simpl. tauto.
  - intros implies objs sigma k s n1 n2 Hne.
    unfold stages. rewrite !stage_matches_spec_stage.
    unfold CatalogSpec.spec_stage.
    pose proof (@room_not_object k s) as Hro.
    pose proof (@secondary_not_primary implies objs sigma k s) as Hsp.
    assert (Hpo : CatalogSpec.is_primary implies objs sigma k s = true ->
                  CatalogSpec.is_object k s = true).
    { unfold CatalogSpec.is_primary. rewrite !andb_true_iff. tauto. }
    assert (Hso : CatalogSpec.is_secondary implies objs sigma k s = true ->
                  CatalogSpec.is_object k s = true).
    { unfold CatalogSpec.is_secondary. rewrite !andb_true_iff. tauto. }
    (* the rest is propositional: name the atoms *)
    generalize dependent (CatalogSpec.is_primary implies objs sigma k s).
    generalize dependent (CatalogSpec.is_secondary implies objs sigma k s).
    generalize dependent (CatalogSpec.is_object k s).
    generalize dependent (CatalogSpec.is_room k s).
    generalize (CatalogSpec.related implies objs (StableAgainst [] ft) CatalogSpec.is_room s).
    generalize (CatalogSpec.related implies objs (StableAgainst [] wt) CatalogSpec.is_room s).
    generalize (CatalogSpec.related implies objs (StableAgainst [] ct) CatalogSpec.is_room s).
    generalize (CatalogSpec.related implies objs (StableAgainst [] st) CatalogSpec.is_object s).
    generalize (CatalogSpec.related implies objs ontop CatalogSpec.is_object s).
    generalize (CatalogSpec.related implies objs on CatalogSpec.is_object s).
    intros bon bontop bside bceil bwall bfloor R O Hro S Hso P Hsp Hpo.
    repeat match goal with
           | |- context [string_dec ?n ?m] => destruct (string_dec n m)
           end;
      try congruence; try reflexivity;
      repeat match goal with
             | b : bool |- ?G =>
                 match G with context [b] => destruct b; simpl end
             end;
      try reflexivity; try discriminate;
      intros _; exfalso; intuition congruence.
Qed.

(* ===================================================================== *)
(** * Properties of the composition driver                                *)
(* ===================================================================== *)

Module DriverFacts.
Import Driver TraceSpec.

(** ** Traces *)

Lemma skeleton_app tr1 tr2 : skeleton (tr1 ++ tr2) = skeleton tr1 ++ skeleton tr2.
Proof. unfold skeleton. apply flat_map_app. Qed.

Lemma skeleton_snoc tr ev :
  skeleton (tr ++ [ev]) =
    skeleton tr ++ match label_of ev with Some l => [l] | None => [] end.
Proof. rewrite skeleton_app. unfold skeleton; simpl. rewrite app_nil_r. reflexivity. Qed.

Lemma last_event_snoc tr ev : last_event (tr ++ [ev]) = Some ev.
Proof. unfold last_event. rewrite rev_app_distr. reflexivity. Qed.

(** A trace that ends in [ev] is split at an earlier event or at [ev]. *)
Lemma snoc_split (tr pre post : list Event) (ev ev' : Event) :
  tr ++ [ev] = pre ++ ev' :: post ->
  (post = [] /\ pre = tr /\ ev' = ev)
  \/ (exists post', post = post' ++ [ev] /\ tr = pre ++ ev' :: post').
Proof.
  intros H. destruct (@exists_last _ (ev' :: post)) as [post' [x Hx]];
    [discriminate|].
  rewrite Hx in H. rewrite app_assoc in H.
  apply app_inj_tail in H. destruct H as [Htr Hev]. subst x.
  destruct post' as [|y post'].
  - simpl in Hx. inversion Hx; subst ev' post. left.
    rewrite app_nil_r in Htr. auto.
  - simpl in Hx. inversion Hx; subst y post. right. exists post'. auto.
Qed.

Lemma firstn_succ_snoc {A} (l : list A) (k : nat) (x : A) :
  nth_error l k = Some x -> firstn (S k) l = firstn k l ++ [x].
Proof.
  revert k. induction l as [|y l IH]; intros [|k] H; simpl in *;
    try discriminate.
  - inversion H; reflexivity.
  - rewrite (IH _ H). reflexivity.
Qed.

(** A prefix of a prefix of [L] is the prefix of [L] of its own length. *)
Lemma firstn_app_prefix {A} (l1 l2 L : list A) (k : nat) :
  l1 ++ l2 = firstn k L ->
  l1 = firstn (List.length l1) L /\ List.length l1 <= List.length L.
Proof.
  revert L k. induction l1 as [|x l1 IH]; intros L k H.
  - simpl. split; [reflexivity | lia].
  - destruct k as [|k]; [discriminate|].
    destruct L as [|y L]; [discriminate|]. simpl in H. inversion H; subst y.
    destruct (IH L k H2) as [IH1 IH2]. simpl. split; [f_equal; exact IH1 | lia].
Qed.

Lemma firstn_app_nth {A} (l1 l2 L : list A) (x : A) (k : nat) :
  l1 ++ x :: l2 = firstn k L -> nth_error L (List.length l1) = Some x.
Proof.
  revert L k. induction l1 as [|y l1 IH]; intros L k H.
  - destruct k; [discriminate|]. destruct L; [discriminate|].
    simpl in H. inversion H. reflexivity.
  - destruct k as [|k]; [discriminate|].
    destruct L as [|z L]; [discriminate|]. simpl in H. inversion H; subst z.
    simpl. eapply IH; eauto.
Qed.

Lemma index_of_nth (l : string) (L : list string) (j : nat) :
  NoDup L -> nth_error L j = Some l -> index_of l L = Some j.
Proof.
  intros Hnd. revert j. induction Hnd as [|x L Hx Hnd IH]; intros j H.
  - destruct j; discriminate.
  - destruct j as [|j]; simpl in *.
    + inversion H; subst. destruct (string_dec l l); congruence.
    + destruct (string_dec l x) as [->|Hne].
      * exfalso. apply Hx. eapply nth_error_In; eauto.
      * rewrite (IH _ H). reflexivity.
Qed.

Lemma program_order_NoDup : NoDup program_order.
Proof.
  assert (H : nodup string_dec program_order = program_order) by reflexivity.
  rewrite <- H. apply NoDup_nodup.
Qed.

(** The position of a milestone in the program order. *)
Lemma milestone_index (l : string) (j : nat) :
  nth_error program_order j = Some l -> index_of l program_order = Some j.
Proof. apply index_of_nth. apply program_order_NoDup. Qed.

(** A label of the skeleton is the label of an event of the trace. *)
Lemma in_skeleton (l : string) (tr : list Event) :
  In l (skeleton tr) ->
  exists pre ev post, tr = pre ++ ev :: post /\ label_of ev = Some l.
Proof.
  induction tr as [|ev tr IH]; simpl; [tauto|].
  intros H. apply in_app_or in H. destruct H as [H|H].
  - destruct (label_of ev) as [l'|] eqn:E; simpl in H; [|tauto].
    destruct H as [->|[]]. exists [], ev, tr. auto.
  - destruct (IH H) as [pre [ev' [post [-> Hl]]]].
    exists (ev :: pre), ev', post. auto.
Qed.

(** At most one event satisfies [f] when no event satisfying [f] comes
    after another. *)
Lemma count_le_1 (f : Event -> bool) (tr : list Event) :
  (forall pre ev post, tr = pre ++ ev :: post -> f ev = true ->
                       filter f pre = []) ->
  count f tr <= 1.
Proof.
  unfold count. induction tr as [|x tr IH] using rev_ind; intros H.
  - simpl. lia.
  - rewrite filter_app. simpl. destruct (f x) eqn:E.
    + rewrite (H tr x [] eq_refl E). simpl. lia.
    + rewrite app_nil_r. apply IH. intros pre ev post -> Hf.
      apply (H pre ev (post ++ [x])); auto.
      rewrite <- app_assoc. reflexivity.
Qed.

Section Logic.

Variable w : World.
Variable a : Args.

Local Abbreviation Inv := (Inv w a).
Local Abbreviation ev_check := (ev_check w a).

Lemma hist_ok_snoc tr ev :
  hist_ok w a tr ->
  ev_check (List.length (skeleton tr)) (last_event tr) ev ->
  hist_ok w a (tr ++ [ev]).
Proof.
  intros Hh Hev pre ev' post Heq.
  apply snoc_split in Heq.
  destruct Heq as [[_ [-> ->]] | [post' [_ Htr]]].
  - exact Hev.
  - eapply Hh; eassumption.
Qed.

Lemma no_failed_check_snoc tr ev :
  no_failed_check w tr ->
  (is_check_all ev = true -> raises w tr ev = false) ->
  no_failed_check w (tr ++ [ev]).
Proof.
  intros Hn Hev pre ev' post Heq Hc.
  apply snoc_split in Heq.
  destruct Heq as [[_ [-> ->]] | [post' [_ Htr]]].
  - auto.
  - eapply Hn; eassumption.
Qed.

Lemma Inv_skeleton_length k tr :
  Inv k tr -> k <= n_milestones -> List.length (skeleton tr) = k.
Proof.
  intros [_ [Hs _]] Hk. rewrite Hs. apply firstn_length_le.
  exact Hk.
Qed.

(** An event that is not a milestone leaves the index where it is. *)
Lemma Inv_snoc_plain k tr ev :
  Inv k tr -> k <= n_milestones ->
  label_of ev = None ->
  ev_check k (last_event tr) ev ->
  Inv k (tr ++ [ev]).
Proof.
  intros HI Hk Hl Hev.
  pose proof (Inv_skeleton_length HI Hk) as Hlen.
  destruct HI as [Hd [Hs [Hh [Hn Ht]]]].
  repeat split; auto.
  - rewrite skeleton_snoc, Hl, app_nil_r. exact Hs.
  - apply hist_ok_snoc; [exact Hh | rewrite Hlen; exact Hev].
  - apply no_failed_check_snoc; [exact Hn|].
    destruct ev; simpl in *; discriminate.
Qed.

(** The next milestone of the program order moves the index by one. *)
Lemma Inv_snoc_milestone k tr ev l :
  Inv k tr ->
  label_of ev = Some l ->
  nth_error program_order k = Some l ->
  (is_check_all ev = true -> raises w tr ev = false) ->
  ev_check k (last_event tr) ev ->
  Inv (S k) (tr ++ [ev]).
Proof.
  intros HI Hl Hnth Hc Hev.
  assert (Hk : k < n_milestones).
  { change n_milestones with (List.length program_order).
    apply nth_error_Some. rewrite Hnth. discriminate. }
  pose proof (@Inv_skeleton_length k tr HI (Nat.lt_le_incl _ _ Hk)) as Hlen.
  destruct HI as [Hd [Hs [Hh [Hn Ht]]]].
  unfold TraceSpec.Inv. repeat split.
  - unfold done, n_milestones in *. lia.
  - rewrite skeleton_snoc, Hl, Hs. symmetry.
    apply firstn_succ_snoc. exact Hnth.
  - apply hist_ok_snoc; [exact Hh | rewrite Hlen; exact Hev].
  - apply no_failed_check_snoc; assumption.
  - unfold done, n_milestones in *. intros. lia.
Qed.

Local Abbreviation triple := (triple w a).

(** ** Rules *)

Lemma triple_ret {A} k (x : A) : triple k (ret x) k.
Proof. intros st HI. exact HI. Qed.

Lemma triple_raise {A} k k' (e : Exn) :
  exn_ok e -> k <= k' -> triple k (@raise A e) k'.
Proof.
  intros He Hk st HI. simpl. split; [exact He|].
  exists k. split; [lia | exact HI].
Qed.

Lemma triple_get_trace k : triple k get_trace k.
Proof. intros st HI. exact HI. Qed.

Lemma triple_bind {A B} k k1 k2 (m : M A) (f : A -> M B) :
  triple k m k1 -> (forall x, triple k1 (f x) k2) ->
  k <= k1 -> k1 <= k2 ->
  triple k (bind m f) k2.
Proof.
  intros Hm Hf H1 H2 st HI. unfold bind.
  specialize (Hm st HI). destruct (m st) as [st1 [x|e]].
  - specialize (Hf x st1 Hm). destruct (f x st1) as [st2 [y|e]].
    + exact Hf.
    + destruct Hf as [He [k'' [Hr HI'']]]. split; [exact He|].
      exists k''. split; [lia | exact HI''].
  - destruct Hm as [He [k'' [Hr HI'']]]. split; [exact He|].
    exists k''. split; [lia | exact HI''].
Qed.

Lemma triple_emit_plain k ev :
  k <= n_milestones -> label_of ev = None ->
  (forall last, ev_check k last ev) ->
  triple k (emit ev) k.
Proof.
  intros Hk Hl Hev st HI. simpl. apply Inv_snoc_plain; auto.
Qed.

Lemma triple_emit_milestone k ev l :
  label_of ev = Some l -> nth_error program_order k = Some l ->
  is_check_all ev = false ->
  (forall last, ev_check k last ev) ->
  triple k (emit ev) (S k).
Proof.
  intros Hl Hn Hc Hev st HI. simpl.
  eapply Inv_snoc_milestone; eauto. rewrite Hc. discriminate.
Qed.

Lemma triple_ext_plain k ev :
  k <= n_milestones -> label_of ev = None ->
  (forall last, ev_check k last ev) ->
  triple k (ext w ev) k.
Proof.
  intros Hk Hl Hev st HI. unfold ext.
  assert (HI' : Inv k (trace st ++ [ev])) by (apply Inv_snoc_plain; auto).
  destruct (raises w (trace st) ev); simpl; [|exact HI'].
  split; [exact I|]. exists k. split; [lia | exact HI'].
Qed.

Lemma triple_ext_milestone k ev l :
  label_of ev = Some l -> nth_error program_order k = Some l ->
  is_check_all ev = false ->
  (forall last, ev_check k last ev) ->
  triple k (ext w ev) (S k).
Proof.
  intros Hl Hn Hc Hev st HI. unfold ext.
  assert (HI' : Inv (S k) (trace st ++ [ev])).
  { eapply Inv_snoc_milestone; eauto. rewrite Hc. discriminate. }
  destruct (raises w (trace st) ev); simpl; [|exact HI'].
  split; [exact I|]. exists (S k). split; [lia | exact HI'].
Qed.

Lemma triple_load_global k name : triple k (load_global name) k.
Proof.
  unfold load_global. destruct (mem_string name module_globals).
  - apply triple_ret.
  - apply triple_raise; [exact I | lia].
Qed.

Lemma triple_bpy_getattr k attr :
  k <= n_milestones -> attr <> "contexScreen" ->
  triple k (bpy_getattr attr) k.
Proof.
  intros Hk Ha. unfold bpy_getattr.
  apply triple_bind with (k1 := k); try lia.
  - apply triple_emit_plain; auto. intros last. simpl. auto.
  - intros _. destruct (mem_string attr bpy_attributes).
    + apply triple_ret.
    + apply triple_raise; [exact I | lia].
Qed.

Lemma triple_subscript {A} k container (d : list (string * A)) key :
  (container = "overrides" ->
   In key ["solve_steps_large"; "solve_steps_medium"; "solve_steps_small"]) ->
  triple k (subscript container d key) k.
Proof.
  intros Hc. unfold subscript. destruct (lookup key d).
  - apply triple_ret.
  - apply triple_raise; [exact Hc | lia].
Qed.

Lemma triple_get_objs k state : triple k (get_objs w state) k.
Proof.
  destruct state; simpl.
  - intros st HI. exact HI.
  - apply triple_raise; [exact I | lia].
Qed.

Lemma triple_get_parents k state o : triple k (get_parents w state o) k.
Proof.
  destruct state; simpl.
  - intros st HI. exact HI.
  - apply triple_raise; [exact I | lia].
Qed.

(** Code after the evaluation of an unbound name is never reached. *)
Lemma triple_dead_global {A} k k' name (K : unit -> M A) :
  mem_string name module_globals = false -> k <= k' ->
  triple k (bind (load_global name) K) k'.
Proof.
  intros Hm Hk st HI. unfold bind, load_global. rewrite Hm. simpl.
  split; [exact I|]. exists k. split; [lia | exact HI].
Qed.

Lemma triple_dead_bpy {A} k k' attr (K : Handle -> M A) :
  mem_string attr bpy_attributes = false ->
  k <= n_milestones -> attr <> "contexScreen" -> k <= k' ->
  triple k (bind (bpy_getattr attr) K) k'.
Proof.
  intros Hm Hk Ha Hk' st HI. unfold bind, bpy_getattr, emit. rewrite Hm. simpl.
  split; [exact I|]. exists k. split; [lia|].
  apply Inv_snoc_plain; auto. simpl. auto.
Qed.

(** ** Loops *)

Lemma triple_for_each {A} k (l : list A) body :
  (forall x, triple k (body x) k) -> triple k (for_each l body) k.
Proof.
  intros Hb. induction l as [|x l IH]; simpl.
  - apply triple_ret.
  - apply triple_bind with (k1 := k); auto.
Qed.

Lemma triple_for_enumerate {A} k i (l : list A) body :
  (forall i x, triple k (body i x) k) -> triple k (for_enumerate i l body) k.
Proof.
  intros Hb. revert i. induction l as [|x l IH]; intros i; simpl.
  - apply triple_ret.
  - apply triple_bind with (k1 := k); auto.
Qed.

Lemma triple_list_comp {A B} k (l : list A) (f : A -> M B) :
  (forall x, triple k (f x) k) -> triple k (list_comp l f) k.
Proof.
  intros Hb. induction l as [|x l IH]; simpl.
  - apply triple_ret.
  - apply triple_bind with (k1 := k); auto. intros y.
    apply triple_bind with (k1 := k); auto. intros ys. apply triple_ret.
Qed.

Lemma triple_list_comp_if {A} k (l : list A) cond :
  (forall x, triple k (cond x) k) -> triple k (list_comp_if l cond) k.
Proof.
  intros Hb. induction l as [|x l IH]; simpl.
  - apply triple_ret.
  - apply triple_bind with (k1 := k); auto. intros c.
    apply triple_bind with (k1 := k); auto. intros xs. apply triple_ret.
Qed.

Lemma triple_for_break {A} k (l : list A) body :
  (forall x, triple k (body x) k) -> triple k (for_break l body) k.
Proof.
  intros Hb. induction l as [|x l IH]; simpl.
  - apply triple_ret.
  - apply triple_bind with (k1 := k); auto. intros [|]; [apply triple_ret | exact IH].
Qed.

(** ** Stages *)

Lemma triple_run_stage {A} k p name (fn : M A) uc (d : A) pr :
  lookup name stage_params = Some (uc, pr) ->
  nth_error program_order k = Some name ->
  triple (S k) fn (S k) ->
  triple k (run_stage w p name fn uc d pr) (S k).
Proof.
  intros Hp Hn Hfn.
  assert (Hk : S k <= n_milestones).
  { change n_milestones with (List.length program_order).
    apply nth_error_Some. rewrite Hn. discriminate. }
  unfold run_stage.
  apply triple_bind with (k1 := S k); try lia.
  { eapply triple_emit_milestone;
      [reflexivity | exact Hn | reflexivity | intros last; exact Hp]. }
  intros _. apply triple_bind with (k1 := S k); try lia.
  { apply triple_get_trace. }
  intros tr.
  destruct (match pr with Some q => negb (stage_ran tr q) | None => false end)
    eqn:Epr.
  { apply triple_bind with (k1 := S k); auto; [|intros; apply triple_ret].
    apply triple_emit_plain; auto. intros last. simpl.
    split; [discriminate|]. intros _. destruct pr as [q|]; [eauto | discriminate Epr]. }
  destruct (uc && negb (chance w name (int_hash w (ex_scene_seed p) name)))
    eqn:Euc.
  { apply triple_bind with (k1 := S k); auto; [|intros; apply triple_ret].
    apply triple_emit_plain; auto. intros last. simpl.
    split; [|discriminate]. intros _.
    apply andb_true_iff in Euc. destruct Euc as [-> _]. eauto. }
  intros st HI.
  specialize (Hfn (mkSt (trace st) (int_hash w (ex_scene_seed p) name)) HI).
  destruct (fn _) as [st' [x|e]]; simpl.
  - apply Inv_snoc_plain; auto. simpl. split; discriminate.
  - destruct Hfn as [He [k'' [Hr HI'']]].
    assert (k'' = S k) by lia. subst k''.
    assert (HI1 : Inv (S k) (trace st' ++ [StageFailure name e])).
    { apply Inv_snoc_plain; auto. exact I. }
    destruct (default_on_failure w name); simpl.
    + change (trace st' ++ [StageFailure name e; Outcome name FAILED_DEFAULTED])
        with (trace st' ++ [StageFailure name e] ++ [Outcome name FAILED_DEFAULTED]).
      rewrite app_assoc. apply Inv_snoc_plain; auto. simpl. split; discriminate.
    + split; [exact He|]. exists (S k). split; [lia | exact HI1].
Qed.

(** [np.random.choice] never fails: it draws from the process-wide
    generator as it stands. *)
Lemma np_random_choice_run {A} (l : list A) (d : A) st :
  np_random_choice w l d st =
    (mkSt (trace st ++
             [NpRandomChoice (np_global st) (List.length l)
                (Nat.modulo (np_choice w (np_global st) (List.length l))
                            (List.length l))])
          (np_advance w (np_global st)),
     Ok (nth (Nat.modulo (np_choice w (np_global st) (List.length l))
                         (List.length l)) l d)).
Proof. reflexivity. Qed.

(** The draw of the restricted room type and its use. *)
Lemma triple_restrict_block {A} k' d (K : unit -> Tag -> M A) :
  (forall u rt, triple 7 (K u rt) k') -> 7 <= k' ->
  triple 7 (bind (np_random_choice w supported_roomtypes d)
              (fun rt =>
                 bind (ext w (ApplyGreedyRestriction [rt]
                                ConstraintUtil.variable_room))
                      (fun u => K u rt))) k'.
Proof.
  intros HK Hk' st HI. unfold bind. rewrite np_random_choice_run.
  set (g := np_global st).
  set (i := Nat.modulo (np_choice w g (List.length supported_roomtypes))
                       (List.length supported_roomtypes)).
  set (ev1 := NpRandomChoice g (List.length supported_roomtypes) i).
  assert (HI1 : Inv 7 (trace st ++ [ev1])).
  { apply Inv_snoc_plain; auto.
    - unfold n_milestones; lia.
    - simpl. auto. }
  unfold ext. cbn [trace np_global].
  set (ev2 := ApplyGreedyRestriction [nth i supported_roomtypes d]
                ConstraintUtil.variable_room).
  assert (Hd : nth i supported_roomtypes d = nth i supported_roomtypes (Sem Bedroom)).
  { apply nth_indep. unfold i. apply Nat.mod_upper_bound. discriminate. }
  assert (HI2 : Inv 7 ((trace st ++ [ev1]) ++ [ev2])).
  { apply Inv_snoc_plain; auto.
    - unfold n_milestones; lia.
    - rewrite last_event_snoc. unfold ev2. cbn [TraceSpec.ev_check].
      repeat split. exists g, i. split; [reflexivity|].
      f_equal. exact Hd. }
  destruct (raises w (trace st ++ [ev1]) ev2).
  - split; [exact I|]. exists 7. split; [lia | exact HI2].
  - match goal with
    | |- match K tt ?rt ?s with _ => _ end =>
        pose proof (HK tt rt s HI2) as H; destruct (K tt rt s) as [st' [x|e]]
    end; exact H.
Qed.

(** The end of a run that does not take the top-view branch. *)
Lemma triple_ret_done {A} (x : A) :
  truthy (dict_get (overrides a) "topview" (VBool false)) = false ->
  triple n_milestones (ret x) done.
Proof.
  intros Ht st [Hd [Hs [Hh [Hn _]]]]. simpl.
  unfold TraceSpec.Inv. repeat split; auto.
Qed.

(** ** Whole runs *)

Local Abbreviation run_ok := (run_ok w a).

Lemma run_ok_bind {A B} k k1 (m : M A) (f : A -> M B) :
  triple k m k1 -> raises_only is_collaborator m -> k1 <= 4 ->
  (forall x, run_ok k1 (f x)) ->
  run_ok k (bind m f).
Proof.
  intros Hm Hro Hk Hf st HI. unfold bind.
  specialize (Hm st HI). destruct (m st) as [st1 [x|e]] eqn:E.
  - exact (Hf x st1 Hm).
  - destruct Hm as [He [k'' [Hr HI'']]]. split; [exact He|]. left.
    exists k''. split; [lia|]. split; [|exact HI''].
    intros _. exact (Hro _ _ _ E).
Qed.

(** The catalog is built and validated; a failed validation ends the
    run. *)
Lemma run_ok_check_block {A} (K : unit -> M A) :
  (forall u, triple 6 (K u) done) ->
  run_ok 4 (bind (emit (Call "default_greedy_stages"))
              (fun _ => bind (ext w (CheckAll (catalog w) all_vars)) K)).
Proof.
  intros HK st HI. unfold bind at 1. unfold emit. cbv beta iota.
  set (tr1 := trace st ++ [Call "default_greedy_stages"]).
  assert (HI1 : Inv 5 tr1).
  { eapply Inv_snoc_milestone; eauto; try reflexivity.
    - discriminate.
    - simpl. split; intros Hc; discriminate Hc. }
  unfold bind, ext. cbn [trace np_global].
  destruct (raises w tr1 (CheckAll (catalog w) all_vars)) eqn:Hr.
  - split; [exact I|]. right. exists tr1.
    split; [reflexivity|]. split; [exact Hr|]. split; [exact HI1|].
    split; [apply last_event_snoc | reflexivity].
  - assert (HI2 : Inv 6 (tr1 ++ [CheckAll (catalog w) all_vars])).
    { eapply Inv_snoc_milestone; eauto; try reflexivity.
      simpl. repeat split. unfold tr1. apply last_event_snoc. }
    match goal with
    | |- match K tt ?s with _ => _ end =>
        pose proof (HK tt s HI2) as H; destruct (K tt s) as [st' [x|e]]
    end.
    + exact H.
    + destruct H as [He [k'' [Hr' HI'']]]. split; [exact He|]. left.
      exists k''. split; [lia|]. split; [lia | exact HI''].
Qed.

End Logic.

(** ** Walking a program *)

Create HintDb driver.

#[local] Hint Unfold
  call iterate_assignments get_solver_state add_coarse_terrain solve_rooms
  solve_large solve_medium solve_small add_bottle_to_scene
  pose_cameras select_object_to_follow animate_cameras set_visibility_mode
  turn_off_lights invisible_room_ceilings topview_branch : driver.

Ltac le_side := first [apply Nat.le_refl | unfold n_milestones, done; lia].

Ltac exn_side :=
  first [ exact I
        | intros Hc; first [discriminate Hc | simpl; tauto] ].

Ltac check_ev :=
  intros; cbn [ev_check];
  first
    [ exact I
    | reflexivity
    | split; intros Hc; first [discriminate Hc | reflexivity]
    | left; repeat split; eexists; reflexivity
    | right; left; repeat split; do 2 eexists; split;
      [ | reflexivity]; simpl; tauto
    | right; right; repeat split; do 2 eexists; split;
      [ | reflexivity]; simpl; tauto ].

Ltac walk :=
  cbv beta zeta;
  lazymatch goal with
  | |- TraceSpec.triple _ _ _ ?m _ =>
      lazymatch m with
      | bind (load_global "random") _ =>
          apply triple_dead_global; [reflexivity | le_side]
      | bind (bpy_getattr "contexScene") _ =>
          apply triple_dead_bpy;
          [reflexivity | le_side | discriminate | le_side]
      | bind (if truthy (dict_get _ "topview" _) then _ else _) _ =>
          apply triple_bind with (k1 := done);
          [ lazymatch goal with
            | |- TraceSpec.triple _ _ _ (if ?c then _ else _) _ =>
                destruct c eqn:Htop;
                [walk | apply triple_ret_done; exact Htop]
            end
          | intros; apply triple_ret | le_side | le_side ]
      | bind (np_random_choice _ _ _) _ =>
          apply triple_restrict_block; [intros; walk | le_side]
      | bind _ _ =>
          eapply triple_bind; [walk | intros; walk | le_side | le_side]
      | ret _ => apply triple_ret
      | raise _ => apply triple_raise; [exn_side | le_side]
      | get_trace => apply triple_get_trace
      | emit _ =>
          first [ eapply triple_emit_milestone;
                  [reflexivity | reflexivity | reflexivity | check_ev]
                | apply triple_emit_plain; [le_side | reflexivity | check_ev] ]
      | ext _ _ =>
          first [ eapply triple_ext_milestone;
                  [reflexivity | reflexivity | reflexivity | check_ev]
                | apply triple_ext_plain; [le_side | reflexivity | check_ev] ]
      | load_global _ => apply triple_load_global
      | bpy_getattr _ => apply triple_bpy_getattr; [le_side | discriminate]
      | subscript _ _ _ => apply triple_subscript; exn_side
      | get_objs _ _ => apply triple_get_objs
      | get_parents _ _ _ => apply triple_get_parents
      | for_each _ _ => apply triple_for_each; intros; walk
      | for_enumerate _ _ _ => apply triple_for_enumerate; intros; walk
      | list_comp _ _ => apply triple_list_comp; intros; walk
      | list_comp_if _ _ => apply triple_list_comp_if; intros; walk
      | for_break _ _ => apply triple_for_break; intros; walk
      | run_stage _ _ _ _ _ _ _ =>
          apply triple_run_stage; [reflexivity | reflexivity | walk]
      | if ?c then _ else _ => destruct c eqn:?; walk
      | match ?x with _ => _ end => destruct x; walk
      | _ => progress autounfold with driver; walk
      end
  end.

Section RaisesOnly.

Variable w : World.
Variable P : Exn -> Prop.
Hypothesis P_collab : forall c, P (CollaboratorError c).

Lemma raises_only_ret {A} (x : A) : raises_only P (ret x).
Proof. intros st st' e H. discriminate H. Qed.

Lemma raises_only_emit ev : raises_only P (emit ev).
Proof. intros st st' e H. discriminate H. Qed.

Lemma raises_only_get_trace : raises_only P get_trace.
Proof. intros st st' e H. discriminate H. Qed.

Lemma raises_only_ext ev : raises_only P (ext w ev).
Proof.
  intros st st' e H. unfold ext in H.
  destruct (raises w (trace st) ev); inversion H. apply P_collab.
Qed.

Lemma raises_only_bind {A B} (m : M A) (f : A -> M B) :
  raises_only P m -> (forall x, raises_only P (f x)) ->
  raises_only P (bind m f).
Proof.
  intros Hm Hf st st' e H. unfold bind in H.
  destruct (m st) as [st1 [x|e1]] eqn:E.
  - eapply Hf; eauto.
  - inversion H; subst. eapply Hm; eauto.
Qed.

Lemma raises_only_call f : raises_only P (call w f).
Proof.
  apply raises_only_bind; [apply raises_only_ext | intros; apply raises_only_ret].
Qed.

Lemma raises_only_for_each {A} (l : list A) body :
  (forall x, raises_only P (body x)) -> raises_only P (for_each l body).
Proof.
  intros Hb. induction l as [|x l IH]; simpl.
  - apply raises_only_ret.
  - apply raises_only_bind; auto.
Qed.

Lemma raises_only_list_comp {A B} (l : list A) (f : A -> M B) :
  (forall x, raises_only P (f x)) -> raises_only P (list_comp l f).
Proof.
  intros Hb. induction l as [|x l IH]; simpl.
  - apply raises_only_ret.
  - apply raises_only_bind; auto. intros y.
    apply raises_only_bind; auto. intros ys. apply raises_only_ret.
Qed.

Lemma raises_only_run_stage {A} p name (fn : M A) uc (d : A) pr :
  raises_only P fn -> raises_only P (run_stage w p name fn uc d pr).
Proof.
  intros Hfn. unfold run_stage.
  apply raises_only_bind; [apply raises_only_emit|]. intros _.
  apply raises_only_bind; [apply raises_only_get_trace|]. intros tr.
  destruct (match pr with Some q => negb (stage_ran tr q) | None => false end).
  { apply raises_only_bind; [apply raises_only_emit|]. intros _.
    apply raises_only_ret. }
  destruct (uc && negb (chance w name (int_hash w (ex_scene_seed p) name))).
  { apply raises_only_bind; [apply raises_only_emit|]. intros _.
    apply raises_only_ret. }
  intros st st' e H.
  destruct (fn _) as [st1 [x|e1]] eqn:E; [discriminate H|].
  destruct (default_on_failure w name); [discriminate H|].
  inversion H; subst. eapply Hfn; eauto.
Qed.


End RaisesOnly.

Ltac raises_only_walk :=
  cbv beta;
  lazymatch goal with
  | |- raises_only _ (bind _ _) =>
      apply raises_only_bind; [raises_only_walk | intros; raises_only_walk]
  | |- raises_only _ (ret _) => apply raises_only_ret
  | |- raises_only _ (emit _) => apply raises_only_emit
  | |- raises_only _ get_trace => apply raises_only_get_trace
  | |- raises_only _ (ext _ _) => apply raises_only_ext; assumption
  | |- raises_only _ (call _ _) => apply raises_only_call; assumption
  | |- raises_only _ (for_each _ _) =>
      apply raises_only_for_each; intros; raises_only_walk
  | |- raises_only _ (list_comp _ _) =>
      apply raises_only_list_comp; intros; raises_only_walk
  | |- raises_only _ (run_stage _ _ _ _ _ _ _) =>
      apply raises_only_run_stage; raises_only_walk
  | |- raises_only _ (if ?c then _ else _) => destruct c; raises_only_walk
  | |- raises_only _ (add_coarse_terrain _ _) =>
      unfold add_coarse_terrain; raises_only_walk
  end.

(** Every run of [compose_indoors] passes the milestones in program order,
    every event is as the source has it at that point, and a run that returns
    has passed them all and did not take the top-view branch. *)
Lemma compose_indoors_run_ok (w : World) (a : Args) :
  run_ok w a 0 (compose_indoors w a).
Proof.
  unfold compose_indoors.
  assert (Hcollab : forall c, is_collaborator (CollaboratorError c))
    by (intros c; exists c; reflexivity).
  eapply run_ok_bind; [walk | raises_only_walk | lia | intros; cbv beta zeta].
  eapply run_ok_bind; [walk | raises_only_walk | lia | intros; cbv beta zeta].
  eapply run_ok_bind; [walk | raises_only_walk | lia | intros; cbv beta zeta].
  eapply run_ok_bind; [walk | raises_only_walk | lia | intros; cbv beta zeta].
  apply run_ok_check_block. intros.
  walk.
Qed.

(** Computes the index of a milestone named in a hypothesis. *)
Ltac index_eq H :=
  match type of H with
  | index_of ?l program_order = Some ?j =>
      let v := eval vm_compute in (index_of l program_order) in
      change (v = Some j) in H; inversion H
  end.

(** ** What every run satisfies *)

Section Runs.

Variable w : World.
Variable a : Args.

Lemma Inv_nil : Inv w a 0 [].
Proof.
  unfold Inv. repeat split.
  - unfold done; lia.
  - intros pre ev post H. destruct pre; discriminate H.
  - intros pre ev post H. destruct pre; discriminate H.
  - unfold done. discriminate.
Qed.

Lemma run_inv (g : Rng) :
  match run w a g with
  | (st, Ok _) => Inv w a done (trace st)
  | (st, Raise e) =>
      exn_ok e
      /\ ((exists k, k <> 5 /\ (k <= 4 -> is_collaborator e)
                     /\ Inv w a k (trace st))
          \/ Crashed w a e (trace st))
  end.
Proof. apply (@compose_indoors_run_ok w a (mkSt [] g)). apply Inv_nil. Qed.

Lemma Inv_Shape k tr : Inv w a k tr -> Shape w a tr.
Proof.
  intros [Hd [Hs [Hh _]]]. split; [|exact Hh].
  destruct (Nat.le_gt_cases k n_milestones) as [Hk|Hk].
  - exists k. auto.
  - exists n_milestones. split; [lia|]. rewrite Hs.
    rewrite !firstn_all2; auto. simpl. unfold n_milestones in Hk. lia.
Qed.

Lemma Crashed_Shape e tr : Crashed w a e tr -> Shape w a tr.
Proof.
  intros [pre [-> [Hr [HI [Hl _]]]]].
  assert (Hlen : List.length (skeleton pre) = 5).
  { apply (Inv_skeleton_length HI). unfold n_milestones; lia. }
  destruct HI as [_ [Hs [Hh _]]]. split.
  - exists 6. split; [unfold n_milestones; lia|].
    rewrite skeleton_snoc, Hs. reflexivity.
  - apply hist_ok_snoc; [exact Hh|]. rewrite Hlen. simpl. auto.
Qed.

Lemma run_Shape (g : Rng) : Shape w a (run_trace w a g).
Proof.
  unfold run_trace. pose proof (run_inv g) as H.
  destruct (run w a g) as [st [r|e]]; simpl.
  - eapply Inv_Shape; eauto.
  - destruct H as [_ [[k [_ [_ HI]]] | HC]].
    + eapply Inv_Shape; eauto.
    + eapply Crashed_Shape; eauto.
Qed.

Unset Implicit Arguments.

(** ** Reading the shape of a trace *)

Lemma Shape_prefix pre post : Shape w a (pre ++ post) -> Shape w a pre.
Proof.
  intros [[k [Hk Hs]] Hh]. split.
  - rewrite skeleton_app in Hs. apply firstn_app_prefix in Hs.
    destruct Hs as [Hs Hl]. exists (List.length (skeleton pre)). auto.
  - intros p ev q ->. apply (Hh p ev (q ++ post)).
    rewrite <- app_assoc. reflexivity.
Qed.

(** Where an event sits: the milestones before it are the first [j] of
    the program order, it passes the check for position [j], and if it is
    a milestone it is the one of index [j]. *)
Lemma position tr pre ev post :
  Shape w a tr -> tr = pre ++ ev :: post ->
  let j := List.length (skeleton pre) in
  skeleton pre = firstn j program_order
  /\ ev_check w a j (last_event pre) ev
  /\ (forall l, label_of ev = Some l -> index_of l program_order = Some j).
Proof.
  intros HS -> j. pose proof HS as [[k [Hk Hs]] Hh]. repeat split.
  - rewrite skeleton_app in Hs. apply firstn_app_prefix in Hs. tauto.
  - eapply Hh; reflexivity.
  - intros l Hl. apply milestone_index.
    rewrite skeleton_app in Hs. simpl in Hs. rewrite Hl in Hs. simpl in Hs.
    eapply firstn_app_nth; eauto.
Qed.

(** A milestone the run has passed is an event of its trace. *)
Lemma passed_event tr l j :
  Shape w a tr -> index_of l program_order = Some j ->
  j < List.length (skeleton tr) ->
  exists pre ev post, tr = pre ++ ev :: post /\ label_of ev = Some l.
Proof.
  intros [[k [Hk Hs]] _] Hi Hj. apply in_skeleton. rewrite Hs in *.
  rewrite firstn_length_le in Hj by exact Hk.
  assert (Hn : nth_error program_order j = Some l).
  { clear - Hi. revert j Hi. induction program_order as [|x L IH]; intros j Hi;
      simpl in *; [discriminate|].
    destruct (string_dec l x) as [->|].
    - inversion Hi; reflexivity.
    - destruct (index_of l L); [|discriminate]. inversion Hi. simpl. auto. }
  rewrite <- (firstn_skipn k program_order) in Hn.
  rewrite nth_error_app1 in Hn.
  - eapply nth_error_In; eauto.
  - rewrite firstn_length_le by exact Hk. exact Hj.
Qed.

Lemma filter_nil_all {A} (f : A -> bool) (l : list A) :
  (forall x, In x l -> f x = false) -> filter f l = [].
Proof.
  induction l as [|x l IH]; intros H; simpl; [reflexivity|].
  rewrite (H x (or_introl eq_refl)). apply IH. intros y Hy. apply H. right; exact Hy.
Qed.

Lemma count_ge_1 (f : Event -> bool) (tr : list Event) (ev : Event) :
  In ev tr -> f ev = true -> 1 <= count f tr.
Proof.
  intros Hin Hf. unfold count.
  assert (H : In ev (filter f tr)) by (apply filter_In; auto).
  destruct (filter f tr); [destruct H | simpl; lia].
Qed.

Lemma skeleton_length_split pre ev post l :
  label_of ev = Some l ->
  List.length (skeleton pre) < List.length (skeleton (pre ++ ev :: post)).
Proof.
  intros Hl. rewrite skeleton_app, length_app. simpl. rewrite Hl. simpl. lia.
Qed.

Lemma skeleton_length_mono pre post :
  List.length (skeleton pre) <= List.length (skeleton (pre ++ post)).
Proof. rewrite skeleton_app, length_app. lia. Qed.

(** A kind of event that is one milestone occurs at most once. *)
Lemma unique_milestone (f : Event -> bool) (l0 : string) (tr : list Event) :
  (forall ev, f ev = true -> label_of ev = Some l0) ->
  Shape w a tr -> count f tr <= 1.
Proof.
  intros Hf HS. apply count_le_1. intros pre ev post Htr Hev.
  apply filter_nil_all. intros x Hx.
  destruct (f x) eqn:Efx; [exfalso | reflexivity].
  apply in_split in Hx. destruct Hx as [p1 [p2 Hpre]].
  destruct (position _ _ _ _ HS Htr) as [_ [_ Hi]].
  specialize (Hi _ (Hf _ Hev)).
  assert (Htr' : tr = p1 ++ x :: (p2 ++ ev :: post)).
  { rewrite Htr, Hpre, <- app_assoc. reflexivity. }
  destruct (position _ _ _ _ HS Htr') as [_ [_ Hi']].
  specialize (Hi' _ (Hf _ Efx)).
  rewrite Hi in Hi'. inversion Hi' as [Hlen].
  pose proof (skeleton_length_split p1 x p2 l0 (Hf _ Efx)) as Hlt.
  rewrite <- Hpre in Hlt. lia.
Qed.

(** ** The validation pass *)

Lemma is_check_all_label ev :
  is_check_all ev = true -> label_of ev = Some "checks.check_all".
Proof. destruct ev; simpl; intros H; try discriminate H. reflexivity. Qed.

Lemma label_is_check_all k last ev :
  ev_check w a k last ev -> label_of ev = Some "checks.check_all" ->
  is_check_all ev = true.
Proof.
  destruct ev; simpl; intros Hc Hl; try discriminate Hl; try reflexivity.
  - destruct (mem_string callee milestone_calls) eqn:E; [|discriminate Hl].
    inversion Hl; subst callee. vm_compute in E. discriminate E.
  - inversion Hl; subst name. vm_compute in Hc. discriminate Hc.
Qed.

(** A solver is constructed, a solving stage invoked, or the solver
    called, only after seven milestones: the validation pass is the
    sixth. *)
Lemma solving_position tr pre ev post :
  Shape w a tr -> tr = pre ++ ev :: post -> is_solving ev = true ->
  7 <= List.length (skeleton pre).
Proof.
  intros HS Htr Hev. destruct (position _ _ _ _ HS Htr) as [_ [Hc Hi]].
  destruct ev; simpl in Hev; try discriminate Hev.
  - (* Call *)
    apply orb_true_iff in Hev. destruct Hev as [Hev|Hev];
      apply String.eqb_eq in Hev; subst callee.
    + specialize (Hi _ eq_refl). index_eq Hi. lia.
    + simpl in Hc. destruct Hc as [Hc _]. rewrite (Hc eq_refl). lia.
  - (* RunStage *)
    specialize (Hi _ eq_refl). unfold mem_string in Hev.
    destruct (in_dec string_dec name solve_stage_names) as [Hin|]; [|discriminate].
    simpl in Hin.
    destruct Hin as [<-|[<-|[<-|[<-|[]]]]]; index_eq Hi; lia.
  - (* SolveObjects *)
    simpl in Hc. destruct Hc as [[-> _]|[[-> _]|[-> _]]]; lia.
Qed.

Lemma check_all_position tr pre ev post :
  Shape w a tr -> tr = pre ++ ev :: post -> is_check_all ev = true ->
  List.length (skeleton pre) = 5.
Proof.
  intros HS Htr Hev. destruct (position _ _ _ _ HS Htr) as [_ [_ Hi]].
  specialize (Hi _ (is_check_all_label _ Hev)).
  index_eq Hi. reflexivity.
Qed.

Lemma no_solving_before_check tr pre ev post :
  Shape w a tr -> tr = pre ++ ev :: post -> is_check_all ev = true ->
  filter is_solving pre = [].
Proof.
  intros HS Htr Hev. pose proof (check_all_position _ _ _ _ HS Htr Hev) as H5.
  apply filter_nil_all. intros x Hx.
  destruct (is_solving x) eqn:E; [exfalso | reflexivity].
  apply in_split in Hx. destruct Hx as [p1 [p2 Hpre]].
  assert (HSpre : Shape w a pre).
  { apply (Shape_prefix pre (ev :: post)). rewrite <- Htr. exact HS. }
  pose proof (solving_position _ _ _ _ HSpre Hpre E) as H7.
  pose proof (skeleton_length_mono p1 (x :: p2)) as Hm.
  rewrite <- Hpre in Hm. lia.
Qed.

Lemma check_all_before_solving tr pre ev post :
  Shape w a tr -> tr = pre ++ ev :: post -> is_solving ev = true ->
  count is_check_all pre = 1.
Proof.
  intros HS Htr Hev. pose proof (solving_position _ _ _ _ HS Htr Hev) as H7.
  assert (HSpre : Shape w a pre).
  { apply (Shape_prefix pre (ev :: post)). rewrite <- Htr. exact HS. }
  pose proof (unique_milestone is_check_all _ _ is_check_all_label HSpre) as Hle.
  assert (Hi : index_of "checks.check_all" program_order = Some 5) by reflexivity.
  destruct (passed_event _ _ _ HSpre Hi) as [p [c [q [Hpre Hl]]]]; [lia|].
  destruct (position _ _ _ _ HSpre Hpre) as [_ [Hc _]].
  pose proof (label_is_check_all _ _ _ Hc Hl) as Hca.
  assert (Hin : In c pre) by (rewrite Hpre; apply in_elt).
  pose proof (count_ge_1 is_check_all pre c Hin Hca). lia.
Qed.

(** A failed validation pass is the last thing a run does. *)
Lemma failed_check_ends_run (g : Rng) pre ev post :
  run_trace w a g = pre ++ ev :: post ->
  is_check_all ev = true -> raises w pre ev = true ->
  post = [] /\ run_result w a g = Raise (CollaboratorError "checks.check_all").
Proof.
  unfold run_trace, run_result. pose proof (run_inv g) as H.
  destruct (run w a g) as [st [r|e]]; simpl; intros Htr Hev Hr.
  - destruct H as [_ [_ [_ [Hn _]]]].
    rewrite (Hn _ _ _ Htr Hev) in Hr. discriminate Hr.
  - destruct H as [_ [[k [_ [_ [_ [_ [_ [Hn _]]]]]]] | HC]].
    + rewrite (Hn _ _ _ Htr Hev) in Hr. discriminate Hr.
    + destruct HC as [pre' [Htr' [_ [HI [_ ->]]]]].
      rewrite Htr in Htr'. symmetry in Htr'. apply snoc_split in Htr'.
      destruct Htr' as [[-> _] | [post' [_ Hpre']]]; [auto|exfalso].
      pose proof (Inv_Shape HI) as HSpre.
      pose proof (check_all_position _ _ _ _ HSpre Hpre' Hev) as H5.
      pose proof (skeleton_length_split pre ev post' _ (is_check_all_label _ Hev)) as Hlt.
      rewrite <- Hpre' in Hlt.
      assert (Hlen : List.length (skeleton pre') = 5).
      { apply (Inv_skeleton_length HI). unfold n_milestones; lia. }
      lia.
Qed.

(** A run that returns has passed every milestone. *)
Lemma returned_skeleton (g : Rng) :
  returned (run_result w a g) -> skeleton (run_trace w a g) = program_order.
Proof.
  unfold run_trace, run_result. pose proof (run_inv g) as H.
  destruct (run w a g) as [st [r|e]]; simpl; [intros _ | tauto].
  destruct H as [_ [Hs _]]. exact Hs.
Qed.

(** Two splits of one list at its elements. *)
Lemma two_splits {A} (p1 p2 q1 q2 : list A) (x1 x2 : A) :
  p1 ++ x1 :: q1 = p2 ++ x2 :: q2 ->
  (p1 = p2 /\ x1 = x2 /\ q1 = q2)
  \/ (exists r, p2 = p1 ++ x1 :: r)
  \/ (exists r, p1 = p2 ++ x2 :: r).
Proof.
  revert p2. induction p1 as [|y p1 IH]; intros [|z p2] H; simpl in H.
  - inversion H; subst. left. auto.
  - inversion H; subst. right. left. exists p2. reflexivity.
  - inversion H; subst. right. right. exists p1. reflexivity.
  - inversion H; subst. destruct (IH _ H2) as [[-> [-> ->]] | [[r ->] | [r ->]]].
    + left. auto.
    + right. left. exists r. reflexivity.
    + right. right. exists r. reflexivity.
Qed.

(** A milestone has one place in the trace. *)
Lemma same_milestone_same_place tr p1 e1 q1 p2 e2 q2 l :
  Shape w a tr -> tr = p1 ++ e1 :: q1 -> tr = p2 ++ e2 :: q2 ->
  label_of e1 = Some l -> label_of e2 = Some l ->
  p1 = p2 /\ e1 = e2 /\ q1 = q2.
Proof.
  intros HS H1 H2 L1 L2.
  destruct (position _ _ _ _ HS H1) as [_ [_ Hi1]].
  destruct (position _ _ _ _ HS H2) as [_ [_ Hi2]].
  specialize (Hi1 _ L1). specialize (Hi2 _ L2).
  rewrite Hi1 in Hi2. inversion Hi2 as [Hlen].
  rewrite H1 in H2.
  destruct (two_splits _ _ _ _ _ _ H2) as [Heq | [[r Hr] | [r Hr]]];
    [exact Heq | exfalso | exfalso].
  - pose proof (skeleton_length_split p1 e1 r l L1) as Hlt.
    rewrite <- Hr in Hlt. lia.
  - pose proof (skeleton_length_split p2 e2 r l L2) as Hlt.
    rewrite <- Hr in Hlt. lia.
Qed.

Lemma last_event_inv (tr : list Event) (ev : Event) :
  last_event tr = Some ev -> exists pre, tr = pre ++ [ev].
Proof.
  unfold last_event. intros H. destruct (rev tr) as [|x r] eqn:E;
    [discriminate H|]. inversion H; subst x.
  exists (rev r). rewrite <- (rev_involutive tr), E. reflexivity.
Qed.

(** No run stops between the construction of the catalog and its
    validation. *)
Lemma run_never_stops_at_catalog (g : Rng) :
  List.length (skeleton (run_trace w a g)) <> 5.
Proof.
  unfold run_trace. pose proof (run_inv g) as H.
  destruct (run w a g) as [st [r|e]]; simpl.
  - destruct H as [_ [Hs _]]. rewrite Hs. vm_compute. discriminate.
  - destruct H as [_ [[k [Hk [_ HI]]] | HC]].
    + destruct (Nat.le_gt_cases k n_milestones) as [Hle|Hgt].
      * rewrite (Inv_skeleton_length HI Hle). exact Hk.
      * destruct HI as [_ [Hs _]]. rewrite Hs.
        rewrite firstn_all2 by (simpl; unfold n_milestones in Hgt; lia).
        vm_compute. discriminate.
    + destruct HC as [pre [-> [_ [HI _]]]].
      rewrite skeleton_snoc.
      rewrite length_app, (Inv_skeleton_length HI) by (unfold n_milestones; lia).
      simpl. lia.
Qed.

(** Once the catalog is built, the next event is its validation. *)
Lemma catalog_then_check (g : Rng) pre post :
  run_trace w a g = pre ++ Call "default_greedy_stages" :: post ->
  exists post', post = CheckAll (catalog w) all_vars :: post'.
Proof.
  intros Htr. pose proof (run_Shape g) as HS.
  pose proof (run_never_stops_at_catalog g) as Hn5.
  assert (Hl : label_of (Call "default_greedy_stages")
               = Some "default_greedy_stages") by reflexivity.
  destruct (position _ _ _ _ HS Htr) as [_ [_ Hi]].
  specialize (Hi _ Hl). index_eq Hi.
  pose proof (skeleton_length_split pre _ post _ Hl) as Hlt.
  rewrite <- Htr in Hlt.
  assert (Hi5 : index_of "checks.check_all" program_order = Some 5)
    by reflexivity.
  destruct (passed_event _ _ _ HS Hi5) as [p [c [q [Htr' Hlc]]]]; [lia|].
  destruct (position _ _ _ _ HS Htr') as [_ [Hc _]].
  pose proof (label_is_check_all _ _ _ Hc Hlc) as Hca.
  destruct c; try discriminate Hca. simpl in Hc.
  destruct Hc as [-> [-> Hlast]].
  destruct (last_event_inv _ _ Hlast) as [p' ->].
  rewrite <- app_assoc in Htr'. simpl in Htr'.
  destruct (same_milestone_same_place _ _ _ _ _ _ _ _ HS Htr Htr' Hl Hl)
    as [_ [_ ->]].
  eexists. reflexivity.
Qed.

(** A trace that got past the validation pass holds its event. *)
Lemma validated_when_passed tr :
  Shape w a tr -> 6 <= List.length (skeleton tr) ->
  1 <= count is_check_all tr.
Proof.
  intros HS Hlen.
  assert (Hi : index_of "checks.check_all" program_order = Some 5) by reflexivity.
  destruct (passed_event _ _ _ HS Hi) as [p [c [q [Htr Hl]]]]; [lia|].
  destruct (position _ _ _ _ HS Htr) as [_ [Hc _]].
  pose proof (label_is_check_all _ _ _ Hc Hl) as Hca.
  assert (Hin : In c tr) by (rewrite Htr; apply in_elt).
  exact (count_ge_1 is_check_all tr c Hin Hca).
Qed.

(** A run without the validation pass was stopped by a collaborator that
    failed before the catalog was built. *)
Lemma never_validated_collaborator (g : Rng) :
  count is_check_all (run_trace w a g) = 0 ->
  is_collaborator_result (run_result w a g)
  /\ List.length (skeleton (run_trace w a g)) <= 4.
Proof.
  pose proof (run_Shape g) as HS. revert HS.
  unfold run_trace, run_result. pose proof (run_inv g) as H.
  destruct (run w a g) as [st [r|e]]; simpl; intros HS H0.
  - exfalso. destruct H as [_ [Hs _]].
    assert (Hlen : 6 <= List.length (skeleton (trace st))).
    { rewrite Hs. vm_compute. lia. }
    pose proof (validated_when_passed _ HS Hlen). lia.
  - destruct H as [_ [[k [Hk [Hcol HI]]] | HC]].
    + destruct (Nat.le_gt_cases k 4) as [Hle|Hgt].
      * split; [exact (Hcol Hle)|].
        rewrite (Inv_skeleton_length HI) by (unfold n_milestones; lia).
        exact Hle.
      * exfalso.
        assert (Hlen : 6 <= List.length (skeleton (trace st))).
        { destruct (Nat.le_gt_cases k n_milestones) as [Hle|Hgt'].
          - rewrite (Inv_skeleton_length HI Hle). lia.
          - destruct HI as [_ [Hs _]]. rewrite Hs.
            rewrite firstn_all2 by (simpl; unfold n_milestones in Hgt'; lia).
            vm_compute. lia. }
        pose proof (validated_when_passed _ HS Hlen). lia.
    + exfalso. destruct HC as [pre [Htr _]]. rewrite Htr in H0.
      unfold count in H0. rewrite filter_app, length_app in H0.
      simpl in H0. lia.
Qed.

End Runs.

(** C3 (as amended).  In every run of [compose_indoors] the validation
    pass [checks.check_all] is called at most once, and exactly once in a run
    that returns.  Where it is called, it is called on the freshly built
    catalog and the variable list [room, obj], the event just before it is
    the construction of the catalog, and no solver has been constructed and
    no solving stage invoked before it; if it fails there, nothing follows
    and the run ends with its exception.  Whenever a solver is constructed,
    a solving stage is invoked or the solver is called, the pass has run
    exactly once before.  Once the catalog is built, the very next event is
    the pass.  The runs without the pass are those a failing collaborator
    (executor, terrain, lighting, constraint graph) stopped before the
    catalog was built: they end with that collaborator's exception, at most
    four milestones into the program.  The variable list is full: its
    variables are exactly those the stages of the catalog refer to. *)
Theorem C3_validation_once_before_solving :
  forall (w : World) (a : Args) (g : Rng),
    let tr := run_trace w a g in
    let vars := [VariableTag "room"; VariableTag "obj"] in
    count is_check_all tr <= 1
    /\ (returned (run_result w a g) -> count is_check_all tr = 1)
    /\ (forall pre ev post,
          tr = pre ++ ev :: post -> is_check_all ev = true ->
          ev = CheckAll (catalog w) vars
          /\ last_event pre = Some (Call "default_greedy_stages")
          /\ filter is_solving pre = []
          /\ (raises w pre ev = true ->
              post = []
              /\ run_result w a g = Raise (CollaboratorError "checks.check_all")))
    /\ (forall pre ev post,
          tr = pre ++ ev :: post -> is_solving ev = true ->
          count is_check_all pre = 1)
    /\ (forall pre post,
          tr = pre ++ Call "default_greedy_stages" :: post ->
          exists post', post = CheckAll (catalog w) vars :: post')
    /\ (count is_check_all tr = 0 ->
        is_collaborator_result (run_result w a g)
        /\ List.length (skeleton tr) <= 4)
    /\ (forall v,
          In v vars
          <-> exists name d, lookup name (catalog w) = Some d
                             /\ In v (variables_of d)).
Proof.
  intros w a g tr vars. pose proof (run_Shape w a g) as HS. fold tr in HS.
  split; [|split; [|split; [|split; [|split; [|split]]]]];
    [ | | | | intros pre post Htr; eapply catalog_then_check; exact Htr
      | apply never_validated_collaborator
      | intros v; apply catalog_variables ].
  - apply (unique_milestone w a is_check_all _ _ (is_check_all_label) HS).
  - intros Hret.
    pose proof (unique_milestone w a is_check_all _ _ (is_check_all_label) HS) as Hle.
    pose proof (returned_skeleton w a g Hret) as Hsk. fold tr in Hsk.
    assert (Hi : index_of "checks.check_all" program_order = Some 5) by reflexivity.
    destruct (passed_event w a _ _ _ HS Hi) as [p [c [q [Htr Hl]]]].
    { rewrite Hsk. simpl. lia. }
    destruct (position w a _ _ _ _ HS Htr) as [_ [Hc _]].
    pose proof (label_is_check_all w a _ _ _ Hc Hl) as Hca.
    assert (Hin : In c tr) by (rewrite Htr; apply in_elt).
    pose proof (count_ge_1 is_check_all tr c Hin Hca). lia.
  - intros pre ev post Htr Hev.
    destruct (position w a _ _ _ _ HS Htr) as [_ [Hc _]].
    destruct ev; try discriminate Hev. simpl in Hc.
    destruct Hc as [-> [-> Hlast]].
    split; [reflexivity|]. split; [exact Hlast|].
    split; [eapply no_solving_before_check; eauto|].
    intros Hr. eapply failed_check_ends_run; eauto.
  - intros pre ev post Htr Hev. eapply check_all_before_solving; eauto.
Qed.

(** The [n]-th event splits the trace around it. *)
Lemma split_at_nth {A} (l : list A) (n : nat) (x : A) :
  nth_error l n = Some x -> l = firstn n l ++ x :: skipn (S n) l.
Proof.
  revert n. induction l as [|y l IH]; intros [|n] H; simpl in *;
    try discriminate.
  - inversion H; reflexivity.
  - f_equal. apply IH. exact H.
Qed.

Lemma label_is_stage w a k last ev name :
  ev_check w a k last ev -> label_of ev = Some name ->
  lookup name stage_params <> None ->
  exists uc pr, ev = RunStage name uc pr
                /\ lookup name stage_params = Some (uc, pr).
Proof.
  destruct ev; simpl; intros Hc Hl Hn; try discriminate Hl.
  - destruct (mem_string callee milestone_calls) eqn:E; [|discriminate Hl].
    inversion Hl; subst callee. exfalso. apply Hn.
    unfold mem_string in E.
    destruct (in_dec string_dec name milestone_calls) as [Hin|]; [|discriminate E].
    simpl in Hin.
    destruct Hin as [<-|[<-|[<-|[<-|[<-|[<-|[<-|[]]]]]]]]; reflexivity.
  - inversion Hl; subst name0. eauto.
  - inversion Hl; subst name. exfalso. apply Hn. reflexivity.
  - inversion Hl; subst name. exfalso. apply Hn. reflexivity.
Qed.

Lemma is_stage_label name ev :
  is_stage name ev = true -> label_of ev = Some name.
Proof.
  destruct ev; simpl; intros H; try discriminate H.
  apply String.eqb_eq in H. subst. reflexivity.
Qed.

(** C4 (as amended).  Every [solver.solve_objects] call of a run is made
    either in the large solve, for the on_floor stage, with
    [abort_unsatisfied=overrides.get('abort_unsatisfied_large', False)], or
    in the medium solve (on_wall, on_ceiling, side_obj) or the small solve
    (obj_ontop_obj, obj_on_support) with no [abort_unsatisfied] argument at
    all, whatever the overrides hold. *)
Theorem C4_abort_flag_only_for_large :
  forall (w : World) (a : Args) (g : Rng) (n : nat)
         d vars n_steps desc abort,
    nth_error (run_trace w a g) n
      = Some (SolveObjects d vars n_steps desc abort) ->
    let passed := skeleton (firstn n (run_trace w a g)) in
    (passed = firstn 10 program_order
     /\ (exists i, desc = desc_of "on_floor" i)
     /\ abort = Some (dict_get (overrides a) "abort_unsatisfied_large"
                        (VBool false)))
    \/ (passed = firstn 16 program_order
        /\ (exists name i, In name ["on_wall"; "on_ceiling"; "side_obj"]
                           /\ desc = desc_of name i)
        /\ abort = None)
    \/ (passed = firstn 17 program_order
        /\ (exists name i, In name ["obj_ontop_obj"; "obj_on_support"]
                           /\ desc = desc_of name i)
        /\ abort = None).
Proof.
  intros w a g n d vars n_steps desc abort Hn passed.
  pose proof (run_Shape w a g) as HS.
  destruct (position w a _ _ _ _ HS (split_at_nth _ _ _ Hn)) as [Hsk [Hc _]].
  fold passed in Hsk, Hc. simpl in Hc.
  destruct Hc as [[Hk [Ha Hd]] | [[Hk [Ha Hd]] | [Hk [Ha Hd]]]];
    rewrite Hk in Hsk; [left | right; left | right; right]; auto.
Qed.

(** C5 (as amended).  The milestones of every run are an initial part of
    the program order, and all of it when the run returns: executor,
    terrain, sky lighting, constraints, catalog, validation, restriction,
    solver, solve_rooms, solve_large, add_bottle, spawning of the camera
    rigs, pose_cameras, animate_cameras, intermediate placeholders,
    solve_medium, solve_small, assets and room decoration, the snapshot,
    get_camera, lights_off, invisible ceilings, overhead_cam,
    hide_other_rooms, nature_backdrop.  So when solve_medium is invoked the
    cameras have been spawned, posed and animated; only overhead_cam comes
    after all solving. *)
Theorem C5_stage_order :
  forall (w : World) (a : Args) (g : Rng),
    let tr := run_trace w a g in
    (exists k, skeleton tr = firstn k program_order)
    /\ (returned (run_result w a g) -> skeleton tr = program_order)
    /\ (forall pre ev post,
          tr = pre ++ ev :: post -> is_stage "solve_medium" ev = true ->
          skeleton pre = firstn 15 program_order)
    /\ (forall pre ev post,
          tr = pre ++ ev :: post -> is_stage "overhead_cam" ev = true ->
          skeleton pre = firstn 31 program_order).
Proof.
  intros w a g tr. pose proof (run_Shape w a g) as HS. fold tr in HS.
  split; [|split; [|split]].
  - destruct HS as [[k [_ Hs]] _]. eauto.
  - apply returned_skeleton.
  - intros pre ev post Htr Hev.
    destruct (position w a _ _ _ _ HS Htr) as [Hsk [_ Hi]].
    specialize (Hi _ (is_stage_label _ _ Hev)). index_eq Hi.
    rewrite <- H0 in Hsk. exact Hsk.
  - intros pre ev post Htr Hev.
    destruct (position w a _ _ _ _ HS Htr) as [Hsk [_ Hi]].
    specialize (Hi _ (is_stage_label _ _ Hev)). index_eq Hi.
    rewrite <- H0 in Hsk. exact Hsk.
Qed.

Lemma is_to_json_label ev :
  is_to_json ev = true -> label_of ev = Some "state.to_json".
Proof. destruct ev; simpl; intros H; try discriminate H. reflexivity. Qed.

Lemma label_is_to_json w a k last ev :
  ev_check w a k last ev -> label_of ev = Some "state.to_json" ->
  is_to_json ev = true.
Proof.
  destruct ev; simpl; intros Hc Hl; try discriminate Hl; try reflexivity.
  - destruct (mem_string callee milestone_calls) eqn:E; [|discriminate Hl].
    inversion Hl; subst callee. vm_compute in E. discriminate E.
  - inversion Hl; subst name. vm_compute in Hc. discriminate Hc.
Qed.

(** C8 (as amended).  In every run the scene state is written by
    [state.to_json] at most once, and exactly once in a run that returns or
    gets as far as get_camera; a run stopped before that writes none.  It is
    written to [output_folder / 'solve_state.json'], when all milestones up
    to room_ceilings (every solving and decoration stage) have been passed,
    and only get_camera, lights_off, invisible_room_ceilings, overhead_cam,
    hide_other_rooms and nature_backdrop follow; the driver reads no file. *)
Theorem C8_snapshot_written_once :
  forall (w : World) (a : Args) (g : Rng),
    let tr := run_trace w a g in
    count is_to_json tr <= 1
    /\ (returned (run_result w a g) -> count is_to_json tr = 1)
    /\ count is_read tr = 0
    /\ (forall pre ev post,
          tr = pre ++ ev :: post -> is_to_json ev = true ->
          ev = ToJson (path_join (output_folder a) "solve_state.json")
          /\ skeleton pre = firstn 27 program_order
          /\ exists k, skeleton post = firstn k (skipn 28 program_order))
    /\ (forall pre ev post,
          tr = pre ++ ev :: post -> is_call "cam_util.get_camera" ev = true ->
          count is_to_json pre = 1).
Proof.
  intros w a g tr. pose proof (run_Shape w a g) as HS. fold tr in HS.
  pose proof (unique_milestone w a is_to_json _ _ is_to_json_label HS) as Hle.
  split; [exact Hle|]. split; [|split; [|split]].
  - intros Hret.
    pose proof (returned_skeleton w a g Hret) as Hsk. fold tr in Hsk.
    assert (Hi : index_of "state.to_json" program_order = Some 27) by reflexivity.
    destruct (passed_event w a _ _ _ HS Hi) as [p [c [q [Htr Hl]]]].
    { rewrite Hsk. simpl. lia. }
    destruct (position w a _ _ _ _ HS Htr) as [_ [Hc _]].
    pose proof (label_is_to_json w a _ _ _ Hc Hl) as Hca.
    assert (Hin : In c tr) by (rewrite Htr; apply in_elt).
    pose proof (count_ge_1 is_to_json tr c Hin Hca). lia.
  - unfold count. rewrite filter_nil_all; [reflexivity|].
    intros x Hx. destruct x; try reflexivity.
    apply in_split in Hx. destruct Hx as [p [q Htr]].
    destruct (position w a _ _ _ _ HS Htr) as [_ [Hc _]]. destruct Hc.
  - intros pre ev post Htr Hev.
    destruct (position w a _ _ _ _ HS Htr) as [Hsk [Hc Hi]].
    specialize (Hi _ (is_to_json_label _ Hev)). index_eq Hi.
    rewrite <- H0 in Hsk.
    destruct ev; try discriminate Hev. simpl in Hc. subst path.
    split; [reflexivity|]. split; [exact Hsk|].
    destruct HS as [[k [Hk Hs]] _]. rewrite Htr in Hs.
    rewrite skeleton_app in Hs. simpl in Hs. rewrite Hsk in Hs.
    exists (k - 28).
    rewrite <- skipn_firstn_comm. rewrite <- Hs.
    change (firstn 27 program_order ++ "state.to_json" :: skeleton post)
      with (firstn 28 program_order ++ skeleton post).
    rewrite skipn_app. simpl. reflexivity.
  - intros pre ev post Htr Hev.
    destruct ev; try discriminate Hev. simpl in Hev.
    apply String.eqb_eq in Hev. subst callee.
    destruct (position w a _ _ _ _ HS Htr) as [Hsk [_ Hi]].
    specialize (Hi _ eq_refl). index_eq Hi.
    assert (HSpre : Shape w a pre).
    { apply (Shape_prefix w a pre (Call "cam_util.get_camera" :: post)).
      rewrite <- Htr. exact HS. }
    pose proof (unique_milestone w a is_to_json _ _ is_to_json_label HSpre) as Hle'.
    assert (Hib : index_of "state.to_json" program_order = Some 27) by reflexivity.
    destruct (passed_event w a _ _ _ HSpre Hib) as [p [c [q [Hpre Hl]]]]; [lia|].
    destruct (position w a _ _ _ _ HSpre Hpre) as [_ [Hc _]].
    pose proof (label_is_to_json w a _ _ _ Hc Hl) as Hca.
    assert (Hin : In c pre) by (rewrite Hpre; apply in_elt).
    pose proof (count_ge_1 is_to_json pre c Hin Hca). lia.
Qed.

(** C9.  [add_bottle] is never read: runs that differ only in its value are
    the same run.  The add_bottle stage is handed to the executor with
    [use_chance=False] and no prerequisite, in every run that gets as far as
    spawning the camera rigs, and it is never skipped. *)
Theorem C9_add_bottle_ignored :
  forall (w : World) (a : Args) (g : Rng),
    let tr := run_trace w a g in
    (forall b1 b2, run w (with_add_bottle b1 a) g = run w (with_add_bottle b2 a) g)
    /\ (forall pre ev post,
          tr = pre ++ ev :: post -> is_stage "add_bottle" ev = true ->
          ev = RunStage "add_bottle" false None)
    /\ (forall pre ev post,
          tr = pre ++ ev :: post ->
          is_call "placement.camera.spawn_camera_rigs" ev = true ->
          In (RunStage "add_bottle" false None) pre)
    /\ (forall o, In (Outcome "add_bottle" o) tr ->
                  o = RAN \/ o = FAILED_DEFAULTED).
Proof.
  intros w a g tr. pose proof (run_Shape w a g) as HS. fold tr in HS.
  split; [reflexivity|]. split; [|split].
  - intros pre ev post Htr Hev.
    destruct (position w a _ _ _ _ HS Htr) as [_ [Hc _]].
    destruct ev; try discriminate Hev. simpl in Hev, Hc.
    apply String.eqb_eq in Hev. subst name.
    vm_compute in Hc. inversion Hc. reflexivity.
  - intros pre ev post Htr Hev.
    destruct ev; try discriminate Hev. simpl in Hev.
    apply String.eqb_eq in Hev. subst callee.
    destruct (position w a _ _ _ _ HS Htr) as [Hsk [_ Hi]].
    specialize (Hi _ eq_refl). index_eq Hi.
    assert (HSpre : Shape w a pre).
    { apply (Shape_prefix w a pre (Call "placement.camera.spawn_camera_rigs" :: post)).
      rewrite <- Htr. exact HS. }
    assert (Hib : index_of "add_bottle" program_order = Some 10) by reflexivity.
    destruct (passed_event w a _ _ _ HSpre Hib) as [p [c [q [Hpre Hl]]]]; [lia|].
    destruct (position w a _ _ _ _ HSpre Hpre) as [_ [Hc _]].
    destruct (label_is_stage w a _ _ _ _ Hc Hl) as [uc [pr [-> Hp]]];
      [discriminate|].
    vm_compute in Hp. inversion Hp; subst uc pr.
    rewrite Hpre. apply in_elt.
  - intros o Hin. apply in_split in Hin. destruct Hin as [p [q Htr]].
    destruct (position w a _ _ _ _ HS Htr) as [_ [Hc _]]. simpl in Hc.
    destruct Hc as [Hc1 Hc2]. destruct o; auto.
    + destruct (Hc1 eq_refl) as [pr Hp]. vm_compute in Hp. discriminate Hp.
    + destruct (Hc2 eq_refl) as [uc [pr Hp]]. vm_compute in Hp. discriminate Hp.
Qed.

(** ** The stage executor and the process-wide generator *)




(** ** Unbound names *)



Lemma list_comp_if_pure {A} (l : list A) (cond : A -> M bool)
      (f : St -> A -> bool) st :
  (forall x st, cond x st = (st, Ok (f st x))) ->
  list_comp_if l cond st = (st, Ok (filter (f st) l)).
Proof.
  intros Hc. induction l as [|x l IH]; simpl; [reflexivity|].
  unfold bind. rewrite Hc, IH. reflexivity.
Qed.



Lemma solve_medium_needs_key w a stages state st :
  lookup "solve_steps_medium" (overrides a) = None ->
  solve_medium w a stages state st
    = (st, Raise (KeyError "overrides" "solve_steps_medium")).
Proof.
  intros H. unfold solve_medium, bind, subscript. rewrite H. reflexivity.
Qed.

Lemma solve_small_needs_key w a stages state st :
  lookup "solve_steps_small" (overrides a) = None ->
  solve_small w a stages state st
    = (st, Raise (KeyError "overrides" "solve_steps_small")).
Proof.
  intros H. unfold solve_small, bind, subscript. rewrite H. reflexivity.
Qed.

Lemma solve_large_needs_key w a stages state st d :
  lookup "solve_steps_large" (overrides a) = None ->
  lookup "on_floor" stages = Some d ->
  raises w (trace st) (IterateAssignments d all_vars true) = false ->
  let tr := trace st ++ [IterateAssignments d all_vars true] in
  (assignments w tr d all_vars true <> [] ->
   snd (solve_large w a stages state st)
     = Raise (KeyError "overrides" "solve_steps_large"))
  /\ (assignments w tr d all_vars true = [] ->
      snd (solve_large w a stages state st) = Ok (Some (solver_state w tr))).
Proof.
  intros Hk Hd Hr tr.
  unfold solve_large, bind, subscript, iterate_assignments, ext, bind,
    get_trace, get_solver_state, ret.
  rewrite Hd. cbn [trace np_global]. rewrite Hr. cbn [trace np_global].
  rewrite ?Hk.
  fold tr. destruct (assignments w tr d all_vars true) as [|x l]; split;
    intros H; try congruence.
  - reflexivity.
  - cbn [for_enumerate]. unfold bind. reflexivity.
Qed.

(** C10 (as amended).  [solve_medium] and [solve_small] subscript their step
    budget first, so they raise [KeyError] as soon as they run when the key
    is absent.  [solve_large] subscripts [solve_steps_large] once per
    assignment, inside the loop: with the key absent it raises [KeyError]
    when the on_floor stage yields an assignment and returns normally when
    it yields none.  No other key of the overrides is subscripted: whatever
    the overrides hold, a run raises [KeyError] on them only for one of the
    three step budgets, never for a flag that is read with a default. *)
Theorem C10_override_keys :
  forall (w : World) (a : Args) (g : Rng),
    (forall stages state st,
        lookup "solve_steps_medium" (overrides a) = None ->
        solve_medium w a stages state st
          = (st, Raise (KeyError "overrides" "solve_steps_medium")))
    /\ (forall stages state st,
          lookup "solve_steps_small" (overrides a) = None ->
          solve_small w a stages state st
            = (st, Raise (KeyError "overrides" "solve_steps_small")))
    /\ (forall stages state st d,
          lookup "solve_steps_large" (overrides a) = None ->
          lookup "on_floor" stages = Some d ->
          raises w (trace st) (IterateAssignments d all_vars true) = false ->
          let tr := trace st ++ [IterateAssignments d all_vars true] in
          (assignments w tr d all_vars true <> [] ->
           snd (solve_large w a stages state st)
             = Raise (KeyError "overrides" "solve_steps_large"))
          /\ (assignments w tr d all_vars true = [] ->
              snd (solve_large w a stages state st)
                = Ok (Some (solver_state w tr))))
    /\ (forall k, run_result w a g = Raise (KeyError "overrides" k) ->
                  In k solve_steps_keys).
Proof.
  intros w a g. split; [|split; [|split]].
  - apply solve_medium_needs_key.
  - apply solve_small_needs_key.
  - apply solve_large_needs_key.
  - unfold run_result. intros k Hres. pose proof (run_inv w a g) as H.
    destruct (run w a g) as [st [r|e]]; simpl in Hres; [discriminate Hres|].
    inversion Hres; subst e. destruct H as [He _]. exact (He eq_refl).
Qed.

End DriverFacts.

(* ===================================================================== *)
(** * The properties on the sample scenes and environments                *)
(* ===================================================================== *)

Module SampleFacts.
Import Driver TraceSpec Samples DriverFacts.

(** The catalog on two rooms and a table standing on a floor: on_floor
    matches the table and neither room. *)
Example on_floor_matches_the_table :
  map (fun ks => stage_matches implies_eq two_rooms_one_table room0_bound
                   sample_stages "on_floor" (fst ks) (snd ks))
      two_rooms_one_table
  = [false; false; true].
Proof. vm_compute. reflexivity. Qed.

Example rooms_matches_the_rooms :
  map (fun ks => stage_matches implies_eq two_rooms_one_table room0_bound
                   sample_stages "rooms" (fst ks) (snd ks))
      two_rooms_one_table
  = [true; true; false].
Proof. vm_compute. reflexivity. Qed.

(** The table matches on_floor, so it does not match on_wall. *)
Lemma C2_table_on_floor_not_on_wall :
  "on_floor" <> "on_wall"
  /\ stage_matches implies_eq two_rooms_one_table room0_bound sample_stages
       "on_floor" "table" table_spec = true
  /\ stage_matches implies_eq two_rooms_one_table room0_bound sample_stages
       "on_wall" "table" table_spec = false.
Proof.
  assert (Hne : "on_floor" <> "on_wall") by discriminate.
  assert (Hm : stage_matches implies_eq two_rooms_one_table room0_bound
                 sample_stages "on_floor" "table" table_spec = true)
    by (vm_compute; reflexivity).
  split; [exact Hne|]. split; [exact Hm|].
  exact (proj2 (C2_stages_mutually_exclusive sample_floortags sample_walltags
                  sample_ceilingtags sample_side sample_on sample_ontop)
               implies_eq two_rooms_one_table room0_bound "table" table_spec
               "on_floor" "on_wall" Hne Hm).
Defined.

(** C3 fails as stated: when [home_constraints] fails, the run ends there,
    before the catalog is built, and no validation pass is made. *)
Lemma C3_no_validation_without_constraints :
  let tr := run_trace no_constraints_world (sample_args step_budgets) 0%Z in
  run_result no_constraints_world (sample_args step_budgets) 0%Z
    = Raise (CollaboratorError "home_constraints")
  /\ last_event tr = Some (Call "home_constraints")
  /\ count is_check_all tr = 0.
Proof. vm_compute. repeat split; reflexivity. Qed.

(** The run in the scene with one room returns, and validates once. *)
Lemma C3_one_room_run_validates_once :
  returned (run_result one_room_world (sample_args step_budgets) 0%Z)
  /\ count is_check_all
       (run_trace one_room_world (sample_args step_budgets) 0%Z) = 1.
Proof.
  assert (Hr : returned (run_result one_room_world (sample_args step_budgets)
                           0%Z))
    by (vm_compute; exact I).
  split; [exact Hr|].
  exact (proj1 (proj2 (C3_validation_once_before_solving
                         one_room_world (sample_args step_budgets) 0%Z)) Hr).
Defined.

(** C4 fails as stated: with the medium and small flags set, the on_wall
    and obj_ontop_obj calls of [solve_objects] still carry no flag. *)
Lemma C4_medium_small_flags_not_passed :
  let a := sample_args abort_everywhere in
  let tr := run_trace one_room_world a 0%Z in
  truthy (dict_get (overrides a) "abort_unsatisfied_medium" (VBool false)) = true
  /\ truthy (dict_get (overrides a) "abort_unsatisfied_small" (VBool false)) = true
  /\ existsb (solves_without_abort_flag "on_wall_0") tr = true
  /\ existsb (solves_without_abort_flag "obj_ontop_obj_0") tr = true.
Proof. vm_compute. repeat split; reflexivity. Qed.

(** The on_floor call of the same run carries the large flag. *)
Lemma C4_large_flag_passed :
  let a := sample_args abort_everywhere in
  let tr := run_trace one_room_world a 0%Z in
  exists d vars n_steps,
    nth_error tr 18
      = Some (SolveObjects d vars n_steps "on_floor_0" (Some (VBool true)))
    /\ skeleton (firstn 18 tr) = firstn 10 program_order.
Proof.
  intros a tr.
  destruct (nth_error tr 18) as [ev|] eqn:E; [|vm_compute in E; discriminate E].
  destruct ev as [| | | | | | | | |d vars n_steps desc abort| | | | |];
    try (vm_compute in E; discriminate E).
  assert (Hd : desc = "on_floor_0") by (vm_compute in E; congruence).
  assert (Ha : abort = Some (VBool true)) by (vm_compute in E; congruence).
  subst desc abort. exists d, vars, n_steps. split; [reflexivity|].
  destruct (C4_abort_flag_only_for_large one_room_world a 0%Z 18 _ _ _ _ _ E)
    as [[H _] | [[_ [_ H]] | [_ [_ H]]]]; [exact H | discriminate H | discriminate H].
Defined.

(** C5 fails as stated: the cameras are posed and animated before the
    medium and small solves. *)
Lemma C5_cameras_before_medium_solve :
  let tr := run_trace one_room_world (sample_args step_budgets) 0%Z in
  returned (run_result one_room_world (sample_args step_budgets) 0%Z)
  /\ occurs_before (is_stage "pose_cameras") (is_stage "solve_medium") tr = true
  /\ occurs_before (is_stage "animate_cameras") (is_stage "solve_small") tr = true
  /\ existsb (solves_without_abort_flag "on_wall_0") tr = true.
Proof. vm_compute. repeat split; reflexivity. Qed.

(** The run in the scene with one room returns, and passes every milestone
    in the order of the program. *)
Lemma C5_one_room_run_passes_every_milestone :
  returned (run_result one_room_world (sample_args step_budgets) 0%Z)
  /\ skeleton (run_trace one_room_world (sample_args step_budgets) 0%Z)
     = program_order.
Proof.
  assert (Hr : returned (run_result one_room_world (sample_args step_budgets)
                           0%Z))
    by (vm_compute; exact I).
  split; [exact Hr|].
  exact (proj1 (proj2 (C5_stage_order one_room_world
                         (sample_args step_budgets) 0%Z)) Hr).
Defined.





(** C8 fails as stated: a run that a stage stops before the snapshot writes
    none.  In the scene with one room, when the doors cannot be populated
    the run ends in the room_doors stage; and without a step budget for the
    medium solve it ends in the solve_medium stage. *)
Lemma C8_stopped_run_writes_nothing :
  let doors := run_trace no_doors_world (sample_args step_budgets) 0%Z in
  let budget := run_trace one_room_world (sample_args large_budget_only) 0%Z in
  (run_result no_doors_world (sample_args step_budgets) 0%Z
     = Raise (CollaboratorError "room_dec.populate_doors")
   /\ last_event doors
      = Some (StageFailure "room_doors"
                (CollaboratorError "room_dec.populate_doors"))
   /\ count is_to_json doors = 0)
  /\ (run_result one_room_world (sample_args large_budget_only) 0%Z
       = Raise (KeyError "overrides" "solve_steps_medium")
     /\ last_event budget
        = Some (StageFailure "solve_medium"
                  (KeyError "overrides" "solve_steps_medium"))
     /\ count is_to_json budget = 0).
Proof. vm_compute. repeat split; reflexivity. Qed.

(** The run in the scene with one room returns, and writes the snapshot
    once. *)
Lemma C8_one_room_run_writes_once :
  returned (run_result one_room_world (sample_args step_budgets) 0%Z)
  /\ count is_to_json
       (run_trace one_room_world (sample_args step_budgets) 0%Z) = 1.
Proof.
  assert (Hr : returned (run_result one_room_world (sample_args step_budgets)
                           0%Z))
    by (vm_compute; exact I).
  split; [exact Hr|].
  exact (proj1 (proj2 (C8_snapshot_written_once
                         one_room_world (sample_args step_budgets) 0%Z)) Hr).
Defined.

Lemma C9_bottle_stage_whatever_add_bottle :
  let a := with_add_bottle false (sample_args step_budgets) in
  let tr := run_trace quiet_world a 0%Z in
  In (RunStage "add_bottle" false None) (firstn 29 tr).
Proof.
  intros a tr.
  assert (E : nth_error tr 29 = Some (Call "placement.camera.spawn_camera_rigs"))
    by (vm_compute; reflexivity).
  exact (proj1 (proj2 (proj2 (C9_add_bottle_ignored quiet_world a 0%Z)))
               _ _ _ (split_at_nth tr 29 _ E) eq_refl).
Defined.

(** C10 fails as stated: with no [solve_steps_large] in the overrides and
    no assignment for on_floor, [solve_large] returns. *)
Lemma C10_solve_large_without_key :
  lookup "solve_steps_large" (overrides (sample_args [])) = None
  /\ snd (solve_large quiet_world (sample_args []) sample_stages (Some 0)
            (mkSt [] 0%Z))
     = Ok (Some 0).
Proof. vm_compute. split; reflexivity. Qed.

Lemma C10_solve_medium_without_key :
  solve_medium quiet_world (sample_args []) sample_stages (Some 0) (mkSt [] 0%Z)
  = (mkSt [] 0%Z, Raise (KeyError "overrides" "solve_steps_medium")).
Proof.
  apply (proj1 (C10_override_keys quiet_world (sample_args []) 0%Z)).
  reflexivity.
Defined.

End SampleFacts.

(* ===================================================================== *)
(** * What the programs can do                                            *)
(* ===================================================================== *)

Unset Implicit Arguments.

Module BehaviourFacts.
Import Driver TraceSpec Behaviour.

Section Rules.

Variable w : World.
Variable pe : Event -> Prop.
Variable px : Exn -> Prop.

Lemma behaves_ret {A} (Q : A -> Prop) (x : A) :
  Q x -> behaves pe Q px (ret x).
Proof.
  intros H st. split; [|exact H].
  exists []. simpl. rewrite app_nil_r. auto.
Qed.

Lemma behaves_raise {A} (Q : A -> Prop) (e : Exn) :
  px e -> behaves pe Q px (@raise A e).
Proof.
  intros H st. split; [|exact H].
  exists []. simpl. rewrite app_nil_r. auto.
Qed.

Lemma behaves_get_trace (Q : list Event -> Prop) :
  (forall tr, Q tr) -> behaves pe Q px get_trace.
Proof.
  intros H st. split; [|apply H].
  exists []. simpl. rewrite app_nil_r. auto.
Qed.

Lemma behaves_emit (Q : unit -> Prop) (ev : Event) :
  pe ev -> Q tt -> behaves pe Q px (emit ev).
Proof.
  intros He HQ st. split; [|exact HQ].
  exists [ev]. simpl. auto.
Qed.

Lemma behaves_ext (Q : unit -> Prop) (ev : Event) :
  pe ev -> Q tt -> px (CollaboratorError (callee_of ev)) ->
  behaves pe Q px (ext w ev).
Proof.
  intros He HQ Hx st. unfold ext. split.
  - exists [ev]. destruct (raises w (trace st) ev); simpl; auto.
  - destruct (raises w (trace st) ev); simpl; auto.
Qed.

Lemma behaves_bind {A B} (Q1 : A -> Prop) (Q : B -> Prop)
      (m : M A) (f : A -> M B) :
  behaves pe Q1 px m -> (forall x, Q1 x -> behaves pe Q px (f x)) ->
  behaves pe Q px (bind m f).
Proof.
  intros Hm Hf st. unfold bind.
  destruct (Hm st) as [[ad1 [Ht1 Hp1]] Ho1].
  destruct (m st) as [st1 [x|e]]; simpl in *.
  - destruct (Hf x Ho1 st1) as [[ad2 [Ht2 Hp2]] Ho2].
    split; [|exact Ho2]. exists (ad1 ++ ad2).
    rewrite Ht2, Ht1, app_assoc. split; [reflexivity|].
    apply Forall_app; auto.
  - split; [eauto | exact Ho1].
Qed.

Lemma behaves_bind_any {A B} (Q : B -> Prop) (m : M A) (f : A -> M B) :
  behaves pe (fun _ => True) px m -> (forall x, behaves pe Q px (f x)) ->
  behaves pe Q px (bind m f).
Proof. intros Hm Hf. eapply behaves_bind; eauto. Qed.

Lemma behaves_weaken {A} (Q Q' : A -> Prop) (m : M A) :
  behaves pe Q px m -> (forall x, Q x -> Q' x) -> behaves pe Q' px m.
Proof.
  intros Hm HQ st. destruct (Hm st) as [Ha Ho]. split; [exact Ha|].
  destruct (snd (m st)); auto.
Qed.

Lemma behaves_load_global (Q : unit -> Prop) (name : string) :
  (mem_string name module_globals = true -> Q tt) ->
  (mem_string name module_globals = false -> px (NameError name)) ->
  behaves pe Q px (load_global name).
Proof.
  intros HQ Hx. unfold load_global.
  destruct (mem_string name module_globals).
  - apply behaves_ret; auto.
  - apply behaves_raise; auto.
Qed.

(** Code after the evaluation of an unbound name is never reached. *)
Lemma behaves_dead_global {A} (Q : A -> Prop) (name : string)
      (K : unit -> M A) :
  mem_string name module_globals = false -> px (NameError name) ->
  behaves pe Q px (bind (load_global name) K).
Proof.
  intros Hm Hx. apply behaves_bind with (Q1 := fun _ => False).
  - apply behaves_load_global; [rewrite Hm; discriminate | auto].
  - intros _ [].
Qed.

Lemma behaves_bpy_getattr (Q : Handle -> Prop) (attr : string) :
  pe (GetAttr "bpy" attr) ->
  (mem_string attr bpy_attributes = true -> Q ("bpy." ++ attr)%string) ->
  (mem_string attr bpy_attributes = false -> px (AttributeError "bpy" attr)) ->
  behaves pe Q px (bpy_getattr attr).
Proof.
  intros He HQ Hx. unfold bpy_getattr.
  apply behaves_bind_any; [apply behaves_emit; auto|]. intros _.
  destruct (mem_string attr bpy_attributes).
  - apply behaves_ret; auto.
  - apply behaves_raise; auto.
Qed.

Lemma behaves_dead_bpy {A} (Q : A -> Prop) (attr : string)
      (K : Handle -> M A) :
  mem_string attr bpy_attributes = false ->
  pe (GetAttr "bpy" attr) -> px (AttributeError "bpy" attr) ->
  behaves pe Q px (bind (bpy_getattr attr) K).
Proof.
  intros Hm He Hx. apply behaves_bind with (Q1 := fun _ => False).
  - apply behaves_bpy_getattr; [exact He | rewrite Hm; discriminate | auto].
  - intros _ [].
Qed.

Lemma behaves_subscript {A} (Q : A -> Prop) container
      (d : list (string * A)) key :
  (forall v, lookup key d = Some v -> Q v) ->
  (lookup key d = None -> px (KeyError container key)) ->
  behaves pe Q px (subscript container d key).
Proof.
  intros HQ Hx. unfold subscript. destruct (lookup key d).
  - apply behaves_ret; auto.
  - apply behaves_raise; auto.
Qed.

Lemma behaves_get_objs (Q : Objs -> Prop) state :
  (forall s tr, state = Some s -> Q (state_objs w tr s)) ->
  (state = None -> px (AttributeError "NoneType" "objs")) ->
  behaves pe Q px (get_objs w state).
Proof.
  intros HQ Hx. destruct state as [s|]; simpl.
  - apply behaves_bind_any; [apply behaves_get_trace; auto|].
    intros tr. apply behaves_ret. auto.
  - apply behaves_raise; auto.
Qed.

Lemma behaves_get_parents (Q : list ObjectSpec -> Prop) s o :
  (forall tr, Q (state_parents w tr s o)) ->
  behaves pe Q px (get_parents w (Some s) o).
Proof.
  intros HQ. simpl.
  apply behaves_bind_any; [apply behaves_get_trace; auto|].
  intros tr. apply behaves_ret. auto.
Qed.

Lemma behaves_np_random_choice {A} (Q : A -> Prop) (l : list A) (d : A) :
  (forall g i, pe (NpRandomChoice g (List.length l) i)) ->
  (forall i, Q (nth i l d)) ->
  behaves pe Q px (np_random_choice w l d).
Proof.
  intros He HQ st. rewrite DriverFacts.np_random_choice_run. simpl.
  split; [|apply HQ]. eexists. split; [reflexivity|]. auto.
Qed.

(** ** Loops *)

Lemma behaves_for_each {A} (Q : unit -> Prop) (l : list A) body :
  (forall x, behaves pe (fun _ => True) px (body x)) -> Q tt ->
  behaves pe Q px (for_each l body).
Proof.
  intros Hb HQ. induction l as [|x l IH]; simpl.
  - apply behaves_ret; auto.
  - apply behaves_bind_any; auto.
Qed.

Lemma behaves_for_enumerate {A} (Q : unit -> Prop) i (l : list A) body :
  (forall i x, behaves pe (fun _ => True) px (body i x)) -> Q tt ->
  behaves pe Q px (for_enumerate i l body).
Proof.
  intros Hb HQ. revert i. induction l as [|x l IH]; intros i; simpl.
  - apply behaves_ret; auto.
  - apply behaves_bind_any; auto.
Qed.

Lemma behaves_list_comp {A B} (Q : list B -> Prop) (l : list A)
      (f : A -> M B) :
  (forall x, behaves pe (fun _ => True) px (f x)) -> (forall ys, Q ys) ->
  behaves pe Q px (list_comp l f).
Proof.
  intros Hb HQ. apply behaves_weaken with (Q := fun _ => True); [|auto].
  induction l as [|x l IH]; simpl.
  - apply behaves_ret; auto.
  - apply behaves_bind_any; auto. intros y.
    apply behaves_bind_any; auto. intros ys. apply behaves_ret; auto.
Qed.

Lemma behaves_list_comp_if {A} (Q : list A -> Prop) (l : list A) cond :
  (forall x, behaves pe (fun _ => True) px (cond x)) -> (forall ys, Q ys) ->
  behaves pe Q px (list_comp_if l cond).
Proof.
  intros Hb HQ. apply behaves_weaken with (Q := fun _ => True); [|auto].
  induction l as [|x l IH]; simpl.
  - apply behaves_ret; auto.
  - apply behaves_bind_any; auto. intros c.
    apply behaves_bind_any; auto. intros xs. apply behaves_ret; auto.
Qed.

Lemma behaves_for_break {A} (Q : unit -> Prop) (l : list A) body :
  (forall x, behaves pe (fun _ => True) px (body x)) -> Q tt ->
  behaves pe Q px (for_break l body).
Proof.
  intros Hb HQ. induction l as [|x l IH]; simpl.
  - apply behaves_ret; auto.
  - apply behaves_bind_any; auto. intros [|]; [apply behaves_ret; auto | exact IH].
Qed.

(** ** Stages *)

Lemma behaves_run_stage {A} (Q : A -> Prop) p name (fn : M A) uc (d : A) pr :
  pe (RunStage name uc pr) ->
  (forall o, pe (Outcome name o)) ->
  (forall e, px e -> pe (StageFailure name e)) ->
  behaves pe Q px fn -> Q d ->
  behaves pe Q px (run_stage w p name fn uc d pr).
Proof.
  intros Hr Ho Hf Hfn Hd. unfold run_stage.
  apply behaves_bind_any; [apply behaves_emit; auto|]. intros _.
  apply behaves_bind_any; [apply behaves_get_trace; auto|]. intros tr.
  destruct (match pr with Some q => negb (stage_ran tr q) | None => false end).
  { apply behaves_bind_any; [apply behaves_emit; auto|]. intros _.
    apply behaves_ret; auto. }
  destruct (uc && negb (chance w name (int_hash w (ex_scene_seed p) name))).
  { apply behaves_bind_any; [apply behaves_emit; auto|]. intros _.
    apply behaves_ret; auto. }
  intros st.
  destruct (Hfn (mkSt (trace st) (int_hash w (ex_scene_seed p) name)))
    as [[ad [Ht Hp]] Hout].
  destruct (fn _) as [st' [x|e]]; simpl in *.
  - split; [|exact Hout]. exists (ad ++ [Outcome name RAN]).
    rewrite Ht, app_assoc. split; [reflexivity|].
    apply Forall_app; auto.
  - destruct (default_on_failure w name); simpl.
    + split; [|exact Hd].
      exists (ad ++ [StageFailure name e; Outcome name FAILED_DEFAULTED]).
      rewrite Ht, app_assoc. split; [reflexivity|].
      apply Forall_app; auto.
    + split; [|exact Hout].
      exists (ad ++ [StageFailure name e]).
      rewrite Ht, app_assoc. split; [reflexivity|].
      apply Forall_app; auto.
Qed.

(** With no state to read, [pose_cameras] fails at once. *)
Lemma behaves_pose_cameras_none rooms :
  px (AttributeError "NoneType" "objs") ->
  behaves pe (fun r => r = None) px (pose_cameras w None rooms).
Proof.
  intros Hx. unfold pose_cameras.
  apply behaves_bind with (Q1 := fun _ => False); [|intros _ []].
  apply behaves_get_objs; [discriminate | auto].
Qed.

End Rules.

(** ** Walking a program *)

Ltac bside :=
  cbv beta;
  first [ exact I
        | reflexivity
        | discriminate
        | congruence
        | intros; cbv beta;
          first [exact I | reflexivity | discriminate | congruence | tauto] ].

Ltac bwalk :=
  cbv beta zeta;
  lazymatch goal with
  | |- behaves _ _ _ ?m =>
      lazymatch m with
      | bind (load_global "random") _ =>
          apply behaves_dead_global; [reflexivity | bside]
      | bind (bpy_getattr "contexScene") _ =>
          apply behaves_dead_bpy; [reflexivity | bside | bside]
      | bind (run_stage _ _ "pose_cameras" (pose_cameras _ ?state _) _ _ _) _ =>
          destruct state;
          [ apply behaves_bind_any; [bwalk | intros; bwalk]
          | apply behaves_bind with (Q1 := fun r => r = None);
            [ apply behaves_run_stage;
              [ bside | bside | bside
              | apply behaves_pose_cameras_none; bside | reflexivity ]
            | intros ? ->; bwalk ] ]
      | bind (run_stage _ _ _ _ _ (Some _) _) _ =>
          apply behaves_bind with (Q1 := fun x => x <> None);
          [ bwalk | let x := fresh "x" in let Hx := fresh "Hx" in
                    intros x Hx; destruct x; [bwalk | congruence] ]
      | bind _ _ =>
          apply behaves_bind_any; [bwalk | intros; bwalk]
      | ret _ => apply behaves_ret; bside
      | raise _ => apply behaves_raise; bside
      | get_trace => apply behaves_get_trace; bside
      | emit _ => apply behaves_emit; bside
      | ext _ _ => apply behaves_ext; bside
      | load_global _ => apply behaves_load_global; bside
      | bpy_getattr _ => apply behaves_bpy_getattr; bside
      | subscript _ _ _ => apply behaves_subscript; bside
      | get_objs _ _ => apply behaves_get_objs; bside
      | get_parents _ (Some _) _ => apply behaves_get_parents; bside
      | get_parents _ None _ => unfold get_parents; bwalk
      | np_random_choice _ _ _ => apply behaves_np_random_choice; bside
      | for_each _ _ => apply behaves_for_each; [intros; bwalk | bside]
      | for_enumerate _ _ _ =>
          apply behaves_for_enumerate; [intros; bwalk | bside]
      | list_comp _ _ => apply behaves_list_comp; [intros; bwalk | bside]
      | list_comp_if _ _ =>
          apply behaves_list_comp_if; [intros; bwalk | bside]
      | for_break _ _ => apply behaves_for_break; [intros; bwalk | bside]
      | run_stage _ _ _ _ _ _ _ =>
          apply behaves_run_stage; [bside | bside | bside | bwalk | bside]
      | if ?c then _ else _ => destruct c eqn:?; bwalk
      | match ?x with _ => _ end => destruct x; bwalk
      | _ =>
          progress unfold call, iterate_assignments, get_solver_state,
            add_coarse_terrain, solve_rooms, solve_large, solve_medium,
            solve_small, add_bottle_to_scene, pose_cameras,
            select_object_to_follow, animate_cameras, set_visibility_mode,
            turn_off_lights, invisible_room_ceilings, topview_branch;
          bwalk
      end
  end.

Lemma compose_indoors_exceptions (w : World) (a : Args) :
  behaves (fun _ => True) (fun _ => True) (fun e => exn_class e = true)
    (compose_indoors w a).
Proof.
  unfold compose_indoors. bwalk.
Qed.

Lemma compose_indoors_no_bottle (w : World) (a : Args) :
  behaves (fun ev => bottle_event ev = false) (fun _ => True) (fun _ => True)
    (compose_indoors w a).
Proof.
  unfold compose_indoors. bwalk.
Qed.

Lemma compose_indoors_restriction (w : World) (a : Args) :
  behaves (fun ev => restriction_event ev = true ->
                     truthy (dict_get (overrides a)
                               "restrict_single_supported_roomtype"
                               (VBool false)) = true)
    (fun _ => True) (fun _ => True)
    (compose_indoors w a).
Proof.
  unfold compose_indoors. bwalk.
Qed.

(** What [behaves] says of a run. *)
Lemma behaves_run (w : World) (a : Args) (g : Rng) pe Q px :
  behaves pe Q px (compose_indoors w a) ->
  (forall ev, In ev (run_trace w a g) -> pe ev)
  /\ match run_result w a g with
     | Ok x => Q x
     | Raise e => px e
     end.
Proof.
  intros H. destruct (H (mkSt [] g)) as [[added [Ht Hp]] Ho].
  split; [|exact Ho].
  unfold run_trace, run. rewrite Ht. simpl.
  apply Forall_forall. exact Hp.
Qed.

End BehaviourFacts.

(* ===================================================================== *)
(** * The closures of the driver                                          *)
(* ===================================================================== *)

Module ClosureFacts.
Import Driver TraceSpec Behaviour BehaviourFacts.

Lemma St_eta (st : St) : mkSt (trace st) (np_global st) = st.
Proof. destruct st; reflexivity. Qed.

(** A loop whose body only appends events. *)
Lemma for_each_emits {A} (l : list A) (body : A -> M unit)
      (evs : A -> list Event) :
  (forall x st, body x st = (mkSt (trace st ++ evs x) (np_global st), Ok tt)) ->
  forall st, for_each l body st
             = (mkSt (trace st ++ flat_map evs l) (np_global st), Ok tt).
Proof.
  intros Hb. induction l as [|x l IH]; intros st; simpl.
  - rewrite app_nil_r, St_eta. reflexivity.
  - unfold bind. rewrite Hb, IH. cbn [trace np_global].
    rewrite <- app_assoc. reflexivity.
Qed.

(** ** [set_visibility_mode] *)

Lemma bpy_getattr_data (st : St) :
  bpy_getattr "data" st
  = (mkSt (trace st ++ [GetAttr "bpy" "data"]) (np_global st), Ok "bpy.data").
Proof. reflexivity. Qed.

Lemma set_visibility_mode_run (w : World) bottle mode (st : St) :
  let bottle_hidden :=
    negb (String.eqb mode "BOTTLE_ONLY") && negb (String.eqb mode "FULL") in
  let mesh_hidden := String.eqb mode "BOTTLE_ONLY" in
  let pre :=
    match bottle with
    | Some b => hide_writes (bpy_name b) bottle_hidden
    | None => []
    end ++ [GetAttr "bpy" "data"] in
  let objs := bpy_data_objects w (trace st ++ pre) in
  set_visibility_mode w bottle mode st
  = (mkSt (trace st ++ pre
             ++ flat_map (fun o => if other_mesh bottle o
                                   then hide_writes (bpy_name o) mesh_hidden
                                   else []) objs)
          (np_global st), Ok tt).
Proof.
  intros bh mh pre objs. unfold set_visibility_mode.
  unfold bind at 1.
  assert (H1 : (match bottle with
                | Some b =>
                    emit (SetAttr (bpy_name b) "hide_render" (VBool bh)) ;;
                    emit (SetAttr (bpy_name b) "hide_viewport" (VBool bh))
                | None => ret tt
                end) st
               = (mkSt (trace st ++ match bottle with
                                    | Some b => hide_writes (bpy_name b) bh
                                    | None => []
                                    end) (np_global st), Ok tt)).
  { destruct bottle as [b|]; simpl.
    - unfold bind, emit. cbn [trace np_global]. rewrite <- app_assoc. reflexivity.
    - unfold ret. rewrite app_nil_r, St_eta. reflexivity. }
  fold bh. rewrite H1.
  unfold bind at 1. rewrite bpy_getattr_data. cbn [trace np_global].
  unfold bind at 1. unfold get_trace. cbn [trace np_global].
  rewrite <- app_assoc. fold pre. fold objs.
  rewrite (for_each_emits objs _
             (fun o => if other_mesh bottle o
                       then hide_writes (bpy_name o) mh else [])).
  - cbn [trace np_global]. rewrite <- app_assoc. reflexivity.
  - intros o st0. unfold other_mesh.
    destruct ((match bottle with Some b => negb (bpy_eqb o b) | None => true end)
              && String.eqb (bpy_type o) "MESH").
    + unfold bind, emit. cbn [trace np_global]. rewrite <- app_assoc. reflexivity.
    + unfold ret. rewrite app_nil_r, St_eta. reflexivity.
Qed.

(** X6.  [set_visibility_mode] never fails and leaves the generator alone.
    It sets [hide_render] and [hide_viewport] of the bottle, when there is
    one, to [mode != 'BOTTLE_ONLY' and mode != 'FULL'], reads
    [bpy.data.objects], and sets both attributes of every object that is a
    mesh and not the bottle to [mode == 'BOTTLE_ONLY'], in order.  So mode
    FULL hides nothing, a mode that is neither BOTTLE_ONLY nor FULL behaves
    as ROOM_ONLY, and an object that is no mesh (a light, a camera) is never
    touched, whatever the mode. *)
Theorem set_visibility_mode_effect (w : World) bottle mode (st : St) :
  let bottle_hidden :=
    negb (String.eqb mode "BOTTLE_ONLY") && negb (String.eqb mode "FULL") in
  let mesh_hidden := String.eqb mode "BOTTLE_ONLY" in
  let pre :=
    match bottle with
    | Some b => hide_writes (bpy_name b) bottle_hidden
    | None => []
    end ++ [GetAttr "bpy" "data"] in
  let objs := bpy_data_objects w (trace st ++ pre) in
  let added :=
    pre ++ flat_map (fun o => if other_mesh bottle o
                              then hide_writes (bpy_name o) mesh_hidden
                              else []) objs in
  set_visibility_mode w bottle mode st
    = (mkSt (trace st ++ added) (np_global st), Ok tt)
  /\ (mode = "FULL" ->
      forall n attr v, In (SetAttr n attr v) added -> v = VBool false)
  /\ (mode <> "BOTTLE_ONLY" -> mode <> "FULL" ->
      set_visibility_mode w bottle mode st
      = set_visibility_mode w bottle "ROOM_ONLY" st)
  /\ (forall o, In o objs -> bpy_type o <> "MESH" ->
      (forall o', In o' objs -> bpy_name o' = bpy_name o -> o' = o) ->
      (forall b, bottle = Some b -> bpy_name b <> bpy_name o) ->
      forall attr v, ~ In (SetAttr (bpy_name o) attr v) added).
Proof.
  intros bh mh pre objs added.
  split; [apply set_visibility_mode_run|]. split; [|split].
  - intros -> n attr v Hin. unfold added, pre in Hin.
    apply in_app_or in Hin. destruct Hin as [Hin|Hin].
    + apply in_app_or in Hin. destruct Hin as [Hin|Hin].
      * destruct bottle as [b|]; [|destruct Hin].
        simpl in Hin. destruct Hin as [H|[H|[]]]; inversion H; reflexivity.
      * destruct Hin as [H|[]]. discriminate H.
    + apply in_flat_map in Hin. destruct Hin as [o [_ Hin]].
      destruct (other_mesh bottle o); [|destruct Hin].
      simpl in Hin. destruct Hin as [H|[H|[]]]; inversion H; reflexivity.
  - intros Hb Hf. rewrite !set_visibility_mode_run.
    apply String.eqb_neq in Hb, Hf. rewrite Hb, Hf. reflexivity.
  - intros o Hin Hty Huniq Hbot attr v Hev. unfold added, pre in Hev.
    apply in_app_or in Hev. destruct Hev as [Hev|Hev].
    + apply in_app_or in Hev. destruct Hev as [Hev|Hev].
      * destruct bottle as [b|]; [|destruct Hev].
        simpl in Hev. destruct Hev as [H|[H|[]]]; inversion H;
          eapply Hbot; eauto.
      * destruct Hev as [H|[]]. discriminate H.
    + apply in_flat_map in Hev. destruct Hev as [o' [Hin' Hev]].
      destruct (other_mesh bottle o') eqn:E; [|destruct Hev].
      assert (Hn : bpy_name o' = bpy_name o).
      { simpl in Hev. destruct Hev as [H|[H|[]]]; inversion H; reflexivity. }
      rewrite (Huniq o' Hin' Hn) in E. unfold other_mesh in E.
      apply andb_true_iff in E. destruct E as [_ E].
      apply String.eqb_eq in E. contradiction.
Qed.

(** ** [turn_off_lights] *)

Lemma ext_run (w : World) (ev : Event) (st : St) :
  ext w ev st
  = (mkSt (trace st ++ [ev]) (rng_step w (trace st) ev (np_global st)),
     if raises w (trace st) ev
     then Raise (CollaboratorError (callee_of ev))
     else Ok tt).
Proof. unfold ext. destruct (raises w (trace st) ev); reflexivity. Qed.

(** A loop that calls a collaborator for the elements [sel] accepts stops
    at the first call that fails. *)
Lemma for_each_calls {A} (w : World) (l : list A) (sel : A -> bool)
      (ev : Event) (st : St) :
  exists k,
    k <= List.length (filter sel l)
    /\ trace (fst (for_each l (fun x => if sel x then ext w ev else ret tt) st))
       = trace st ++ repeat ev k
    /\ ((snd (for_each l (fun x => if sel x then ext w ev else ret tt) st)
           = Ok tt /\ k = List.length (filter sel l))
        \/ (snd (for_each l (fun x => if sel x then ext w ev else ret tt) st)
             = Raise (CollaboratorError (callee_of ev)) /\ 1 <= k)).
Proof.
  revert st. induction l as [|x l IH]; intros st; simpl.
  - exists 0. simpl. rewrite app_nil_r. auto.
  - unfold bind. destruct (sel x) eqn:E.
    + rewrite ext_run. destruct (raises w (trace st) ev) eqn:R.
      * exists 1. simpl. split; [lia|]. split; [reflexivity|]. right. auto.
      * destruct (IH (mkSt (trace st ++ [ev])
                           (rng_step w (trace st) ev (np_global st))))
          as [k [Hk [Ht Hr]]].
        exists (S k). simpl. split; [lia|]. split.
        { rewrite Ht. cbn [trace]. rewrite <- app_assoc. reflexivity. }
        destruct Hr as [[Hr ->] | [Hr Hk1]]; [left | right]; split; auto; lia.
    + unfold ret at 1. destruct (IH st) as [k [Hk [Ht Hr]]].
      exists k. auto.
Qed.

(** X7.  [turn_off_lights] reads [bpy.data.objects] and calls
    [butil.delete] once for every object that is a light and no portal, in
    order, stopping at the first deletion that fails; it does nothing else.
    It returns when every such light is deleted, and with none it deletes
    nothing. *)
Theorem turn_off_lights_effect (w : World) (st : St) :
  let tr0 := trace st ++ [GetAttr "bpy" "data"] in
  let lights := filter light_to_delete (bpy_data_objects w tr0) in
  exists k,
    k <= List.length lights
    /\ trace (fst (turn_off_lights w st))
       = tr0 ++ repeat (Call "butil.delete") k
    /\ ((snd (turn_off_lights w st) = Ok tt /\ k = List.length lights)
        \/ (snd (turn_off_lights w st)
             = Raise (CollaboratorError "butil.delete") /\ 1 <= k)).
Proof.
  intros tr0 lights. unfold turn_off_lights.
  unfold bind at 1. rewrite bpy_getattr_data.
  unfold bind at 1. unfold get_trace. cbn [trace np_global]. fold tr0.
  destruct (for_each_calls w (bpy_data_objects w tr0) light_to_delete
              (Call "butil.delete") (mkSt tr0 (np_global st)))
    as [k [Hk [Ht Hr]]].
  exists k. split; [exact Hk|]. split; [exact Ht | exact Hr].
Qed.

(** ** The bottle *)

Lemma add_bottle_result (w : World) (state : option StateRef) (st : St) :
  add_bottle_to_scene w state st
  = (st, match state with
         | None => Raise (AttributeError "NoneType" "objs")
         | Some s =>
             if is_nil (filter is_surface
                          (map snd (state_objs w (trace st) s)))
             then Ok None
             else Raise (NameError "random")
         end).
Proof.
  destruct state as [s|]; [|reflexivity].
  unfold add_bottle_to_scene, get_objs, bind, get_trace, ret.
  destruct (filter is_surface (map snd (state_objs w (trace st) s)));
    reflexivity.
Qed.

(** The stage of the bottle yields no bottle. *)
Lemma add_bottle_stage_none (w : World) p state uc pr (st : St) x :
  snd (run_stage w p "add_bottle" (add_bottle_to_scene w state) uc None pr st)
    = Ok x -> x = None.
Proof.
  unfold run_stage, bind, emit, get_trace, ret. cbn [trace np_global].
  destruct (match pr with Some q => negb (stage_ran _ q) | None => false end);
    [simpl; congruence|].
  destruct (uc && negb (chance w "add_bottle" _)); [simpl; congruence|].
  rewrite add_bottle_result. cbn [trace].
  destruct state as [s|].
  - destruct (is_nil _); simpl; [congruence|].
    destruct (default_on_failure w "add_bottle"); simpl; congruence.
  - destruct (default_on_failure w "add_bottle"); simpl; congruence.
Qed.

Lemma select_with_bottle (w : World) (a : Args) state b nonroom st :
  focus_on_bottle a = true ->
  select_object_to_follow w a state (Some b) nonroom st = (st, Ok (Some b)).
Proof.
  intros Hf. unfold select_object_to_follow. rewrite Hf. reflexivity.
Qed.

Lemma select_fallback (w : World) (a : Args) s bottle nonroom st :
  focus_on_bottle a && is_some bottle = false ->
  select_object_to_follow w a (Some s) bottle nonroom st
  = (st, if existsb small nonroom
         then Raise (NameError "random")
         else Ok None).
Proof.
  intros Hf. unfold select_object_to_follow.
  replace (focus_on_bottle a && match bottle with Some _ => true | None => false end)
    with false by (destruct bottle; exact (eq_sym Hf)).
  unfold bind at 1.
  rewrite (DriverFacts.list_comp_if_pure nonroom _
             (fun st o => if Qlt_bool (dimensions_length o) 1
                          then existsb (fun parent =>
                                          tag_in (Sub SupportSurface) (obj_tags parent))
                                       (state_parents w (trace st) s o)
                          else false)).
  2:{ intros x st0. destruct (Qlt_bool (dimensions_length x) 1); reflexivity. }
  set (first := filter _ nonroom).
  assert (Hsub : forall o, In o first -> In o (filter small nonroom)).
  { intros o Ho. apply filter_In in Ho. destruct Ho as [Hin Ho].
    apply filter_In. split; [exact Hin|]. unfold small.
    destruct (Qlt_bool (dimensions_length o) 1); [reflexivity | discriminate Ho]. }
  assert (Hex : existsb small nonroom = negb (is_nil (filter small nonroom))).
  { clear. induction nonroom as [|o l IH]; simpl; [reflexivity|].
    destruct (small o); simpl; [reflexivity | exact IH]. }
  rewrite Hex. cbv zeta.
  change (filter (fun o => Qlt_bool (dimensions_length o) 1) nonroom)
    with (filter small nonroom).
  destruct first as [|x first'] eqn:E; cbn [is_nil].
  - destruct (filter small nonroom); reflexivity.
  - assert (Hx : In x (filter small nonroom)) by (apply Hsub; left; reflexivity).
    destruct (filter small nonroom); [destruct Hx | reflexivity].
Qed.


(** ** [focus_on_bottle] *)

Lemma bind_cong {A B} (m : M A) (f g : A -> M B) (st : St) :
  (forall x st', f x st' = g x st') -> bind m f st = bind m g st.
Proof.
  intros H. unfold bind. destruct (m st) as [st' [x|e]]; [apply H | reflexivity].
Qed.

Lemma bind_bottle_cong {B} (w : World) p state
      (f g : option BpyObject -> M B) (st : St) :
  (forall st', f None st' = g None st') ->
  bind (run_stage w p "add_bottle" (add_bottle_to_scene w state)
          false None None) f st
  = bind (run_stage w p "add_bottle" (add_bottle_to_scene w state)
            false None None) g st.
Proof.
  intros H. unfold bind.
  destruct (run_stage w p "add_bottle" (add_bottle_to_scene w state)
              false None None st) as [st' [x|e]] eqn:E; [|reflexivity].
  assert (x = None).
  { eapply add_bottle_stage_none. rewrite E. reflexivity. }
  subst x. apply H.
Qed.

Lemma select_without_bottle (w : World) (a : Args) state nonroom :
  select_object_to_follow w a state None nonroom
  = select_object_to_follow w (with_focus_on_bottle false a) state None nonroom.
Proof.
  unfold select_object_to_follow, with_focus_on_bottle.
  cbn [focus_on_bottle]. rewrite andb_false_r. reflexivity.
Qed.

Ltac cong_step :=
  cbv beta zeta;
  lazymatch goal with
  | |- bind (run_stage _ _ "add_bottle" _ _ _ _) _ _ = _ =>
      apply bind_bottle_cong; intros
  | |- bind (select_object_to_follow _ _ _ _ _) _ _ = _ => fail
  | |- bind _ _ _ = bind _ _ _ => apply bind_cong; intros
  | |- match ?x with _ => _ end _ = _ => destruct x
  end.

(** X5.  [focus_on_bottle] has no effect: the stage of the bottle yields no
    bottle, so [focus_on_bottle and bottle] is false whatever the argument,
    and runs that differ only in [focus_on_bottle] are equal in trace,
    generator and result. *)
Theorem focus_on_bottle_no_effect (w : World) (a : Args) (g : Rng) b1 b2 :
  run w (with_focus_on_bottle b1 a) g = run w (with_focus_on_bottle b2 a) g.
Proof.
  unfold run. generalize (mkSt [] g). intros st.
  unfold compose_indoors.
  repeat cong_step; try reflexivity.
  rewrite (select_without_bottle w (with_focus_on_bottle b1 a)).
  rewrite (select_without_bottle w (with_focus_on_bottle b2 a)).
  reflexivity.
Qed.

Lemma solve_calls_length d n name abort i l :
  List.length (solve_calls d n name abort i l) = List.length l.
Proof.
  revert i. induction l as [|x l IH]; intros i; simpl; [reflexivity|].
  rewrite IH. reflexivity.
Qed.

(** The loop of a solving stage. *)
Lemma solve_loop (w : World) d n name abort
      (body : nat -> Assignment -> M unit) :
  (forall i vars st,
     body i vars st = ext w (SolveObjects d vars n (desc_of name i) abort) st) ->
  forall l i st,
  exists k,
    k <= List.length l
    /\ trace (fst (for_enumerate i l body st))
       = trace st ++ firstn k (solve_calls d n name abort i l)
    /\ ((snd (for_enumerate i l body st) = Ok tt /\ k = List.length l)
        \/ (snd (for_enumerate i l body st)
            = Raise (CollaboratorError "solver.solve_objects") /\ 1 <= k
            /\ exists pre ev,
                 trace (fst (for_enumerate i l body st)) = pre ++ [ev]
                 /\ raises w pre ev = true
                 /\ callee_of ev = "solver.solve_objects")).
Proof.
  intros Hb l. induction l as [|vars l IH]; intros i st; simpl.
  - exists 0. simpl. rewrite app_nil_r. auto.
  - unfold bind. rewrite Hb, ext_run.
    destruct (raises w (trace st) _) eqn:R.
    + exists 1. simpl. split; [lia|]. split; [reflexivity|]. right.
      split; [reflexivity|]. split; [lia|].
      exists (trace st), (SolveObjects d vars n (desc_of name i) abort). auto.
    + destruct (IH (S i)
                  (mkSt (trace st ++ [SolveObjects d vars n (desc_of name i) abort])
                        (rng_step w (trace st)
                           (SolveObjects d vars n (desc_of name i) abort)
                           (np_global st))))
        as [k [Hk [Ht Hr]]].
      exists (S k). simpl. split; [lia|]. split.
      { rewrite Ht. cbn [trace]. rewrite <- app_assoc. reflexivity. }
      destruct Hr as [[Hr ->] | [Hr [Hk1 Hex]]]; [left | right]; split; auto.
Qed.

Lemma solve_large_eq (w : World) (a : Args) stages state (st : St) d :
  lookup "on_floor" stages = Some d ->
  raises w (trace st) (IterateAssignments d all_vars true) = false ->
  let ev0 := IterateAssignments d all_vars true in
  let st0 := mkSt (trace st ++ [ev0]) (rng_step w (trace st) ev0 (np_global st)) in
  solve_large w a stages state st
  = bind (for_enumerate 0 (assignments w (trace st0) d all_vars true)
            (fun i vars =>
               d <- subscript "stages" stages "on_floor" ;;
               n_steps <- subscript "overrides" (overrides a)
                            "solve_steps_large" ;;
               ext w (SolveObjects d vars n_steps (desc_of "on_floor" i)
                        (Some (dict_get (overrides a) "abort_unsatisfied_large"
                                 (VBool false))))))
         (fun _ => get_solver_state w) st0.
Proof.
  intros Hd Hr ev0 st0. unfold solve_large.
  unfold bind at 1. unfold subscript at 1. rewrite Hd. unfold ret at 1.
  unfold bind at 1. unfold iterate_assignments.
  unfold bind at 1. rewrite ext_run, Hr.
  unfold bind at 1. unfold get_trace, ret. reflexivity.
Qed.

(** X8.  [solve_large], with the on_floor stage in the catalog and the
    step budget in the overrides, and when [greedy.iterate_assignments]
    does not fail: it asks for the assignments of on_floor once, then calls
    [solver.solve_objects] once for each assignment, in the order they were
    yielded, with [desc] on_floor_0, on_floor_1, ..., the step budget and
    the abort flag of the overrides; it stops at the first call that fails,
    and returns [solver.state] when all are made. *)
Theorem solve_large_calls (w : World) (a : Args) stages state (st : St) d n :
  lookup "on_floor" stages = Some d ->
  lookup "solve_steps_large" (overrides a) = Some n ->
  raises w (trace st) (IterateAssignments d all_vars true) = false ->
  let tr0 := trace st ++ [IterateAssignments d all_vars true] in
  let asg := assignments w tr0 d all_vars true in
  let calls :=
    solve_calls d n "on_floor"
      (Some (dict_get (overrides a) "abort_unsatisfied_large" (VBool false)))
      0 asg in
  let r := solve_large w a stages state st in
  exists k,
    k <= List.length asg
    /\ trace (fst r) = tr0 ++ firstn k calls
    /\ ((snd r = Ok (Some (solver_state w (tr0 ++ calls)))
         /\ k = List.length asg)
        \/ (snd r = Raise (CollaboratorError "solver.solve_objects")
            /\ 1 <= k)).
Proof.
  intros Hd Hn Hr tr0 asg calls r. unfold r.
  rewrite (solve_large_eq w a stages state st d Hd Hr). cbn [trace].
  fold tr0. fold asg.
  set (st0 := mkSt tr0 _).
  set (body := fun (i : nat) (vars : Assignment) => _).
  assert (Hb : forall i vars st1,
             body i vars st1
             = ext w (SolveObjects d vars n (desc_of "on_floor" i)
                        (Some (dict_get (overrides a) "abort_unsatisfied_large"
                                 (VBool false)))) st1).
  { intros i vars st1. unfold body, bind, subscript. rewrite Hd, Hn.
    reflexivity. }
  destruct (solve_loop w d n "on_floor" _ body Hb asg 0 st0)
    as [k [Hk [Ht Hres]]].
  exists k. split; [exact Hk|].
  unfold bind. fold calls in Ht.
  destruct (for_enumerate 0 asg body st0) as [st1 [[]|e]] eqn:E;
    cbn [fst snd] in *.
  - destruct Hres as [[_ ->] | [Hres _]]; [|discriminate Hres].
    unfold get_solver_state, bind, get_trace, ret. cbn [fst snd trace].
    split; [exact Ht|]. left. split; [|reflexivity].
    rewrite Ht. unfold calls at 1.
    rewrite <- (solve_calls_length d n "on_floor"
                  (Some (dict_get (overrides a) "abort_unsatisfied_large"
                           (VBool false))) 0 asg).
    rewrite firstn_all. reflexivity.
  - split; [exact Ht|]. destruct Hres as [[Hres _] | [Hres [Hk1 _]]];
      [discriminate Hres|]. right. inversion Hres. split; auto.
Qed.

(** One stage of the medium or the small solve, followed by [K]: the
    stage is completed and [K] takes over, or a collaborator fails in it. *)
Lemma phase_run {B} (w : World) stages state name d n (K : unit -> M B)
      (st st' : St) (r : Res B) :
  lookup name stages = Some d ->
  bind (subscript "stages" stages name) (fun d0 =>
  bind (iterate_assignments w d0 state all_vars false) (fun asg =>
  bind (for_enumerate 0 asg (fun i vars =>
          bind (subscript "stages" stages name) (fun d1 =>
          ext w (SolveObjects d1 vars n (desc_of name i) None))))
       K)) st = (st', r) ->
  let e := phase_events w (trace st) d n name in
  (exists g', K tt (mkSt (trace st ++ e) g') = (st', r))
  \/ (exists k pre ev,
        1 <= k
        /\ trace st' = trace st ++ firstn k e
        /\ trace st' = pre ++ [ev]
        /\ raises w pre ev = true
        /\ r = Raise (CollaboratorError (callee_of ev))).
Proof.
  intros Hd H e. unfold e, phase_events.
  set (ev0 := IterateAssignments d all_vars false).
  unfold bind at 1 in H. unfold subscript at 1 in H. rewrite Hd in H.
  unfold ret at 1 in H.
  unfold bind at 1 in H. unfold iterate_assignments in H.
  unfold bind at 1 in H. rewrite ext_run in H. fold ev0 in H.
  destruct (raises w (trace st) ev0) eqn:R.
  { inversion H; subst st' r. right. exists 1, (trace st), ev0.
    cbn [fst snd trace firstn]. repeat split; auto. }
  unfold bind at 1 in H. unfold get_trace, ret in H. cbn [trace np_global] in H.
  set (st0 := mkSt (trace st ++ [ev0]) _) in H.
  set (asg := assignments w (trace st ++ [ev0]) d all_vars false) in *.
  set (body := fun (i : nat) (vars : Assignment) => _) in H.
  assert (Hb : forall i vars st1,
             body i vars st1
             = ext w (SolveObjects d vars n (desc_of name i) None) st1).
  { intros i vars st1. unfold body, bind, subscript. rewrite Hd.
    reflexivity. }
  destruct (solve_loop w d n name None body Hb asg 0 st0)
    as [k [Hk [Ht Hres]]].
  unfold bind at 1 in H.
  destruct (for_enumerate 0 asg body st0) as [st1 [[]|x]] eqn:E;
    cbn [fst snd] in *.
  - destruct Hres as [[_ ->] | [Hres _]]; [|discriminate Hres].
    left. exists (np_global st1). rewrite <- H. f_equal.
    rewrite <- (solve_calls_length d n name None 0 asg) in Ht.
    rewrite firstn_all in Ht. unfold st0 in Ht. cbn [trace] in Ht.
    rewrite <- app_assoc in Ht. simpl in Ht. rewrite <- Ht.
    destruct st1; reflexivity.
  - destruct Hres as [[Hres _] | [Hres [Hk1 [pre [ev [Hp [Hr Hc]]]]]]];
      [discriminate Hres|].
    inversion H; subst st' r.
    right. exists (S k), pre, ev. split; [lia|].
    split; [|split; [exact Hp|split; [exact Hr|]]].
    + rewrite Ht. unfold st0. cbn [trace]. rewrite <- app_assoc. reflexivity.
    + inversion Hres. rewrite Hc. reflexivity.
Qed.

(** Prefixes of a trace that is extended. *)
Lemma prefix_app {A} (pre l more : list A) k :
  exists k', pre ++ firstn k l = firstn k' ((pre ++ l) ++ more)
             /\ (1 <= k -> l <> [] -> List.length pre < k').
Proof.
  exists (List.length pre + Nat.min k (List.length l)). split.
  - rewrite <- app_assoc, firstn_app_2. f_equal.
    rewrite firstn_app.
    replace (Nat.min k (List.length l) - List.length l) with 0 by lia.
    rewrite firstn_O, app_nil_r.
    destruct (Nat.le_gt_cases k (List.length l)).
    + rewrite Nat.min_l by lia. reflexivity.
    + rewrite Nat.min_r by lia. rewrite !firstn_all2 by lia. reflexivity.
  - intros Hk Hl. destruct l; [congruence | simpl; lia].
Qed.

Lemma phase_events_nonempty w tr d n name : phase_events w tr d n name <> [].
Proof. unfold phase_events. discriminate. Qed.

Lemma solve_medium_run (w : World) (a : Args) stages state
      (st st' : St) r dw dc ds n :
  lookup "solve_steps_medium" (overrides a) = Some n ->
  lookup "on_wall" stages = Some dw ->
  lookup "on_ceiling" stages = Some dc ->
  lookup "side_obj" stages = Some ds ->
  solve_medium w a stages state st = (st', r) ->
  let t1 := trace st ++ phase_events w (trace st) dw n "on_wall" in
  let t2 := t1 ++ phase_events w t1 dc n "on_ceiling" in
  let t3 := t2 ++ phase_events w t2 ds n "side_obj" in
  (trace st' = t3 /\ r = Ok (Some (solver_state w t3)))
  \/ (exists k pre ev,
        List.length (trace st) < k
        /\ trace st' = firstn k t3
        /\ trace st' = pre ++ [ev]
        /\ raises w pre ev = true
        /\ r = Raise (CollaboratorError (callee_of ev))).
Proof.
  intros Hn Hw Hc Hs H t1 t2 t3.
  unfold solve_medium in H.
  unfold bind at 1 in H. unfold subscript at 1 in H. rewrite Hn in H.
  unfold ret at 1 in H.
  apply (phase_run w stages state "on_wall" dw n) in H; [|exact Hw].
  destruct H as [[g1 H] | [k [pre [ev [Hk [Ht [Hp [Hr He]]]]]]]].
  2:{ right.
      destruct (prefix_app (trace st) (phase_events w (trace st) dw n "on_wall")
                  (phase_events w t1 dc n "on_ceiling"
                   ++ phase_events w t2 ds n "side_obj") k)
        as [k' [Hk' Hlt]].
      exists k', pre, ev. split; [apply Hlt; [exact Hk | apply phase_events_nonempty]|].
      split; [|auto]. rewrite Ht, Hk'. unfold t3, t2, t1.
      rewrite <- !app_assoc. reflexivity. }
  fold t1 in H.
  apply (phase_run w stages state "on_ceiling" dc n) in H; [|exact Hc].
  cbn [trace] in H.
  destruct H as [[g2 H] | [k [pre [ev [Hk [Ht [Hp [Hr He]]]]]]]].
  2:{ right.
      destruct (prefix_app t1 (phase_events w t1 dc n "on_ceiling")
                  (phase_events w t2 ds n "side_obj") k)
        as [k' [Hk' Hlt]].
      exists k', pre, ev.
      split.
      { specialize (Hlt Hk (phase_events_nonempty _ _ _ _ _)).
        unfold t1 in Hlt. rewrite length_app in Hlt. lia. }
      split; [|auto]. rewrite Ht, Hk'. reflexivity. }
  fold t2 in H.
  apply (phase_run w stages state "side_obj" ds n) in H; [|exact Hs].
  cbn [trace] in H.
  destruct H as [[g3 H] | [k [pre [ev [Hk [Ht [Hp [Hr He]]]]]]]].
  2:{ right.
      destruct (prefix_app t2 (phase_events w t2 ds n "side_obj") [] k)
        as [k' [Hk' Hlt]].
      exists k', pre, ev.
      split.
      { specialize (Hlt Hk (phase_events_nonempty _ _ _ _ _)).
        unfold t2, t1 in Hlt. rewrite !length_app in Hlt. lia. }
      split; [|auto]. rewrite Ht, Hk'. rewrite app_nil_r. reflexivity. }
  fold t3 in H. left.
  unfold get_solver_state, bind, get_trace, ret in H. cbn [trace] in H.
  inversion H. split; reflexivity.
Qed.

Lemma solve_small_run (w : World) (a : Args) stages state
      (st st' : St) r dt ds n :
  lookup "solve_steps_small" (overrides a) = Some n ->
  lookup "obj_ontop_obj" stages = Some dt ->
  lookup "obj_on_support" stages = Some ds ->
  solve_small w a stages state st = (st', r) ->
  let t1 := trace st ++ phase_events w (trace st) dt n "obj_ontop_obj" in
  let t2 := t1 ++ phase_events w t1 ds n "obj_on_support" in
  (trace st' = t2 /\ r = Ok (Some (solver_state w t2)))
  \/ (exists k pre ev,
        List.length (trace st) < k
        /\ trace st' = firstn k t2
        /\ trace st' = pre ++ [ev]
        /\ raises w pre ev = true
        /\ r = Raise (CollaboratorError (callee_of ev))).
Proof.
  intros Hn Ht0 Hs H t1 t2.
  unfold solve_small in H.
  unfold bind at 1 in H. unfold subscript at 1 in H. rewrite Hn in H.
  unfold ret at 1 in H.
  apply (phase_run w stages state "obj_ontop_obj" dt n) in H; [|exact Ht0].
  destruct H as [[g1 H] | [k [pre [ev [Hk [Ht [Hp [Hr He]]]]]]]].
  2:{ right.
      destruct (prefix_app (trace st)
                  (phase_events w (trace st) dt n "obj_ontop_obj")
                  (phase_events w t1 ds n "obj_on_support") k)
        as [k' [Hk' Hlt]].
      exists k', pre, ev. split; [apply Hlt; [exact Hk | apply phase_events_nonempty]|].
      split; [|auto]. rewrite Ht, Hk'. reflexivity. }
  fold t1 in H.
  apply (phase_run w stages state "obj_on_support" ds n) in H; [|exact Hs].
  cbn [trace] in H.
  destruct H as [[g2 H] | [k [pre [ev [Hk [Ht [Hp [Hr He]]]]]]]].
  2:{ right.
      destruct (prefix_app t1 (phase_events w t1 ds n "obj_on_support") [] k)
        as [k' [Hk' Hlt]].
      exists k', pre, ev.
      split.
      { specialize (Hlt Hk (phase_events_nonempty _ _ _ _ _)).
        unfold t1 in Hlt. rewrite length_app in Hlt. lia. }
      split; [|auto]. rewrite Ht, Hk'. rewrite app_nil_r. reflexivity. }
  fold t2 in H. left.
  unfold get_solver_state, bind, get_trace, ret in H. cbn [trace] in H.
  inversion H. split; reflexivity.
Qed.

(** X9.  [solve_medium], with its three stages in the catalog and the step
    budget in the overrides: it solves on_wall, then on_ceiling, then
    side_obj.  For each stage it asks for the assignments when the stage
    before is solved, and calls [solver.solve_objects] once for each, in
    order, numbered from 0, with the step budget read once at the start and
    no abort flag.  It returns [solver.state] when all calls are made; it
    stops before that only at a collaborator call that fails, with that
    collaborator's exception. *)
Theorem solve_medium_calls (w : World) (a : Args) stages state (st : St)
        dw dc ds n :
  lookup "solve_steps_medium" (overrides a) = Some n ->
  lookup "on_wall" stages = Some dw ->
  lookup "on_ceiling" stages = Some dc ->
  lookup "side_obj" stages = Some ds ->
  let r := solve_medium w a stages state st in
  let t1 := trace st ++ phase_events w (trace st) dw n "on_wall" in
  let t2 := t1 ++ phase_events w t1 dc n "on_ceiling" in
  let t3 := t2 ++ phase_events w t2 ds n "side_obj" in
  (trace (fst r) = t3 /\ snd r = Ok (Some (solver_state w t3)))
  \/ (exists k pre ev,
        List.length (trace st) < k
        /\ trace (fst r) = firstn k t3
        /\ trace (fst r) = pre ++ [ev]
        /\ raises w pre ev = true
        /\ snd r = Raise (CollaboratorError (callee_of ev))).
Proof.
  intros Hn Hw Hc Hs r. unfold r.
  destruct (solve_medium w a stages state st) as [st' res] eqn:E.
  exact (solve_medium_run w a stages state st st' res dw dc ds n
           Hn Hw Hc Hs E).
Qed.

(** X10.  [solve_small], likewise: obj_ontop_obj, then obj_on_support. *)
Theorem solve_small_calls (w : World) (a : Args) stages state (st : St)
        dt ds n :
  lookup "solve_steps_small" (overrides a) = Some n ->
  lookup "obj_ontop_obj" stages = Some dt ->
  lookup "obj_on_support" stages = Some ds ->
  let r := solve_small w a stages state st in
  let t1 := trace st ++ phase_events w (trace st) dt n "obj_ontop_obj" in
  let t2 := t1 ++ phase_events w t1 ds n "obj_on_support" in
  (trace (fst r) = t2 /\ snd r = Ok (Some (solver_state w t2)))
  \/ (exists k pre ev,
        List.length (trace st) < k
        /\ trace (fst r) = firstn k t2
        /\ trace (fst r) = pre ++ [ev]
        /\ raises w pre ev = true
        /\ snd r = Raise (CollaboratorError (callee_of ev))).
Proof.
  intros Hn Ht Hs r. unfold r.
  destruct (solve_small w a stages state st) as [st' res] eqn:E.
  exact (solve_small_run w a stages state st st' res dt ds n Hn Ht Hs E).
Qed.

(** ** Descriptions *)

Lemma to_uint_not_nil (n : nat) : Nat.to_uint n <> Decimal.Nil.
Proof.
  intros H. pose proof (DecimalNat.Unsigned.of_to n) as Hn.
  rewrite H in Hn. simpl in Hn. subst n. discriminate H.
Qed.

Lemma string_of_nat_inj (i j : nat) :
  NilZero.string_of_uint (Nat.to_uint i)
  = NilZero.string_of_uint (Nat.to_uint j) -> i = j.
Proof.
  intros H. apply (f_equal NilZero.uint_of_string) in H.
  rewrite !NilZero.usu in H by apply to_uint_not_nil.
  inversion H. apply DecimalNat.Unsigned.to_uint_inj. assumption.
Qed.

Lemma append_inj_r (s t1 t2 : string) :
  (s ++ t1 = s ++ t2)%string -> t1 = t2.
Proof.
  induction s as [|c s IH]; simpl; intros H; [exact H|].
  inversion H. auto.
Qed.

(** X11.  The [desc] of a [solve_objects] call tells the stage and the
    index of the assignment: two calls with the same [desc] are for the same
    stage and the same index. *)
Theorem solve_descriptions_distinct (s s' : string) (i j : nat) :
  In s object_stages -> In s' object_stages ->
  desc_of s i = desc_of s' j -> s = s' /\ i = j.
Proof.
  intros Hs Hs' H.
  assert (Hi : forall s0 i j, desc_of s0 i = desc_of s0 j -> i = j).
  { intros s0 i0 j0 H0. unfold desc_of in H0.
    apply append_inj_r in H0. apply append_inj_r in H0.
    apply string_of_nat_inj. exact H0. }
  assert (Hss : s = s').
  { unfold object_stages in Hs, Hs'. simpl in Hs, Hs'.
    unfold desc_of in H.
    repeat (destruct Hs as [<- | Hs]; [|]);
      try (destruct Hs);
      repeat (destruct Hs' as [<- | Hs']; [|]);
      try (destruct Hs');
      try reflexivity; simpl in H; discriminate H. }
  subst s'. split; [reflexivity | eapply Hi; eauto].
Qed.

End ClosureFacts.

(* ===================================================================== *)
(** * Whole runs                                                          *)
(* ===================================================================== *)

Module RunFacts.
Import Driver TraceSpec Behaviour BehaviourFacts.

Lemma stage_params_chance name uc pr :
  lookup name stage_params = Some (uc, pr) ->
  (uc = true <-> In name chance_stages)
  /\ (forall q, pr = Some q <-> In (name, q) prereq_stages).
Proof.
  unfold stage_params. cbn [lookup].
  repeat match goal with
         | |- context [string_dec name ?n] =>
             destruct (string_dec name n) as [->|?]
         end;
    intros H; try discriminate H; inversion H; subst; clear H;
    (split; [split; [intros H; try discriminate H; simpl; tauto
                    | intros H; simpl in H;
                      repeat (destruct H as [H|H]; [try discriminate H|]);
                      try reflexivity; try destruct H]
            | intros q; split;
              [ intros H; try discriminate H; inversion H; simpl; tauto
              | intros H; simpl in H;
                repeat (destruct H as [H|H]; [try discriminate H; inversion H|]);
                try reflexivity; try destruct H ]]).
Qed.

(** X1.  The stages of a run are handed to the executor as the source
    writes them.  Only skirting_floor, skirting_ceiling and lights_off keep
    the default [use_chance=True]; only animate_cameras (on pose_cameras)
    and nature_backdrop (on terrain) name a prerequisite.  No stage is
    handed over twice, only the three can be skipped by chance, and only the
    two for a prerequisite. *)
Theorem stages_as_written (w : World) (a : Args) (g : Rng) :
  let tr := run_trace w a g in
  (forall name uc pr, In (RunStage name uc pr) tr ->
      (uc = true <-> In name chance_stages)
      /\ (forall q, pr = Some q <-> In (name, q) prereq_stages))
  /\ (forall name, count (is_stage name) tr <= 1)
  /\ (forall name, In (Outcome name SKIPPED_CHANCE) tr ->
                   In name chance_stages)
  /\ (forall name, In (Outcome name SKIPPED_PREREQ) tr ->
                   exists q, In (name, q) prereq_stages).
Proof.
  intros tr. pose proof (DriverFacts.run_Shape w a g) as HS. fold tr in HS.
  split; [|split; [|split]].
  - intros name uc pr Hin. apply in_split in Hin.
    destruct Hin as [pre [post Htr]].
    destruct (DriverFacts.position w a _ _ _ _ HS Htr) as [_ [Hc _]].
    simpl in Hc. apply stage_params_chance. exact Hc.
  - intros name.
    apply (DriverFacts.unique_milestone w a (is_stage name) name tr
             (DriverFacts.is_stage_label name) HS).
  - intros name Hin. apply in_split in Hin.
    destruct Hin as [pre [post Htr]].
    destruct (DriverFacts.position w a _ _ _ _ HS Htr) as [_ [Hc _]].
    simpl in Hc. destruct Hc as [Hc _].
    destruct (Hc eq_refl) as [pr Hl].
    apply (stage_params_chance _ _ _ Hl). reflexivity.
  - intros name Hin. apply in_split in Hin.
    destruct Hin as [pre [post Htr]].
    destruct (DriverFacts.position w a _ _ _ _ HS Htr) as [_ [Hc _]].
    simpl in Hc. destruct Hc as [_ Hc].
    destruct (Hc eq_refl) as [uc [q Hl]].
    exists q. apply (stage_params_chance _ _ _ Hl). reflexivity.
Qed.


(** X2.  A run of [compose_indoors] returns, or ends with one of these
    exceptions: what a collaborator raised; [NameError] for [random];
    [AttributeError] for [bpy.contexScene], or for [objs] on a state that
    is [None]; [KeyError] for one of the three step budgets, for a stage or
    a room missing from a mapping a collaborator returned; [TypeError] for
    the unpacking of a defaulted [pose_cameras].  In particular no run
    fails at [state.get_parents] or [state.to_json]: the state is there
    once [pose_cameras] has returned. *)
Theorem run_exceptions (w : World) (a : Args) (g : Rng) :
  match run_result w a g with
  | Ok _ => True
  | Raise e => exn_class e = true
  end.
Proof.
  exact (proj2 (behaves_run w a g _ _ _ (compose_indoors_exceptions w a))).
Qed.

(** X3.  The bottle is never created.  [add_bottle_to_scene] changes
    nothing: it returns [None] when the state has no table and no surface,
    raises [NameError] at [random.choice] when it has one, and
    [AttributeError] when there is no state.  So the stage of the bottle
    yields [None] whenever it yields a value, and no run draws from
    [random], adds the cylinder, renames an object or writes to
    [state.objs]. *)
Theorem bottle_never_created (w : World) (a : Args) (g : Rng) :
  (forall state st,
      add_bottle_to_scene w state st
      = (st, match state with
             | None => Raise (AttributeError "NoneType" "objs")
             | Some s =>
                 if is_nil (filter is_surface
                              (map snd (state_objs w (trace st) s)))
                 then Ok None
                 else Raise (NameError "random")
             end))
  /\ (forall p state uc pr st x,
        snd (run_stage w p "add_bottle" (add_bottle_to_scene w state)
               uc None pr st) = Ok x -> x = None)
  /\ Forall (fun ev => bottle_event ev = false) (run_trace w a g).
Proof.
  split; [apply ClosureFacts.add_bottle_result|].
  split; [apply ClosureFacts.add_bottle_stage_none|].
  apply Forall_forall.
  exact (proj1 (behaves_run w a g _ _ _ (compose_indoors_no_bottle w a))).
Qed.

(** X12.  Without a true [restrict_single_supported_roomtype] in the
    overrides, no run draws from [np.random] or restricts the catalog. *)
Theorem restriction_only_on_request (w : World) (a : Args) (g : Rng) :
  truthy (dict_get (overrides a) "restrict_single_supported_roomtype"
            (VBool false)) = false ->
  Forall (fun ev => restriction_event ev = false) (run_trace w a g).
Proof.
  intros Hf. apply Forall_forall. intros ev Hin.
  pose proof (proj1 (behaves_run w a g _ _ _
                       (compose_indoors_restriction w a)) ev Hin) as H.
  cbv beta in H. destruct (restriction_event ev); [|reflexivity].
  rewrite (H eq_refl) in Hf. discriminate Hf.
Qed.

End RunFacts.

Module HappyPath.
Import Driver TraceSpec Behaviour BehaviourFacts ClosureFacts.

Section Quiet.

Variable w : World.
Variable a : Args.
Hypothesis U : Unhindered w a.

Local Abbreviation never := (fun _ : Exn => False).
Local Abbreviation any := (fun _ : Event => True).

Lemma quiet_ext (Q : unit -> Prop) (ev : Event) :
  Q tt -> behaves any Q never (ext w ev).
Proof.
  intros HQ st. rewrite ClosureFacts.ext_run, (no_failure U). simpl.
  split; [|exact HQ]. exists [ev]. auto.
Qed.

(** A stage that can neither be skipped nor fail returns what its function
    returns. *)
Lemma quiet_run_stage_sure {A} (Q : A -> Prop) p name (fn : M A) (d : A) :
  behaves any Q never fn ->
  behaves any Q never (run_stage w p name fn false d None).
Proof.
  intros Hfn st. unfold run_stage, bind, emit, get_trace, ret.
  cbn [trace np_global andb].
  destruct (Hfn (mkSt (trace st ++ [RunStage name false None])
                      (int_hash w (ex_scene_seed p) name)))
    as [[ad [Ht _]] Hout].
  destruct (fn _) as [st' [x|e]]; simpl in *; [|destruct Hout].
  split; [|exact Hout].
  exists ([RunStage name false None] ++ ad ++ [Outcome name RAN]).
  rewrite Ht, <- !app_assoc. split; [reflexivity|].
  apply Forall_forall. auto.
Qed.

Lemma catalog_has_stages :
  has_stages (default_greedy_stages (floortags w) (walltags w) (ceilingtags w)
                (side_tags w) (cu_on w) (cu_ontop w)).
Proof.
  intros k Hk. rewrite default_greedy_stages_eq.
  simpl in Hk.
  repeat (destruct Hk as [<-|Hk]; [discriminate|]). destruct Hk.
Qed.

Lemma quiet_add_bottle s :
  behaves any (fun _ => True) never (add_bottle_to_scene w (Some s)).
Proof.
  intros st. rewrite add_bottle_result, (no_surface U). simpl.
  split; [|exact I]. exists []. rewrite app_nil_r. auto.
Qed.

Lemma quiet_select s bottle nonroom :
  (forall o, In o nonroom -> small o = false) ->
  behaves any (fun _ => True) never
    (select_object_to_follow w a (Some s) bottle nonroom).
Proof.
  intros Hs st.
  assert (Hex : existsb small nonroom = false).
  { destruct (existsb small nonroom) eqn:E; [|reflexivity].
    apply existsb_exists in E. destruct E as [o [Hin Ho]].
    rewrite (Hs o Hin) in Ho. discriminate Ho. }
  destruct (focus_on_bottle a && is_some bottle) eqn:E.
  - apply andb_true_iff in E. destruct E as [Ef Eb].
    destruct bottle as [b|]; [|discriminate Eb].
    rewrite (select_with_bottle w a (Some s) b nonroom st Ef). simpl.
    split; [|exact I]. exists []. rewrite app_nil_r. auto.
  - rewrite (select_fallback w a s bottle nonroom st E), Hex. simpl.
    split; [|exact I]. exists []. rewrite app_nil_r. auto.
Qed.

Lemma quiet_solved_room s asg :
  (exists k, lookup "room" asg = Some k
             /\ forall tr' s', lookup k (state_objs w tr' s') <> None) ->
  behaves any (fun _ => True) never
    (objs <- get_objs w (Some s) ;;
     k <- subscript "assignment" asg "room" ;;
     spec <- subscript "state.objs" objs k ;;
     ret (obj spec)).
Proof.
  intros [k [Hk Hobj]].
  apply behaves_bind with (Q1 := fun objs => exists tr, objs = state_objs w tr s).
  { apply behaves_get_objs; [|discriminate].
    intros s0 tr H. inversion H; subst. eauto. }
  intros objs [tr ->].
  apply behaves_bind with (Q1 := fun k' => k' = k).
  { apply behaves_subscript; rewrite Hk; [|discriminate].
    intros v H. inversion H. reflexivity. }
  intros k' ->.
  apply behaves_bind_any.
  { apply behaves_subscript; [auto|]. intros Hn. eapply Hobj; eauto. }
  intros spec. apply behaves_ret. exact I.
Qed.

Lemma behaves_list_comp_in {A B} pe px (l : list A) (f : A -> M B) :
  (forall x, In x l -> behaves pe (fun _ => True) px (f x)) ->
  behaves pe (fun _ => True) px (list_comp l f).
Proof.
  intros Hb. induction l as [|x l IH]; simpl.
  - apply behaves_ret; auto.
  - apply behaves_bind_any; [apply Hb; left; reflexivity|]. intros y.
    apply behaves_bind_any; [apply IH; intros; apply Hb; right; auto|].
    intros ys. apply behaves_ret; auto.
Qed.

Lemma quiet_pose_cameras s rooms :
  behaves any (fun r => exists sp tr,
                          r = Some (sp, nonroom_objs (state_objs w tr s)))
    never (pose_cameras w (Some s) rooms).
Proof.
  unfold pose_cameras.
  apply behaves_bind with (Q1 := fun objs => exists tr, objs = state_objs w tr s).
  { apply behaves_get_objs; [|discriminate].
    intros s0 tr H. inversion H; subst. eauto. }
  intros objs [tr ->]. cbv zeta.
  apply behaves_bind_any.
  { unfold call. apply behaves_bind_any; [apply quiet_ext; exact I|].
    intros. apply behaves_ret. exact I. }
  intros sp. apply behaves_bind_any.
  { apply behaves_list_comp; [|auto]. intros x. unfold call.
    apply behaves_bind_any; [apply quiet_ext; exact I|].
    intros. apply behaves_ret. exact I. }
  intros faces. apply behaves_bind_any.
  { unfold call. apply behaves_bind_any; [apply quiet_ext; exact I|].
    intros. apply behaves_ret. exact I. }
  intros surface. apply behaves_bind_any; [apply quiet_ext; exact I|].
  intros _. apply behaves_ret. exists sp, tr. reflexivity.
Qed.

End Quiet.

Ltac qside U :=
  cbv beta;
  first [ exact I
        | discriminate
        | solve [ repeat first [ apply (greedy_keeps U)
                               | apply (restriction_keeps U) ];
                  apply catalog_has_stages ]
        | intros; cbv beta;
          first [exact I | reflexivity | discriminate | congruence] ].

Ltac subside U :=
  let Hn := fresh "Hn" in
  intros Hn;
  first [ solve [ eapply (budgets U); [|exact Hn]; simpl; tauto ]
        | match goal with
          | Hs : has_stages _ |- _ =>
              solve [ eapply Hs; [|exact Hn]; simpl; tauto ]
          end ].

Ltac qwalk U :=
  cbv beta iota zeta;
  lazymatch goal with
  | |- behaves _ _ _ ?m =>
      lazymatch m with
      | bind (if truthy (dict_get _ "restrict_single_supported_roomtype" _)
              then _ else _) _ =>
          apply behaves_bind with (Q1 := has_stages);
          [ qwalk U
          | let st := fresh "stages" in let H := fresh "Hst" in
            intros st H; qwalk U ]
      | bind (if truthy (dict_get _ "topview" _) then _ else _) _ =>
          rewrite (no_topview U); qwalk U
      | bind (run_stage _ _ "solve_rooms" _ _ _ _) _ =>
          apply behaves_bind with (Q1 := fun x => x <> None);
          [ apply quiet_run_stage_sure; qwalk U
          | let x := fresh "state" in let Hx := fresh "Hx" in
            intros x Hx; destruct x; [qwalk U | congruence] ]
      | bind (run_stage _ _ "add_bottle" _ _ _ _) _ =>
          apply behaves_bind_any;
          [ apply behaves_run_stage;
            [ exact I | intros; exact I | intros ? []
            | eapply quiet_add_bottle; exact U | exact I ]
          | intros; qwalk U ]
      | bind (run_stage _ _ "pose_cameras" (pose_cameras ?w0 (Some ?s) ?rooms)
                _ _ _) _ =>
          apply behaves_bind
            with (Q1 := fun r => exists sp tr,
                           r = Some (sp, nonroom_objs (state_objs w0 tr s)));
          [ apply quiet_run_stage_sure;
            eapply quiet_pose_cameras; exact U
          | let r := fresh "r" in let sp := fresh "sp" in
            let tr := fresh "tr" in
            intros r [sp [tr ->]]; qwalk U ]
      | bind (run_stage _ _ _ _ _ (Some _) _) _ =>
          apply behaves_bind with (Q1 := fun x => x <> None);
          [ apply behaves_run_stage;
            [ exact I | intros; exact I | intros ? [] | qwalk U | discriminate ]
          | let x := fresh "state" in let Hx := fresh "Hx" in
            intros x Hx; destruct x; [qwalk U | congruence] ]
      | bind (iterate_assignments ?w0 _ _ [ConstraintUtil.variable_room] false) _ =>
          apply behaves_bind
            with (Q1 := fun l => forall asg, In asg l ->
                          exists k, lookup "room" asg = Some k
                                    /\ forall tr' s',
                                         lookup k (state_objs w0 tr' s') <> None);
          [ unfold iterate_assignments;
            apply behaves_bind_any; [eapply quiet_ext; [exact U | exact I]|];
            intros; apply behaves_bind_any;
            [apply behaves_get_trace; intros; exact I|];
            let tr := fresh "tr" in
            intros tr; apply behaves_ret;
            let asg := fresh "asg" in let Hin := fresh "Hin" in
            intros asg Hin; exact (rooms_in_state U _ _ _ Hin)
          | let l := fresh "assigns" in let H := fresh "Hasg" in
            intros l H; qwalk U ]
      | bind (list_comp ?l (fun assignment => bind (get_objs _ _) _)) _ =>
          apply behaves_bind_any;
          [ apply behaves_list_comp_in;
            let asg := fresh "asg" in let Hin := fresh "Hin" in
            intros asg Hin; apply quiet_solved_room; auto
          | intros; qwalk U ]
      | bind (select_object_to_follow _ _ (Some _) _ _) _ =>
          apply behaves_bind_any;
          [ apply quiet_select;
            let o := fresh "o" in let Ho := fresh "Ho" in
            intros o Ho; exact (no_small_object U _ _ _ Ho)
          | intros; qwalk U ]
      | bind _ _ =>
          apply behaves_bind_any; [qwalk U | intros; qwalk U]
      | ret _ => apply behaves_ret; qside U
      | get_trace => apply behaves_get_trace; intros; exact I
      | emit _ => apply behaves_emit; [exact I | qside U]
      | ext _ _ => eapply quiet_ext; [exact U | qside U]
      | bpy_getattr _ =>
          apply behaves_bpy_getattr;
          [ exact I | intros; qside U
          | let H := fresh in intros H; vm_compute in H; discriminate H ]
      | subscript _ _ _ =>
          apply behaves_subscript; [intros; qside U | subside U]
      | get_objs _ (Some _) =>
          apply behaves_get_objs; [intros; qside U | discriminate]
      | np_random_choice _ _ _ =>
          apply behaves_np_random_choice; [intros; exact I | intros; qside U]
      | for_each _ _ => apply behaves_for_each; [intros; qwalk U | qside U]
      | for_enumerate _ _ _ =>
          apply behaves_for_enumerate; [intros; qwalk U | qside U]
      | list_comp _ _ =>
          apply behaves_list_comp; [intros; qwalk U | intros; qside U]
      | run_stage _ _ _ _ _ _ _ =>
          apply behaves_run_stage;
          [ exact I | intros; exact I | intros ? [] | qwalk U | qside U ]
      | if ?c then _ else _ => destruct c eqn:?; qwalk U
      | match ?x with _ => _ end => destruct x; qwalk U
      | _ =>
          progress unfold call, iterate_assignments, get_solver_state,
            add_coarse_terrain, solve_rooms, solve_large, solve_medium,
            solve_small, animate_cameras, set_visibility_mode,
            turn_off_lights, invisible_room_ceilings;
          qwalk U
      end
  end.

Lemma compose_indoors_unhindered (w : World) (a : Args) :
  Unhindered w a ->
  behaves (fun _ => True) (fun r => whole_bbox r = "house_bbox")
    (fun _ => False) (compose_indoors w a).
Proof.
  intros U. unfold compose_indoors. qwalk U.
Qed.

(** X15.  When nothing stands in its way, [compose_indoors] returns: with
    collaborators that do not fail, the three step budgets, no top view, a
    catalog that keeps its stages when restricted, the solved rooms in the
    scene state, and a scene with no table or surface and no object shorter
    than 1.0 besides the rooms, every run passes all the milestones of the
    program and returns the bounding box of the house. *)
Theorem unhindered_run_returns (w : World) (a : Args) (g : Rng) :
  Unhindered w a ->
  skeleton (run_trace w a g) = program_order
  /\ exists h, run_result w a g = Ok (mkResult h "house_bbox").
Proof.
  intros U.
  pose proof (proj2 (behaves_run w a g _ _ _ (compose_indoors_unhindered w a U)))
    as H.
  pose proof (DriverFacts.returned_skeleton w a g) as Hs.
  destruct (run_result w a g) as [r|e]; [|destruct H].
  split; [apply Hs; exact I|].
  destruct r as [h b]. simpl in H. subst b. exists h. reflexivity.
Qed.

End HappyPath.

(* ===================================================================== *)
(** * The script and the catalog                                          *)
(* ===================================================================== *)

Module LauncherFacts.
Import Launcher.

Lemma endswith_cons (c : Ascii.ascii) (rest x : string) :
  endswith (String c rest) x
  = if String.eqb (String c rest) x then true else endswith rest x.
Proof. reflexivity. Qed.

Lemma endswith_suffix (name x : string) :
  endswith name x = true <-> exists p, name = (p ++ x)%string.
Proof.
  split.
  - induction name as [|c rest IH].
    + destruct x; [|discriminate]. intros _. exists "". reflexivity.
    + rewrite endswith_cons.
      destruct (String.eqb (String c rest) x) eqn:E.
      * apply String.eqb_eq in E. subst x. intros _. exists "". reflexivity.
      * intros H. destruct (IH H) as [p ->]. exists (String c p). reflexivity.
  - intros [p ->]. induction p as [|c p IH].
    + change ("" ++ x)%string with x.
      destruct x; [reflexivity|]. rewrite endswith_cons.
      rewrite String.eqb_refl. reflexivity.
    + change (String c p ++ x)%string with (String c (p ++ x)%string).
      rewrite endswith_cons, IH. destruct (String.eqb _ x); reflexivity.
Qed.

Lemma endswith_empty (name : string) : endswith name "" = true.
Proof.
  apply endswith_suffix. exists name.
  induction name as [|c n IH]; simpl; [reflexivity | f_equal; exact IH].
Qed.

(** X13.  The loggers the script sets to DEBUG.  Without [-d] none is.
    Every logger set to DEBUG is in the logger dictionary and has a name
    starting with 'infinigen'.  With [-d] and no name all of these are set,
    and so they are when the empty string is among the names given.  With
    names given, a logger is set exactly when its name starts with
    'infinigen' and ends with one of them. *)
Theorem debug_selection (names : list string) :
  debug_loggers None names = []
  /\ (forall dbg name,
        In name (debug_loggers (Some dbg) names) ->
        In name names /\ startswith name "infinigen" = true)
  /\ debug_loggers (Some []) names
     = filter (fun name => startswith name "infinigen") names
  /\ (forall dbg, In "" dbg ->
                  debug_loggers (Some dbg) names
                  = debug_loggers (Some []) names)
  /\ (forall dbg name,
        dbg <> [] ->
        (In name (debug_loggers (Some dbg) names)
         <-> In name names /\ startswith name "infinigen" = true
             /\ exists x p, In x dbg /\ name = (p ++ x)%string)).
Proof.
  split; [reflexivity|]. split; [|split; [|split]].
  - intros dbg name Hin. unfold debug_loggers in Hin.
    apply filter_In in Hin. destruct Hin as [Hin H]. split; [exact Hin|].
    destruct (startswith name "infinigen"); [reflexivity | discriminate H].
  - unfold debug_loggers. apply filter_ext. intros name.
    destruct (startswith name "infinigen"); reflexivity.
  - intros dbg Hin. unfold debug_loggers. apply filter_ext. intros name.
    destruct (startswith name "infinigen"); simpl; [|reflexivity].
    assert (H : existsb (endswith name) dbg = true).
    { apply existsb_exists. exists "". split; [exact Hin|].
      apply endswith_empty. }
    rewrite H. apply orb_true_r.
  - intros dbg name Hne. unfold debug_loggers. rewrite filter_In.
    assert (Hl : Nat.eqb (List.length dbg) 0 = false).
    { destruct dbg; [congruence | reflexivity]. }
    rewrite Hl. simpl orb.
    destruct (startswith name "infinigen"); simpl.
    + rewrite existsb_exists. split.
      * intros [Hin [x [Hx He]]]. split; [exact Hin|]. split; [reflexivity|].
        apply endswith_suffix in He. destruct He as [p Hp]. eauto.
      * intros [Hin [_ [x [p [Hx Hp]]]]]. split; [exact Hin|].
        exists x. split; [exact Hx|]. apply endswith_suffix. eauto.
    + split; [intros [_ H]; discriminate H | intros [_ [H _]]; discriminate H].
Qed.

End LauncherFacts.

Module CoverageFacts.
Import CatalogSpec.

(** X14.  What the catalog covers.  An entity matches some stage exactly
    when it is a room, or a primary object that stands on the floor or is
    against a wall or the ceiling but not both, or a secondary object that
    is at the side of an object or is on top of or on an object but not
    both.  A primary object against a wall and the ceiling and not on the
    floor is matched by no stage. *)
Theorem catalog_coverage
      floortags walltags ceilingtags side_tags cu_on cu_ontop
      implies objs sigma k s :
  let stages :=
    default_greedy_stages floortags walltags ceilingtags side_tags
      cu_on cu_ontop in
  let floor := related implies objs (on_floor floortags) is_room s in
  let wall := related implies objs (on_wall walltags) is_room s in
  let ceiling := related implies objs (on_ceiling ceilingtags) is_room s in
  let lateral := related implies objs (side side_tags) is_object s in
  let ontop := related implies objs cu_ontop is_object s in
  let on := related implies objs cu_on is_object s in
  existsb (fun name => stage_matches implies objs sigma stages name k s)
          stage_names
  = is_room k s
    || is_primary implies objs sigma k s && (floor || xorb wall ceiling)
    || is_secondary implies objs sigma k s && (lateral || xorb ontop on).
Proof.
  intros stages floor wall ceiling lateral ontop on.
  unfold stages, stage_names. cbn [existsb].
  rewrite !stage_matches_spec_stage. unfold spec_stage.
  change (StableAgainst [] floortags) with (on_floor floortags).
  change (StableAgainst [] walltags) with (on_wall walltags).
  change (StableAgainst [] ceilingtags) with (on_ceiling ceilingtags).
  change (StableAgainst [] side_tags) with (side side_tags).
  fold floor wall ceiling lateral ontop on.
  repeat match goal with
         | |- context [string_dec ?n ?m] =>
             destruct (string_dec n m) as [e|e];
             [try discriminate e | try (exfalso; apply e; reflexivity)]
         end.
  destruct (is_room k s), (is_primary implies objs sigma k s),
    (is_secondary implies objs sigma k s), floor, wall, ceiling, lateral,
    ontop, on; reflexivity.
Qed.

End CoverageFacts.

(* ===================================================================== *)
(** * Stages that wait for another                                        *)
(* ===================================================================== *)

Module PrerequisiteFacts.
Import Driver TraceSpec Behaviour BehaviourFacts Prerequisites.

Section Leads.

Context {A B : Type}.
Variable I : list Event -> Prop.
Variable pe : Event -> Prop.
Hypothesis stable : forall tr added, I tr -> Forall pe added -> I (tr ++ added).

Lemma leads_bind (P : list Event -> Res B -> Prop)
      (m : M A) (f : A -> M B) :
  (forall tr e, I tr -> P tr (Raise e)) ->
  behaves pe (fun _ => True) (fun _ => True) m ->
  (forall x, leads I P (f x)) ->
  leads I P (bind m f).
Proof.
  intros Hex Hm Hf st HI. unfold bind.
  destruct (Hm st) as [[ad [Ht Hp]] _].
  destruct (m st) as [st1 [x|e]]; simpl in *.
  - apply (Hf x st1). rewrite Ht. apply stable; auto.
  - apply Hex. rewrite Ht. apply stable; auto.
Qed.

Lemma leads_behaves (P : list Event -> Res A -> Prop) (m : M A) :
  (forall tr r, I tr -> P tr r) ->
  behaves pe (fun _ => True) (fun _ => True) m ->
  leads I P m.
Proof.
  intros HP Hm st HI.
  destruct (Hm st) as [[ad [Ht Hp]] _].
  apply HP. rewrite Ht. apply stable; auto.
Qed.

End Leads.

(** An event of [l1 ++ l2] is in [l1], or in [l2] with all of [l1] before
    it. *)
Lemma app_split_cases {X} (l1 l2 pre : list X) (x : X) (post : list X) :
  l1 ++ l2 = pre ++ x :: post ->
  (exists post', l1 = pre ++ x :: post')
  \/ (exists pre', pre = l1 ++ pre' /\ In x l2).
Proof.
  intros H. apply app_eq_app in H. destruct H as [l [[H1 H2] | [H1 H2]]].
  - destruct l as [|y l].
    + right. exists []. rewrite app_nil_r in H1. simpl in H2.
      rewrite app_nil_r. split; [auto|]. rewrite <- H2. left. reflexivity.
    + left. simpl in H2. inversion H2. subst. eauto.
  - right. exists l. split; [exact H1|]. rewrite H2.
    apply in_or_app. right. left. reflexivity.
Qed.

Lemma stage_ran_app (tr added : list Event) (name : string) :
  stage_ran tr name = true -> stage_ran (tr ++ added) name = true.
Proof.
  unfold stage_ran. intros H. rewrite existsb_app, H. reflexivity.
Qed.

Lemma stage_ran_snoc (tr : list Event) (name : string) :
  stage_ran (tr ++ [Outcome name RAN]) name = true.
Proof.
  unfold stage_ran. rewrite existsb_app. simpl.
  rewrite String.eqb_refl. apply orb_true_r.
Qed.

(** ** The stages of the cameras *)

Lemma before_cameras_no_fault (ev : Event) :
  before_cameras ev -> camera_fault ev = false.
Proof.
  unfold before_cameras. intros H. apply orb_false_elim in H. tauto.
Qed.

Lemma before_cameras_no_stage (ev : Event) :
  before_cameras ev -> is_stage "animate_cameras" ev = false.
Proof.
  unfold before_cameras. intros H. apply orb_false_elim in H. tauto.
Qed.

Lemma before_cameras_stable (tr added : list Event) :
  Forall before_cameras tr -> Forall before_cameras added ->
  Forall before_cameras (tr ++ added).
Proof. intros. apply Forall_app; auto. Qed.

Lemma no_fault_not_in (tr : list Event) (ev : Event) :
  Forall (fun ev => camera_fault ev = false) tr ->
  camera_fault ev = true -> ~ In ev tr.
Proof.
  intros H He Hin. rewrite Forall_forall in H.
  rewrite (H ev Hin) in He. discriminate He.
Qed.

Lemma no_fault_verdict (tr : list Event) (res : Res Result) :
  animate_after_pose tr ->
  Forall (fun ev => camera_fault ev = false) tr ->
  cameras_verdict tr res.
Proof.
  intros H1 H2. split; [exact H1|]. split.
  - apply no_fault_not_in; [exact H2 | reflexivity].
  - intros Hin. exfalso. revert Hin.
    apply no_fault_not_in; [exact H2 | reflexivity].
Qed.

Lemma before_cameras_verdict (tr : list Event) (res : Res Result) :
  Forall before_cameras tr -> cameras_verdict tr res.
Proof.
  intros H. apply no_fault_verdict.
  - intros pre ev post -> Hs. rewrite Forall_forall in H.
    rewrite (before_cameras_no_stage ev) in Hs; [discriminate Hs|].
    apply H. apply in_or_app. right. left. reflexivity.
  - eapply Forall_impl; [|exact H]. apply before_cameras_no_fault.
Qed.

Lemma cameras_posed_verdict (tr : list Event) (res : Res Result) :
  cameras_posed tr -> cameras_verdict tr res.
Proof.
  intros [H1 [H2 _]]. apply no_fault_verdict; assumption.
Qed.

(** Once pose_cameras has run, only a record of a fault could undo it. *)
Lemma cameras_posed_app (tr added : list Event) :
  cameras_posed tr ->
  Forall (fun ev => camera_fault ev = false) added ->
  cameras_posed (tr ++ added).
Proof.
  intros [H1 [H2 H3]] Ha. split; [|split].
  - intros pre ev post Heq Hs.
    destruct (app_split_cases _ _ _ _ _ Heq) as [[post' ->] | [pre' [-> _]]].
    + eapply H1; [reflexivity | exact Hs].
    + apply stage_ran_app. exact H3.
  - apply Forall_app; auto.
  - apply stage_ran_app. exact H3.
Qed.

Lemma cameras_posed_stable (tr added : list Event) :
  cameras_posed tr -> Forall before_cameras added ->
  cameras_posed (tr ++ added).
Proof.
  intros H Ha. apply cameras_posed_app; [exact H|].
  eapply Forall_impl; [|exact Ha]. apply before_cameras_no_fault.
Qed.

Section Cameras.

Variable w : World.

Local Abbreviation quiet m :=
  (behaves before_cameras (fun _ => True) (fun _ => True) m).

(** A stage without chance whose prerequisite, if any, is met: [fn] runs
    on the stream of the stage. *)
Lemma run_stage_runs {A} (p : Executor) (name : string) (fn : M A) (d : A)
      (pr : option string) (st : St) :
  let tr1 := trace st ++ [RunStage name false pr] in
  match pr with Some q => stage_ran tr1 q | None => true end = true ->
  run_stage w p name fn false d pr st
  = match fn (mkSt tr1 (int_hash w (ex_scene_seed p) name)) with
    | (st', Ok x) =>
        (mkSt (trace st' ++ [Outcome name RAN]) (np_global st), Ok x)
    | (st', Raise e) =>
        if default_on_failure w name
        then (mkSt (trace st' ++ [StageFailure name e;
                                  Outcome name FAILED_DEFAULTED])
                   (np_global st), Ok d)
        else (mkSt (trace st' ++ [StageFailure name e]) (np_global st),
              Raise e)
    end.
Proof.
  intros tr1 H. unfold run_stage, bind, emit, get_trace, ret.
  cbn [trace np_global andb]. fold tr1.
  destruct pr as [q|]; [rewrite H|]; reflexivity.
Qed.

(** The stage of pose_cameras: the run goes on only when it has run. *)
Lemma pose_cameras_switch (p : Executor)
      (fn : M (option (Handle * list BpyObject)))
      (f : option (Handle * list BpyObject) -> M Result) :
  quiet fn ->
  f None = raise (TypeError "cannot unpack non-iterable NoneType object") ->
  (forall x, leads cameras_posed cameras_verdict (f (Some x))) ->
  leads (Forall before_cameras) cameras_verdict
    (bind (run_stage w p "pose_cameras" fn false None None) f).
Proof.
  intros Hfn HN HS st HI. unfold bind.
  rewrite run_stage_runs by reflexivity.
  set (tr1 := trace st ++ [RunStage "pose_cameras" false None]).
  set (st1 := mkSt tr1 (int_hash w (ex_scene_seed p) "pose_cameras")).
  destruct (Hfn st1) as [[ad [Ht Hp]] _].
  assert (H1 : Forall before_cameras tr1).
  { apply Forall_app. split; [exact HI|]. repeat constructor. }
  assert (H2 : forall ev, before_cameras ev ->
                          Forall before_cameras (trace (fst (fn st1)) ++ [ev])).
  { intros ev Hev. rewrite Ht.
    apply Forall_app; split; [apply Forall_app; split|];
      [exact H1 | exact Hp | repeat constructor; exact Hev]. }
  destruct (fn st1) as [st' [x|e]]; cbn [trace fst snd] in H2.
  - specialize (H2 (Outcome "pose_cameras" RAN) eq_refl).
    destruct x as [x|].
    + apply (HS x (mkSt _ _)). cbn [trace]. split; [|split].
      * intros pre ev post Heq Hs. rewrite Forall_forall in H2.
        rewrite (before_cameras_no_stage ev) in Hs; [discriminate Hs|].
        apply H2. rewrite Heq. apply in_or_app. right. left. reflexivity.
      * eapply Forall_impl; [|exact H2]. apply before_cameras_no_fault.
      * apply stage_ran_snoc.
    + rewrite HN. cbn [raise trace fst snd].
      apply before_cameras_verdict. exact H2.
  - specialize (H2 (StageFailure "pose_cameras" e) eq_refl).
    destruct (default_on_failure w "pose_cameras").
    + rewrite HN. cbn [raise trace fst snd].
      change [StageFailure "pose_cameras" e;
              Outcome "pose_cameras" FAILED_DEFAULTED]
        with ([StageFailure "pose_cameras" e]
                ++ [Outcome "pose_cameras" FAILED_DEFAULTED]).
      rewrite app_assoc.
      split; [|split].
      * intros pre ev post Heq Hs.
        destruct (app_split_cases _ _ _ _ _ Heq)
          as [[post' Hq] | [pre' [_ [<- | []]]]]; [|discriminate Hs].
        rewrite Forall_forall in H2.
        rewrite (before_cameras_no_stage ev) in Hs; [discriminate Hs|].
        apply H2. rewrite Hq. apply in_or_app. right. left. reflexivity.
      * intros Hin. apply in_app_or in Hin. destruct Hin as [Hin | Hin].
        -- rewrite Forall_forall in H2. apply H2 in Hin. discriminate Hin.
        -- destruct Hin as [Hin | []]; discriminate Hin.
      * intros _. split; [|reflexivity]. apply DriverFacts.last_event_snoc.
    + cbn [trace fst snd]. apply before_cameras_verdict. exact H2.
Qed.

(** The stage of animate_cameras, once pose_cameras has run, is not
    skipped. *)
Lemma animate_cameras_step (p : Executor) (fn : M unit) (f : unit -> M Result) :
  quiet fn ->
  (forall x, leads cameras_posed cameras_verdict (f x)) ->
  leads cameras_posed cameras_verdict
    (bind (run_stage w p "animate_cameras" fn false tt (Some "pose_cameras"))
          f).
Proof.
  intros Hfn Hf st HI. unfold bind.
  set (ev1 := RunStage "animate_cameras" false (Some "pose_cameras")).
  assert (H1 : cameras_posed (trace st ++ [ev1])).
  { apply cameras_posed_app; [exact HI | repeat constructor]. }
  rewrite run_stage_runs by (apply H1).
  fold ev1.
  set (st1 := mkSt (trace st ++ [ev1])
                   (int_hash w (ex_scene_seed p) "animate_cameras")).
  destruct (Hfn st1) as [[ad [Ht Hp]] _].
  assert (H2 : forall l, Forall (fun ev => camera_fault ev = false) l ->
                         cameras_posed (trace (fst (fn st1)) ++ l)).
  { intros l Hl. rewrite Ht. apply cameras_posed_app; [|exact Hl].
    apply cameras_posed_stable; [exact H1 | exact Hp]. }
  destruct (fn st1) as [st' [x|e]]; cbn [trace fst snd] in H2.
  - apply (Hf x (mkSt _ _)). apply H2. repeat constructor.
  - destruct (default_on_failure w "animate_cameras").
    + apply (Hf tt (mkSt _ _)). apply H2. repeat constructor.
    + cbn [trace fst snd]. apply cameras_posed_verdict. apply H2.
      repeat constructor.
Qed.

End Cameras.

(** ** Walking the program up to the cameras, and after *)

Ltac after_cameras :=
  cbv beta zeta;
  lazymatch goal with
  | |- leads _ _ (bind (run_stage _ _ "animate_cameras" _ _ _ _) _) =>
      apply animate_cameras_step;
      [ bwalk
      | intros ?; eapply leads_behaves;
        [ exact cameras_posed_stable
        | intros; apply cameras_posed_verdict; assumption
        | bwalk ] ]
  | |- leads _ _ (bind _ _) =>
      eapply leads_bind;
      [ exact cameras_posed_stable
      | intros; apply cameras_posed_verdict; assumption
      | bwalk
      | intros ?; after_cameras ]
  end.

Ltac to_cameras :=
  cbv beta zeta;
  lazymatch goal with
  | |- leads _ _ (bind (run_stage _ _ "pose_cameras"
                          (pose_cameras _ ?state _) _ _ _) _) =>
      destruct state;
      (apply pose_cameras_switch;
       [ bwalk | reflexivity | intros [? ?]; after_cameras ])
  | |- leads _ _ (bind _ _) =>
      eapply leads_bind;
      [ exact before_cameras_stable
      | intros; apply before_cameras_verdict; assumption
      | bwalk
      | intros ?; to_cameras ]
  end.

Lemma compose_indoors_cameras (w : World) (a : Args) :
  leads (Forall before_cameras) cameras_verdict (compose_indoors w a).
Proof.
  unfold compose_indoors. to_cameras.
Qed.


Lemma run_cameras (w : World) (a : Args) (g : Rng) :
  cameras_verdict (run_trace w a g) (run_result w a g).
Proof.
  apply (compose_indoors_cameras w a (mkSt [] g)). constructor.
Qed.

(** X16.  The prerequisite of animate_cameras is always met.  Whenever a
    run hands animate_cameras to the executor, pose_cameras has run before:
    a run in which pose_cameras did not run has ended before that, at the
    failure of the stage or at the unpacking of its default.  So no run
    records animate_cameras as skipped for its prerequisite. *)
Theorem animate_cameras_never_skipped (w : World) (a : Args) (g : Rng) :
  let tr := run_trace w a g in
  (forall pre uc pr post,
      tr = pre ++ RunStage "animate_cameras" uc pr :: post ->
      stage_ran pre "pose_cameras" = true)
  /\ ~ In (Outcome "animate_cameras" SKIPPED_PREREQ) tr.
Proof.
  intros tr. destruct (run_cameras w a g) as [H1 [H2 _]]. split.
  - intros pre uc pr post Heq. eapply H1; [exact Heq | reflexivity].
  - exact H2.
Qed.

(** X17.  A failure of pose_cameras cannot be defaulted away.  When the
    executor replaces the failed stage by its default, [None], the run ends
    right there, at the unpacking of the result, with [TypeError]: the
    record of the default is the last event of the run. *)
Theorem defaulted_pose_cameras_is_fatal (w : World) (a : Args) (g : Rng) :
  In (Outcome "pose_cameras" FAILED_DEFAULTED) (run_trace w a g) ->
  last_event (run_trace w a g) = Some (Outcome "pose_cameras" FAILED_DEFAULTED)
  /\ run_result w a g
     = Raise (TypeError "cannot unpack non-iterable NoneType object").
Proof.
  intros Hin. destruct (run_cameras w a g) as [_ [_ H3]]. exact (H3 Hin).
Qed.

End PrerequisiteFacts.

Module BackdropFacts.
Import Driver TraceSpec Behaviour BehaviourFacts Prerequisites Backdrop.
Import PrerequisiteFacts.

Local Abbreviation no_backdrop := (fun ev => backdrop_event ev = false).

Lemma no_backdrop_stable (tr added : list Event) :
  Forall no_backdrop tr -> Forall no_backdrop added ->
  Forall no_backdrop (tr ++ added).
Proof. intros. apply Forall_app; auto. Qed.

Lemma stage_ran_false (l : list Event) (name : string) :
  Forall (fun ev => stage_ran [ev] name = false) l ->
  stage_ran l name = false.
Proof.
  induction 1 as [|ev l Hev _ IH]; [reflexivity|].
  unfold stage_ran in *. simpl in *. rewrite IH.
  rewrite orb_false_r in Hev. rewrite Hev. reflexivity.
Qed.

Lemma no_backdrop_not_ran (ev : Event) :
  backdrop_event ev = false -> stage_ran [ev] "nature_backdrop" = false.
Proof.
  unfold stage_ran. simpl. rewrite orb_false_r.
  destruct ev; try reflexivity.
  destruct o; try reflexivity. simpl. rewrite andb_true_r. auto.
Qed.

Lemma no_backdrop_no_call (ev : Event) :
  backdrop_event ev = false -> is_backdrop_call ev = false.
Proof. destruct ev; try reflexivity. simpl. auto. Qed.

(** A trace without a call of the backdrop. *)
Lemma verdict_without_call (tr : list Event) (res : Res Result) :
  Forall (fun ev => is_backdrop_call ev = false) tr ->
  (forall r, res = Ok r ->
             height_offset r
             = if stage_ran tr "nature_backdrop"
               then inr "create_outdoor_backdrop" else inl 0%Z) ->
  backdrop_verdict tr res.
Proof.
  intros H Hv. split; [|exact Hv].
  intros pre ev post -> Hc. rewrite Forall_forall in H.
  rewrite H in Hc; [discriminate Hc|].
  apply in_or_app. right. left. reflexivity.
Qed.

(** A trace with one call of the backdrop, after the terrain has run. *)
Lemma verdict_with_call (l1 l2 : list Event) (x : Event) (res : Res Result) :
  Forall (fun ev => is_backdrop_call ev = false) l1 ->
  stage_ran l1 "terrain" = true ->
  (forall r, res = Ok r ->
             height_offset r
             = if stage_ran (l1 ++ x :: l2) "nature_backdrop"
               then inr "create_outdoor_backdrop" else inl 0%Z) ->
  backdrop_verdict (l1 ++ x :: l2) res.
Proof.
  intros H1 Ht Hv. split; [|exact Hv].
  intros pre ev post Heq Hc.
  destruct (app_split_cases _ _ _ _ _ Heq) as [[post' ->] | [pre' [-> _]]].
  - rewrite Forall_forall in H1. rewrite H1 in Hc; [discriminate Hc|].
    apply in_or_app. right. left. reflexivity.
  - apply stage_ran_app. exact Ht.
Qed.

Section Stage.

Variable w : World.

(** A stage whose prerequisite has not run is skipped. *)
Lemma run_stage_skips {A} (p : Executor) (name : string) (fn : M A) (uc : bool)
      (d : A) (q : string) (st : St) :
  let tr1 := trace st ++ [RunStage name uc (Some q)] in
  stage_ran tr1 q = false ->
  run_stage w p name fn uc d (Some q) st
  = (mkSt (tr1 ++ [Outcome name SKIPPED_PREREQ]) (np_global st), Ok d).
Proof.
  intros tr1 H. unfold run_stage, bind, emit, get_trace, ret.
  cbn [trace np_global]. fold tr1. rewrite H. reflexivity.
Qed.

Lemma backdrop_fn_run (st : St) :
  let ev := Call "create_outdoor_backdrop" in
  bind (call w "create_outdoor_backdrop")
       (fun h => ret (@inr Z Handle h)) st
  = (mkSt (trace st ++ [ev]) (rng_step w (trace st) ev (np_global st)),
     if raises w (trace st) ev
     then Raise (CollaboratorError "create_outdoor_backdrop")
     else Ok (inr "create_outdoor_backdrop")).
Proof.
  intros ev. unfold call, bind, ret. rewrite ClosureFacts.ext_run.
  fold ev. destruct (raises w (trace st) ev); reflexivity.
Qed.

(** The stage of the backdrop, and what follows it. *)
Lemma backdrop_step (p : Executor) (fn : M (Z + Handle))
      (f : Z + Handle -> M Result) :
  fn = bind (call w "create_outdoor_backdrop") (fun h => ret (inr h)) ->
  (forall h, behaves no_backdrop (fun r => height_offset r = h)
               (fun _ => True) (f h)) ->
  leads (Forall no_backdrop) backdrop_verdict
    (bind (run_stage w p "nature_backdrop" fn false (inl 0%Z)
             (Some "terrain")) f).
Proof.
  intros Efn Hf st HI. unfold bind.
  set (tr1 := trace st ++ [RunStage "nature_backdrop" false (Some "terrain")]).
  assert (H1 : Forall no_backdrop tr1).
  { apply Forall_app. split; [exact HI | repeat constructor]. }
  assert (Hnc : forall l, Forall no_backdrop l ->
                          Forall (fun ev => is_backdrop_call ev = false) l).
  { intros l Hl. eapply Forall_impl; [|exact Hl]. apply no_backdrop_no_call. }
  assert (Hnr : forall l, Forall no_backdrop l ->
                          Forall (fun ev => stage_ran [ev] "nature_backdrop"
                                            = false) l).
  { intros l Hl. eapply Forall_impl; [|exact Hl]. apply no_backdrop_not_ran. }
  destruct (stage_ran tr1 "terrain") eqn:Et.
  - rewrite run_stage_runs by exact Et. fold tr1.
    rewrite Efn, backdrop_fn_run. cbn [trace].
    set (ev := Call "create_outdoor_backdrop").
    destruct (raises w tr1 ev).
    + destruct (default_on_failure w "nature_backdrop").
      * set (st2 := mkSt _ _).
        destruct (Hf (inl 0%Z) st2) as [[ad [Ht Hp]] Ho].
        destruct (f (inl 0%Z) st2) as [st3 res]. cbn [fst snd] in *.
        rewrite Ht. unfold st2. cbn [trace]. rewrite <- !app_assoc.
        cbn [app]. apply verdict_with_call; [auto | exact Et |].
        intros r Hr. subst res. rewrite Ho.
        rewrite stage_ran_false; [reflexivity|].
        apply Forall_app. split; [auto|].
        repeat (constructor; [reflexivity|]). auto.
      * cbn [trace fst snd]. rewrite <- !app_assoc. cbn [app].
        apply verdict_with_call; [auto | exact Et |].
        intros r Hr. discriminate Hr.
    + set (st2 := mkSt _ _).
      destruct (Hf (inr "create_outdoor_backdrop") st2) as [[ad [Ht Hp]] Ho].
      destruct (f (inr "create_outdoor_backdrop") st2) as [st3 res].
      cbn [fst snd] in *. rewrite Ht. unfold st2. cbn [trace]. rewrite <- !app_assoc.
      cbn [app]. apply verdict_with_call; [auto | exact Et |].
      intros r Hr. subst res. rewrite Ho.
      change (tr1 ++ ev :: Outcome "nature_backdrop" RAN :: ad)
        with (tr1 ++ [ev] ++ [Outcome "nature_backdrop" RAN] ++ ad).
      rewrite !app_assoc. rewrite stage_ran_app; [reflexivity|].
      apply stage_ran_snoc.
  - rewrite run_stage_skips by exact Et. fold tr1.
    set (st2 := mkSt _ _).
    destruct (Hf (inl 0%Z) st2) as [[ad [Ht Hp]] Ho].
    destruct (f (inl 0%Z) st2) as [st3 res]. cbn [fst snd] in *.
    rewrite Ht. unfold st2. cbn [trace].
    assert (H2 : Forall no_backdrop
                   ((tr1 ++ [Outcome "nature_backdrop" SKIPPED_PREREQ]) ++ ad)).
    { repeat (apply Forall_app; split); auto; repeat constructor. }
    apply verdict_without_call; [auto|].
    intros r Hr. subst res. rewrite Ho.
    rewrite stage_ran_false; [reflexivity | auto].
Qed.

End Stage.

(** ** Walking the program up to the backdrop *)

Lemma no_backdrop_verdict (tr : list Event) (e : Exn) :
  Forall no_backdrop tr -> backdrop_verdict tr (Raise e).
Proof.
  intros H. apply verdict_without_call.
  - eapply Forall_impl; [|exact H]. apply no_backdrop_no_call.
  - intros r Hr. discriminate Hr.
Qed.

Ltac to_backdrop :=
  cbv beta iota zeta;
  lazymatch goal with
  | |- leads _ _ (bind (run_stage _ _ "nature_backdrop" _ _ _ _) _) =>
      apply backdrop_step; [reflexivity | intros ?; bwalk]
  | |- leads _ _ (bind (run_stage _ _ "pose_cameras"
                          (pose_cameras _ ?state _) _ _ _) _) =>
      destruct state;
      (eapply leads_bind;
       [ exact no_backdrop_stable
       | intros; apply no_backdrop_verdict; assumption
       | bwalk
       | intros ?; to_backdrop ])
  | |- leads _ _ (bind _ _) =>
      eapply leads_bind;
      [ exact no_backdrop_stable
      | intros; apply no_backdrop_verdict; assumption
      | bwalk
      | intros ?; to_backdrop ]
  | |- leads _ _ (raise _) =>
      intros ? ?; apply no_backdrop_verdict; assumption
  | |- leads _ _ (match ?r with _ => _ end) =>
      destruct r as [[? ?]|]; to_backdrop
  end.

Lemma compose_indoors_backdrop (w : World) (a : Args) :
  leads (Forall no_backdrop) backdrop_verdict (compose_indoors w a).
Proof.
  unfold compose_indoors. to_backdrop.
Qed.

(** X18.  The backdrop and [height_offset].  [create_outdoor_backdrop] is
    called only in a run in which the terrain stage has run before, so never
    with the [None] terrain of a defaulted stage.  The [height_offset] a run
    returns is what the backdrop returned when the nature_backdrop stage
    ran, and the default 0 when it was skipped or defaulted. *)
Theorem backdrop_needs_terrain (w : World) (a : Args) (g : Rng) :
  let tr := run_trace w a g in
  (forall pre post,
      tr = pre ++ Call "create_outdoor_backdrop" :: post ->
      stage_ran pre "terrain" = true)
  /\ (forall r, run_result w a g = Ok r ->
                height_offset r
                = if stage_ran tr "nature_backdrop"
                  then inr "create_outdoor_backdrop"
                  else inl 0%Z).
Proof.
  intros tr.
  destruct (compose_indoors_backdrop w a (mkSt [] g) (Forall_nil _))
    as [H1 H2].
  split; [|exact H2].
  intros pre post Heq. eapply H1; [exact Heq | reflexivity].
Qed.

End BackdropFacts.

(* ===================================================================== *)
(** * The sample scenes, once more                                        *)
(* ===================================================================== *)

Module MoreSampleFacts.
Import Driver TraceSpec Samples MoreSamples Behaviour Launcher.
Import Prerequisites Backdrop.

(** With one room bound, the large solve asks for the assignments and makes
    one call, on_floor_0, with 300 steps and the default abort flag. *)
Lemma solve_large_one_room :
  let r := solve_large one_room_world (sample_args step_budgets)
             sample_stages (Some 0) (mkSt [] 0%Z) in
  trace (fst r)
  = [IterateAssignments sample_on_floor all_vars true;
     SolveObjects sample_on_floor room0_bound (VInt 300) "on_floor_0"
       (Some (VBool false))]
  /\ snd r = Ok (Some 0).
Proof.
  destruct (ClosureFacts.solve_large_calls one_room_world
              (sample_args step_budgets) sample_stages (Some 0)
              (mkSt [] 0%Z) sample_on_floor (VInt 300)
              eq_refl eq_refl eq_refl) as [k [_ [Ht [[Hr Hk] | [Hr _]]]]].
  - split; [|exact Hr]. rewrite Ht, Hk. reflexivity.
  - discriminate Hr.
Defined.

(** With one room bound, the medium solve makes one call for each of its
    three stages, with 200 steps and no abort flag. *)
Lemma solve_medium_one_room :
  let r := solve_medium one_room_world (sample_args step_budgets)
             sample_stages (Some 0) (mkSt [] 0%Z) in
  map (fun ev => match ev with
                 | SolveObjects _ _ n d ab => Some (d, n, ab)
                 | _ => None
                 end) (trace (fst r))
  = [None; Some ("on_wall_0", VInt 200, None);
     None; Some ("on_ceiling_0", VInt 200, None);
     None; Some ("side_obj_0", VInt 200, None)]
  /\ snd r = Ok (Some 0).
Proof.
  destruct (ClosureFacts.solve_medium_calls one_room_world
              (sample_args step_budgets) sample_stages (Some 0)
              (mkSt [] 0%Z) (sample_stage "on_wall")
              (sample_stage "on_ceiling") (sample_stage "side_obj")
              (VInt 200) eq_refl eq_refl eq_refl eq_refl)
    as [[Ht Hr] | [k [pre [ev [_ [_ [_ [Hf _]]]]]]]].
  - split; [|exact Hr]. rewrite Ht. reflexivity.
  - discriminate Hf.
Defined.

(** With one room bound, the small solve makes one call for each of its two
    stages, with 50 steps and no abort flag. *)
Lemma solve_small_one_room :
  let r := solve_small one_room_world (sample_args step_budgets)
             sample_stages (Some 0) (mkSt [] 0%Z) in
  map (fun ev => match ev with
                 | SolveObjects _ _ n d ab => Some (d, n, ab)
                 | _ => None
                 end) (trace (fst r))
  = [None; Some ("obj_ontop_obj_0", VInt 50, None);
     None; Some ("obj_on_support_0", VInt 50, None)]
  /\ snd r = Ok (Some 0).
Proof.
  destruct (ClosureFacts.solve_small_calls one_room_world
              (sample_args step_budgets) sample_stages (Some 0)
              (mkSt [] 0%Z) (sample_stage "obj_ontop_obj")
              (sample_stage "obj_on_support")
              (VInt 50) eq_refl eq_refl eq_refl)
    as [[Ht Hr] | [k [pre [ev [_ [_ [_ [Hf _]]]]]]]].
  - split; [|exact Hr]. rewrite Ht. reflexivity.
  - discriminate Hf.
Defined.

(** on_wall_3 is the description of the fourth assignment of on_wall, and of
    no other. *)
Lemma on_wall_3_is_on_wall_3 :
  desc_of "on_wall" 3 = "on_wall_3"
  /\ forall s i, In s object_stages -> desc_of s i = "on_wall_3" ->
                 s = "on_wall" /\ i = 3.
Proof.
  split; [reflexivity|]. intros s i Hs H.
  apply (ClosureFacts.solve_descriptions_distinct s "on_wall" i 3 Hs).
  - simpl. tauto.
  - exact H.
Defined.

(** The quiet run, which does not ask for a restriction, has none. *)
Lemma quiet_run_draws_nothing :
  Forall (fun ev => restriction_event ev = false)
         (run_trace quiet_world (sample_args step_budgets) 0%Z).
Proof.
  apply RunFacts.restriction_only_on_request. reflexivity.
Defined.

(** Nothing stands in the way of the run with one room. *)
Lemma one_room_unhindered :
  Unhindered one_room_world (sample_args step_budgets).
Proof.
  constructor.
  - reflexivity.
  - intros k Hk. simpl in Hk.
    repeat (destruct Hk as [<- | Hk]; [discriminate|]). destruct Hk.
  - reflexivity.
  - intros tr stages H. exact H.
  - intros tr stages rooms var H. exact H.
  - intros tr d asg [<- | []]. exists "room0". split; [reflexivity|].
    intros tr' s. discriminate.
  - reflexivity.
  - intros tr s o [].
Qed.

(** The run with one room passes every milestone and returns. *)
Lemma one_room_run_returns :
  skeleton (run_trace one_room_world (sample_args step_budgets) 0%Z)
  = program_order
  /\ exists h,
      run_result one_room_world (sample_args step_budgets) 0%Z
      = Ok (mkResult h "house_bbox").
Proof.
  apply HappyPath.unhindered_run_returns. exact one_room_unhindered.
Defined.

(** When the configuration of the cameras fails and the stage is
    defaulted, the run ends at the unpacking of the default. *)
Lemma no_cameras_run_ends_at_unpacking :
  last_event (run_trace no_cameras_world (sample_args step_budgets) 0%Z)
  = Some (Outcome "pose_cameras" FAILED_DEFAULTED)
  /\ run_result no_cameras_world (sample_args step_budgets) 0%Z
     = Raise (TypeError "cannot unpack non-iterable NoneType object").
Proof.
  apply PrerequisiteFacts.defaulted_pose_cameras_is_fatal.
  apply in_rev. vm_compute. left. reflexivity.
Defined.

(** When the terrain fails and the stage is defaulted, the backdrop is
    skipped and the run returns the default [height_offset]. *)
Lemma no_terrain_run_has_no_backdrop :
  In (Outcome "nature_backdrop" SKIPPED_PREREQ)
     (run_trace no_terrain_world (sample_args step_budgets) 0%Z)
  /\ run_result no_terrain_world (sample_args step_budgets) 0%Z
     = Ok (mkResult (inl 0%Z) "house_bbox")
  /\ run_result quiet_world (sample_args step_budgets) 0%Z
     = Ok (mkResult (inr "create_outdoor_backdrop") "house_bbox").
Proof.
  split; [|split]; [|reflexivity|reflexivity].
  apply in_rev. vm_compute. left. reflexivity.
Qed.

End MoreSampleFacts.
